(** * Deadlock Detective: a shallow embedding of the analysis core

    The development embeds [models.py], [detectors/matrix.py],
    [detectors/wfg.py], [strategies/recovery.py] and [io_utils/schema.py].  Python integers are
    [Z], process and resource indices (values of [range]) are [nat],
    Python lists are [list], Python sets of ids are [gset nat], and code
    that can raise runs in the [outcome] monad below. *)

From stdpp Require Import base list gmap sets strings pretty sorting.

Open Scope string_scope.
Open Scope list_scope.
Open Scope Z_scope.

(** ** Exceptions and the result of running Python code *)

Inductive exn : Type :=
| ValueError (msg : string)
| IndexError
| KeyError
| RecursionError.

(** [NoFuel] is the outcome of a loop that was cut off by the bound placed
    on it in the embedding; no Python run ends this way.  The recursion of
    [dfs] is not bounded in this way: it ends in [RecursionError] when the
    interpreter has no frame left, as in CPython. *)
Inductive outcome (A : Type) : Type :=
| Ok (a : A)
| Raise (e : exn)
| NoFuel.
Arguments Ok {A} a.
Arguments Raise {A} e.
Arguments NoFuel {A}.

Definition outcome_bind {A B} (k : A → outcome B) (r : outcome A) : outcome B :=
  match r with
  | Ok a => k a
  | Raise e => Raise e
  | NoFuel => NoFuel
  end.

#[export] Instance outcome_mbind : MBind outcome := @outcome_bind.
#[export] Instance outcome_mret : MRet outcome := @Ok.
#[export] Instance outcome_fmap : FMap outcome :=
  λ A B f r, outcome_bind (λ a, Ok (f a)) r.

(** ** Python primitives *)

(** [l[i]] for an index produced by [range]: [IndexError] when out of range. *)
Definition py_index {A} (l : list A) (i : nat) : outcome A :=
  match l !! i with
  | Some x => Ok x
  | None => Raise IndexError
  end.

(** [l[i] = x] *)
Definition py_setitem {A} (l : list A) (i : nat) (x : A) : outcome (list A) :=
  match l !! i with
  | Some _ => Ok (<[i := x]> l)
  | None => Raise IndexError
  end.

(** [l.index(x)]: [ValueError] when [x] does not occur. *)
Fixpoint list_find_index (x : nat) (l : list nat) : option nat :=
  match l with
  | [] => None
  | y :: l' => if decide (y = x) then Some 0%nat
               else S <$> list_find_index x l'
  end.

Definition py_list_index (l : list nat) (x : nat) : outcome nat :=
  match list_find_index x l with
  | Some i => Ok i
  | None => Raise (ValueError (pretty x +:+ " is not in list"))
  end.

(** [range(n)] *)
Definition range (n : nat) : list nat := seq 0 n.

(** [for x in l: body(x)] where the body only raises or falls through. *)
Fixpoint for_each {A} (l : list A) (body : A → outcome unit) : outcome unit :=
  match l with
  | [] => Ok ()
  | x :: l' => _ ← body x; for_each l' body
  end.

(** [[f(x) for x in l]] *)
Fixpoint mapM {A B} (f : A → outcome B) (l : list A) : outcome (list B) :=
  match l with
  | [] => Ok []
  | x :: l' => y ← f x; ys ← mapM f l'; Ok (y :: ys)
  end.

(** A [for] loop threading a state. *)
Fixpoint foldM {A S} (f : S → A → outcome S) (s : S) (l : list A) : outcome S :=
  match l with
  | [] => Ok s
  | x :: l' => s' ← f s x; foldM f s' l'
  end.

(** [enumerate(l)] *)
Definition enumerate {A} (l : list A) : list (nat * A) :=
  zip (seq 0 (length l)) l.

(** [sep.join(l)] *)
Definition join (sep : string) (l : list string) : string := String.concat sep l.

(** [sorted(s)] for a set of ids. *)
Definition sorted (s : gset nat) : list nat := merge_sort (≤)%nat (elements s).

(** [sum(...)] *)
Definition py_sum (l : list Z) : Z := foldl Z.add 0 l.

(** [itertools.combinations(l, r)]: the [r]-element subsequences of [l],
    in lexicographic order of positions. *)
Fixpoint combinations {A} (l : list A) (r : nat) : list (list A) :=
  match r, l with
  | O, _ => [[]]
  | S _, [] => []
  | S r', x :: l' => (cons x <$> combinations l' r') ++ combinations l' r
  end.

(** Iterating over a Python set visits every element once, in an order the
    language leaves open.  The embedding is parametric in that order. *)
Class SetOrder : Type := {
  set_iter : gset nat → list nat;
  set_iter_perm : ∀ s, set_iter s ≡ₚ elements s
}.

(** One such order, used to run the embedding on concrete states. *)
Definition ascending_order : SetOrder :=
  {| set_iter := sorted;
     set_iter_perm := λ s, merge_sort_Permutation (≤)%nat (elements s) |}.

(** Another one: the ids in descending order. *)
Definition descending_order : SetOrder :=
  {| set_iter := λ s, reverse (sorted s);
     set_iter_perm := λ s,
       transitivity (reverse_Permutation (sorted s))
                    (merge_sort_Permutation (≤)%nat (elements s)) |}.

(** The sets of an adjacency dictionary are filled by successive [add]s,
    and the order in which CPython visits a set depends on that history:
    two equal sets can be visited in different orders.  The search is
    parametric in the order of every adjacency set, named by the key it is
    stored under; each of these sets is visited at most once in a run. *)
Class NeighbourOrder : Type := {
  neighbour_iter : nat → gset nat → list nat;
  neighbour_iter_perm : ∀ node s, neighbour_iter node s ≡ₚ elements s
}.

(** Every adjacency set in one and the same order.  CPython stores a
    small integer in the slot of its own value when that slot is free, so
    the sets of a state of at most eight processes are visited in
    ascending order whatever their history: [uniform_order
    ascending_order] is the order of the code on such a state. *)
Definition uniform_order (O : SetOrder) : NeighbourOrder :=
  {| neighbour_iter := λ _, @set_iter O;
     neighbour_iter_perm := λ _, @set_iter_perm O |}.

(** An order that depends on the key: the sets stored under odd keys are
    visited in descending order, the others in ascending order, so that
    two equal sets can be visited in different orders. *)
Definition alternating_order : NeighbourOrder :=
  {| neighbour_iter := λ node,
       if Nat.odd node then @set_iter descending_order
       else @set_iter ascending_order;
     neighbour_iter_perm := λ node,
       match Nat.odd node as b
         return ∀ s, (if b then @set_iter descending_order
                      else @set_iter ascending_order) s ≡ₚ elements s with
       | true => @set_iter_perm descending_order
       | false => @set_iter_perm ascending_order
       end |}.

(** The interpreter raises [RecursionError] when a call of a function
    written in Python needs a frame and none is free.  [free_frames] is
    the number of frames that are free when [detect_cycles_dfs] starts its
    loop: the recursion limit less the frames in use by then.  Only the
    nested calls of [dfs], and the constructors they call, go deeper with
    the size of the input, and only these are counted; the other calls of
    the module go at most one frame deeper than [detect_cycles_dfs]
    itself and are taken to fit. *)
Class CallStack : Type := { free_frames : nat }.

(** CPython's default limit of 1000 frames, three of them in use: the
    caller's, [detect_deadlock_wfg]'s and [detect_cycles_dfs]'s. *)
Definition default_stack : CallStack := {| free_frames := 997 |}.

(** A call of a function written in Python, with [frames] frames free. *)
Definition call_frame (frames : nat) : outcome unit :=
  if frames is O then Raise RecursionError else Ok ().

(** ** models.py *)

Record Process : Type := mkProcess {
  pid : Z;
  name : string
}.

Record ResourceType : Type := mkResourceType {
  rid : Z;
  rname : string;
  instances : Z
}.

Record SystemState : Type := mkSystemState {
  processes : list Process;
  resource_types : list ResourceType;
  available : list Z;
  allocation : list (list Z);
  request : list (list Z)
}.

(** [state.n], [state.m] *)
Definition n (state : SystemState) : nat := length (processes state).
Definition m (state : SystemState) : nat := length (resource_types state).

Definition raise_if (c : bool) (msg : string) : outcome unit :=
  if c then Raise (ValueError msg) else Ok ().

(** [SystemState.__post_init__], one definition per commented block of the
    method, run in the order of the source. *)

(* Validate dimensions *)
Definition validate_dimensions (self : SystemState) : outcome unit :=
  let n := n self in
  let m := m self in
  _ ← raise_if (negb (length (available self) =? m)%nat)
        ("Available vector must have " +:+ pretty m +:+ " elements, got "
           +:+ pretty (length (available self)));
  _ ← raise_if (negb (length (allocation self) =? n)%nat)
        ("Allocation matrix must have " +:+ pretty n +:+ " rows, got "
           +:+ pretty (length (allocation self)));
  _ ← raise_if (negb (length (request self) =? n)%nat)
        ("Request matrix must have " +:+ pretty n +:+ " rows, got "
           +:+ pretty (length (request self)));
  _ ← for_each (enumerate (allocation self)) (λ '(i, alloc_row),
        raise_if (negb (length alloc_row =? m)%nat)
          ("Allocation[" +:+ pretty i +:+ "] must have " +:+ pretty m
             +:+ " columns, got " +:+ pretty (length alloc_row)));
  for_each (enumerate (request self)) (λ '(i, req_row),
    raise_if (negb (length req_row =? m)%nat)
      ("Request[" +:+ pretty i +:+ "] must have " +:+ pretty m
         +:+ " columns, got " +:+ pretty (length req_row))).

(* Validate non-negative values *)
Definition validate_non_negative (self : SystemState) : outcome unit :=
  _ ← for_each (enumerate (available self)) (λ '(i, val),
        raise_if (val <? 0)
          ("Available[" +:+ pretty i +:+ "] must be non-negative, got "
             +:+ pretty val));
  for_each (range (n self)) (λ i,
    for_each (range (m self)) (λ j,
      arow ← py_index (allocation self) i;
      a ← py_index arow j;
      _ ← raise_if (a <? 0)
            ("Allocation[" +:+ pretty i +:+ "][" +:+ pretty j
               +:+ "] must be non-negative");
      rrow ← py_index (request self) i;
      r ← py_index rrow j;
      raise_if (r <? 0)
        ("Request[" +:+ pretty i +:+ "][" +:+ pretty j
           +:+ "] must be non-negative"))).

(* Validate resource conservation *)
Definition validate_conservation (self : SystemState) : outcome unit :=
  for_each (range (m self)) (λ j,
    col ← mapM (λ i, arow ← py_index (allocation self) i; py_index arow j)
               (range (n self));
    let total_allocated := py_sum col in
    av ← py_index (available self) j;
    let total := av + total_allocated in
    rt ← py_index (resource_types self) j;
    raise_if (negb (total =? instances rt))
      ("Resource R" +:+ pretty j +:+ ": Available (" +:+ pretty av
         +:+ ") + Allocated (" +:+ pretty total_allocated
         +:+ ") != Total instances (" +:+ pretty (instances rt) +:+ ")")).

(* Validate requests don't exceed total instances *)
Definition validate_requests (self : SystemState) : outcome unit :=
  for_each (range (n self)) (λ i,
    for_each (range (m self)) (λ j,
      rrow ← py_index (request self) i;
      r ← py_index rrow j;
      rt ← py_index (resource_types self) j;
      raise_if (instances rt <? r)
        ("Request[" +:+ pretty i +:+ "][" +:+ pretty j +:+ "] = " +:+ pretty r
           +:+ " exceeds total instances of R" +:+ pretty j +:+ " = "
           +:+ pretty (instances rt)))).

Definition post_init (self : SystemState) : outcome unit :=
  _ ← validate_dimensions self;
  _ ← validate_non_negative self;
  _ ← validate_conservation self;
  validate_requests self.

(** Calling the constructor [SystemState(...)]: the object exists only if
    [__post_init__] returns. *)
Definition new_SystemState (ps : list Process) (rts : list ResourceType)
    (av : list Z) (al rq : list (list Z)) : outcome SystemState :=
  let self := mkSystemState ps rts av al rq in
  _ ← post_init self; Ok self.

(** [SystemState.is_single_instance] *)
Definition is_single_instance (self : SystemState) : bool :=
  forallb (λ rt, instances rt =? 1) (resource_types self).

(** ** The construction invariants, in the words of the specification *)

Definition entry (row : list Z) (j : nat) : Z := default 0 (row !! j).

Definition column_sum (al : list (list Z)) (j : nat) : Z :=
  foldr Z.add 0 ((λ row, entry row j) <$> al).

(** 1. [available] has [m] entries; [allocation] and [request] have [n]
    rows of [m] columns. *)
Definition inv_dimensions (s : SystemState) : Prop :=
  length (available s) = m s ∧
  (length (allocation s) = n s ∧ Forall (λ row, length row = m s) (allocation s)) ∧
  (length (request s) = n s ∧ Forall (λ row, length row = m s) (request s)).

(** 2. Every entry is non-negative. *)
Definition inv_nonneg (s : SystemState) : Prop :=
  Forall (λ v, 0 ≤ v) (available s) ∧
  Forall (Forall (λ v, 0 ≤ v)) (allocation s) ∧
  Forall (Forall (λ v, 0 ≤ v)) (request s).

(** 3. Conservation. *)
Definition inv_conservation (s : SystemState) : Prop :=
  ∀ j rt, resource_types s !! j = Some rt →
    entry (available s) j + column_sum (allocation s) j = instances rt.

(** 4. Boundedness. *)
Definition inv_bounded (s : SystemState) : Prop :=
  ∀ i j row rt, request s !! i = Some row → resource_types s !! j = Some rt →
    entry row j ≤ instances rt.

Definition valid (s : SystemState) : Prop :=
  inv_dimensions s ∧ inv_nonneg s ∧ inv_conservation s ∧ inv_bounded s.

(** ** detectors/matrix.py *)

Module Matrix.

Record MatrixDetectionResult : Type := mkMatrixDetectionResult {
  deadlocked : bool;
  deadlocked_processes : gset nat;
  finish : list bool;
  execution_order : list nat;
  trace : list string
}.

Definition vector_less_equal (req work : list Z) : bool :=
  forallb (λ '(r, w), r <=? w) (zip req work).

Definition vector_add (a b : list Z) : list Z :=
  (λ '(x, y), x + y) <$> zip a b.

Definition vector_to_string (vec : list Z) : string :=
  "[" +:+ join ", " (pretty <$> vec) +:+ "]".

Definition P (i : nat) : string := "P" +:+ pretty i.

(** The local variables of [detect_deadlock_matrix] that its [while] loop
    updates. *)
Record locals : Type := mkLocals {
  l_work : list Z;
  l_finish : list bool;
  l_execution_order : list nat;
  l_trace : list string;
  l_iteration : nat
}.

(** The body of [if not finish[i] and vector_less_equal(...)]: process [i]
    finishes and releases its allocation. *)
Definition finish_process (state : SystemState) (i : nat) (st : locals) : outcome locals :=
  finish' ← py_setitem (l_finish st) i true;
  req ← py_index (request state) i;
  alloc ← py_index (allocation state) i;
  let old_work := l_work st in
  let work := vector_add (l_work st) alloc in
  Ok {| l_work := work;
        l_finish := finish';
        l_execution_order := l_execution_order st ++ [i];
        l_trace := l_trace st ++
          [ "  Iteration " +:+ pretty (l_iteration st) +:+ ":";
            "    Found " +:+ P i +:+ ": Request[" +:+ pretty i +:+ "] = "
              +:+ vector_to_string req +:+ " ≤ Work = "
              +:+ vector_to_string old_work;
            "    " +:+ P i +:+ " finishes and releases Allocation["
              +:+ pretty i +:+ "] = " +:+ vector_to_string alloc;
            "    Work = " +:+ vector_to_string old_work +:+ " + "
              +:+ vector_to_string alloc +:+ " = " +:+ vector_to_string work;
            "    Finish[" +:+ pretty i +:+ "] = True";
            "" ];
        l_iteration := S (l_iteration st) |}.

(** [for i in range(n): if ...: ...; break]: the result is [Some] of the
    updated locals when the loop left through [break] ([found] is true)
    and [None] when it ran to the end. *)
Fixpoint scan (state : SystemState) (ids : list nat) (st : locals)
    : outcome (option locals) :=
  match ids with
  | [] => Ok None
  | i :: ids' =>
      fi ← py_index (l_finish st) i;
      if fi : bool then scan state ids' st
      else
        req ← py_index (request state) i;
        if vector_less_equal req (l_work st)
        then Some <$> finish_process state i st
        else scan state ids' st
  end.

(** [while True: ...; if not found: break], cut off after [fuel] rounds. *)
Fixpoint rounds (fuel : nat) (state : SystemState) (st : locals)
    : outcome locals :=
  match fuel with
  | O => NoFuel
  | S fuel' =>
      r ← scan state (range (n state)) st;
      match r with
      | Some st' => rounds fuel' state st'
      | None => Ok st
      end
  end.

(** [[x for x in l if p(x)]] where the test can raise. *)
Fixpoint filterM {A} (p : A → outcome bool) (l : list A) : outcome (list A) :=
  match l with
  | [] => Ok []
  | x :: l' =>
      b ← p x; ys ← filterM p l'; Ok (if b : bool then x :: ys else ys)
  end.

Definition detect_deadlock_matrix (state : SystemState)
    : outcome MatrixDetectionResult :=
  let n := n state in
  let m := m state in
  let trace :=
    [ "=== Matrix-Based Deadlock Detection ===";
      "System: " +:+ pretty n +:+ " processes, " +:+ pretty m
        +:+ " resource types";
      "";
      "Initial State:";
      "  Available: " +:+ vector_to_string (available state);
      "";
      "  Allocation Matrix:" ] in
  alloc_lines ← mapM (B := string) (λ i, row ← py_index (allocation state) i;
                           Ok ("    " +:+ P i +:+ ": " +:+ vector_to_string row))
                     (range n);
  let trace := trace ++ alloc_lines ++ [""; "  Request Matrix:"] in
  req_lines ← mapM (B := string) (λ i, row ← py_index (request state) i;
                         Ok ("    " +:+ P i +:+ ": " +:+ vector_to_string row))
                   (range n);
  let trace := trace ++ req_lines ++ [""] in
  (* Step 1: Initialize Work and Finish *)
  let work := available state in
  let trace := trace ++
    [ "Step 1: Initialize";
      "  Work = Available = " +:+ vector_to_string work;
      "  Finish = [False, False, ..., False] (all " +:+ pretty n
        +:+ " processes)";
      "";
      "Step 2-4: Find processes that can complete" ] in
  (* Step 2-4: Iteratively find processes that can finish *)
  st ← rounds (S n) state
         {| l_work := work; l_finish := replicate n false;
            l_execution_order := []; l_trace := trace; l_iteration := 1 |};
  (* Step 5: Check for deadlock *)
  let trace := l_trace st ++ ["Step 5: Check for Deadlock"] in
  unfinished ← filterM (λ i, negb <$> py_index (l_finish st) i) (range n);
  let deadlocked_pids : gset nat := list_to_set unfinished in
  trace ←
    (if bool_decide (deadlocked_pids ≠ ∅) then
       lines ← mapM (λ i, req ← py_index (request state) i;
                          Ok [ "    " +:+ P i +:+ ": Request = "
                                 +:+ vector_to_string req +:+ ", Work = "
                                 +:+ vector_to_string (l_work st);
                               "          Request[" +:+ pretty i
                                 +:+ "] > Work (cannot be satisfied)" ])
                    (sorted deadlocked_pids);
       Ok (trace
             ++ ["  Processes that cannot finish (Finish[i] = False):"]
             ++ concat lines
             ++ [ "";
                  "Result: DEADLOCK DETECTED";
                  "  Deadlocked processes: {"
                    +:+ join ", " (P <$> sorted deadlocked_pids) +:+ "}" ])
     else
       Ok (trace
             ++ [ "  All processes finished successfully (Finish[i] = True for all i)";
                  "";
                  "Result: NO DEADLOCK" ]
             ++ (if l_execution_order st is [] then []
                 else [ "  Safe execution sequence: "
                          +:+ join " → " (P <$> l_execution_order st) ])));
  Ok {| deadlocked := bool_decide (0 < size deadlocked_pids)%nat;
        deadlocked_processes := deadlocked_pids;
        finish := l_finish st;
        execution_order := l_execution_order st;
        trace := trace |}.

Section Recover.
Context `{SetOrder}.

(** [can_system_recover], lines "Create modified state": the allocations
    of the terminated processes are added to [available]. *)
Definition released_available (state : SystemState) (terminated_pids : gset nat)
    : outcome (list Z) :=
  foldM (λ new_available pid,
           row ← py_index (allocation state) pid;
           Ok (vector_add new_available row))
        (available state) (set_iter terminated_pids).

Definition remaining_pids (state : SystemState) (terminated_pids : gset nat)
    : list nat :=
  filter (λ i, i ∉ terminated_pids) (range (n state)).

(** [can_system_recover], lines "Build reduced system". *)
Definition reduced_state (state : SystemState) (new_available : list Z)
    (remaining_pids : list nat) : outcome SystemState :=
  new_processes ← mapM (py_index (processes state)) remaining_pids;
  new_allocation ← mapM (py_index (allocation state)) remaining_pids;
  new_request ← mapM (py_index (request state)) remaining_pids;
  new_SystemState new_processes (resource_types state)
    new_available new_allocation new_request.

Definition can_system_recover (state : SystemState) (terminated_pids : gset nat)
    : outcome (bool * list string) :=
  let trace :=
    [ "Checking recovery by terminating: {"
        +:+ join ", " (P <$> sorted terminated_pids) +:+ "}" ] in
  (* Create modified state *)
  new_available ← released_available state terminated_pids;
  let trace := trace ++
    ["  Released resources: " +:+ vector_to_string new_available] in
  (* Create new system state with terminated processes removed *)
  let remaining_pids := remaining_pids state terminated_pids in
  if remaining_pids is [] then
    Ok (true, trace ++ ["  All processes terminated."])
  else
    (* Build reduced system *)
    reduced_state ← reduced_state state new_available remaining_pids;
    (* Run detection on reduced system *)
    result ← detect_deadlock_matrix reduced_state;
    if negb (deadlocked result) then
      names ← mapM (λ i, P <$> py_index remaining_pids i)
                   (execution_order result);
      Ok (true, trace ++
                  [ "  Remaining processes can all finish!";
                    "  Execution order: " +:+ join " → " names ])
    else
      Ok (false, trace ++ ["  Remaining processes still deadlocked."]).

End Recover.

End Matrix.

(** ** detectors/wfg.py *)

Module Wfg.

Record WaitForEdge : Type := mkWaitForEdge {
  from_pid : nat;
  to_pid : nat;
  resource_id : Z
}.

(** [WaitForEdge.__repr__] *)
Definition repr_edge (e : WaitForEdge) : string :=
  "P" +:+ pretty (from_pid e) +:+ " → P" +:+ pretty (to_pid e)
    +:+ " (R" +:+ pretty (resource_id e) +:+ ")".

Record CycleInfo : Type := mkCycleInfo {
  processes : list nat;
  edges : list WaitForEdge
}.

(** [CycleInfo.__repr__] *)
Definition repr_cycle (c : CycleInfo) : string :=
  let cycle_str := join " → " (Matrix.P <$> processes c) in
  let cycle_str :=
    match processes c with
    | [] => cycle_str
    | p0 :: _ => cycle_str +:+ " → P" +:+ pretty p0
    end in
  "Cycle: " +:+ cycle_str.

Record WFGDetectionResult : Type := mkWFGDetectionResult {
  deadlocked : bool;
  deadlocked_processes : gset nat;
  cycles : list CycleInfo;
  wait_for_edges : list WaitForEdge;
  trace : list string
}.

(** [d[k]] on a dictionary: [KeyError] when the key is missing. *)
Definition py_getitem {V} (d : gmap nat V) (k : nat) : outcome V :=
  match d !! k with
  | Some v => Ok v
  | None => Raise KeyError
  end.

(** [adjacency[i].add(k); edges.append(WaitForEdge(i, k, j))] *)
Definition add_edge (i k j : nat)
    (g : gmap nat (gset nat) * list WaitForEdge)
    : outcome (gmap nat (gset nat) * list WaitForEdge) :=
  waits ← py_getitem g.1 i;
  Ok (<[i := {[k]} ∪ waits]> g.1, g.2 ++ [mkWaitForEdge i k (Z.of_nat j)]).

Definition build_wait_for_graph (state : SystemState)
    : outcome (gmap nat (gset nat) * list WaitForEdge) :=
  let adjacency : gmap nat (gset nat) :=
    list_to_map ((λ i, (i, ∅)) <$> range (n state)) in
  (* For each process Pi *)
  foldM (λ g i,
    (* For each resource Rj that Pi requests *)
    foldM (λ g j,
      rrow ← py_index (request state) i;
      r ← py_index rrow j;
      if 0 <? r then
        (* Find processes that hold Rj *)
        foldM (λ g k,
          if negb (k =? i)%nat then
            arow ← py_index (allocation state) k;
            a ← py_index arow j;
            if 0 <? a then add_edge i k j g else Ok g
          else Ok g) g (range (n state))
      else Ok g) g (range (m state)))
    (adjacency, []) (range (n state)).

Inductive colour : Type := WHITE | GRAY | BLACK.

#[global] Instance colour_eq_dec : EqDecision colour.
Proof. solve_decision. Defined.

(** The variables of [detect_cycles_dfs] shared by the calls of its inner
    [dfs], and the [path] list those calls append to and pop from. *)
Record dfs_state : Type := mkDfs {
  color : list colour;
  parent : list Z;
  found : list CycleInfo;
  path : list nat
}.

(** The branch "Back edge found" of [dfs], with [frames] frames free for
    the calls of the constructors [WaitForEdge(...)] and [CycleInfo(...)]. *)
Definition record_cycle (frames : nat) (neighbor : nat) (st : dfs_state)
    : outcome dfs_state :=
  cycle_start_idx ← py_list_index (path st) neighbor;
  let cycle_nodes := drop cycle_start_idx (path st) ++ [neighbor] in
  cycle_edges ← mapM (λ i, from ← py_index cycle_nodes i;
                           to ← py_index cycle_nodes (i + 1);
                           _ ← call_frame frames;
                           Ok (mkWaitForEdge from to (-1)))
                     (range (length cycle_nodes - 1));
  _ ← call_frame frames;
  Ok {| color := color st; parent := parent st;
        found := found st ++
          [ {| processes := drop cycle_start_idx (path st);
               edges := cycle_edges |} ];
        path := path st |}.

(** [path.pop()] *)
Definition py_pop {A} (l : list A) : outcome (list A) :=
  match l with
  | [] => Raise IndexError
  | _ => Ok (take (length l - 1) l)
  end.

Section Dfs.
Context `{NeighbourOrder} `{CallStack}.
Variable adjacency : gmap nat (gset nat).

(** The inner function [dfs(node, path)], called with [frames] frames
    free: the call takes one of them, and raises [RecursionError] when
    there is none. *)
Fixpoint dfs (frames : nat) (node : nat) (st : dfs_state) : outcome dfs_state :=
  match frames with
  | O => Raise RecursionError
  | S frames' =>
      color' ← py_setitem (color st) node GRAY;
      let st := {| color := color'; parent := parent st; found := found st;
                   path := path st ++ [node] |} in
      neighbors ← py_getitem adjacency node;
      st ← foldM (λ st neighbor,
             c ← py_index (color st) neighbor;
             match c with
             | GRAY => record_cycle frames' neighbor st
             | WHITE =>
                 parent' ← py_setitem (parent st) neighbor (Z.of_nat node);
                 dfs frames' neighbor
                   {| color := color st; parent := parent'; found := found st;
                      path := path st |}
             | BLACK => Ok st
             end) st (neighbour_iter node neighbors);
      color' ← py_setitem (color st) node BLACK;
      path' ← py_pop (path st);
      Ok {| color := color'; parent := parent st; found := found st;
            path := path' |}
  end.

Definition detect_cycles_dfs (n : nat) : outcome (list CycleInfo) :=
  st ← foldM (λ st i,
         c ← py_index (color st) i;
         match c with
         | WHITE =>
             dfs free_frames i {| color := color st; parent := parent st;
                        found := found st; path := [] |}
         | _ => Ok st
         end)
       {| color := replicate n WHITE; parent := replicate n (-1);
          found := []; path := [] |}
       (range n);
  Ok (found st).

End Dfs.

Section Detect.
Context `{NeighbourOrder} `{CallStack}.

Definition detect_deadlock_wfg (state : SystemState) : outcome WFGDetectionResult :=
  let trace :=
    [ "=== Wait-For Graph Deadlock Detection ===";
      "System: " +:+ pretty (n state) +:+ " processes, " +:+ pretty (m state)
        +:+ " resource types";
      "" ] in
  (* Validate single-instance assumption *)
  let trace :=
    if negb (is_single_instance state) then
      trace ++ [ "WARNING: Not all resources have single instance!";
                 "Wait-for graph cycle detection may give incorrect results.";
                 "Use matrix-based detection for multi-instance resources.";
                 "" ]
    else trace in
  (* Build wait-for graph *)
  let trace := trace ++ ["Step 1: Building Wait-For Graph"] in
  '(adjacency, edges) ← build_wait_for_graph state;
  if edges is [] then
    Ok {| deadlocked := false; deadlocked_processes := ∅; cycles := [];
          wait_for_edges := [];
          trace := trace ++ [ "  No wait-for edges found (no process is waiting).";
                              "";
                              "Result: NO DEADLOCK" ] |}
  else
    let trace := trace ++ ["  Wait-for edges:"]
                   ++ ((λ edge, "    " +:+ repr_edge edge) <$> edges)
                   ++ [""; "Step 2: Detecting Cycles using DFS"] in
    (* Detect cycles *)
    cycles ← detect_cycles_dfs adjacency (n state);
    if cycles is [] then
      Ok {| deadlocked := false; deadlocked_processes := ∅; cycles := [];
            wait_for_edges := edges;
            trace := trace ++ [ "  No cycles found in wait-for graph.";
                                "";
                                "Result: NO DEADLOCK" ] |}
    else
      (* Extract deadlocked processes *)
      let deadlocked_pids : gset nat :=
        foldl (λ acc cycle, acc ∪ list_to_set (processes cycle)) ∅ cycles in
      let trace := trace ++ ((λ cycle, "  " +:+ repr_cycle cycle) <$> cycles) in
      Ok {| deadlocked := true; deadlocked_processes := deadlocked_pids;
            cycles := cycles; wait_for_edges := edges;
            trace := trace ++
              [ "";
                "Step 3: Deadlocked Processes";
                "  Processes in cycles: {"
                  +:+ join ", " (Matrix.P <$> sorted deadlocked_pids) +:+ "}";
                "";
                "Result: DEADLOCK DETECTED" ] |}.

End Detect.

End Wfg.

(** ** strategies/recovery.py *)

Module Recovery.

Record RecoverySuggestion : Type := mkRecoverySuggestion {
  action_type : string;
  description : string;
  processes : gset nat;
  resources : option (gset nat);
  explanation : string
}.

(** The newline character of Python's ["\n"]. *)
Definition nl : string := String (Ascii.ascii_of_nat 10) "".

Section Advisor.
Context `{SetOrder}.

(** The body of the loop over [itertools.combinations]: one subset is
    tried, and appended to [suggestions] when the system recovers. *)
Definition try_subset (state : SystemState)
    (suggestions : list RecoverySuggestion) (subset : list nat)
    : outcome (list RecoverySuggestion) :=
  let terminated : gset nat := list_to_set subset in
  '(can_recover, trace) ← Matrix.can_system_recover state terminated;
  if can_recover : bool then
    let process_names := join ", " (Matrix.P <$> sorted terminated) in
    (* Build explanation *)
    let explanation :=
      "Terminating " +:+ process_names
        +:+ " releases their allocated resources." +:+ nl in
    let explanation := explanation +:+ "After termination:" +:+ nl in
    let explanation := explanation +:+ join nl trace in
    Ok (suggestions ++
          [ {| action_type := "terminate";
               description := "Terminate " +:+ pretty (size terminated)
                                +:+ " process(es): " +:+ process_names;
               processes := terminated;
               resources := None;
               explanation := explanation |} ])
  else Ok suggestions.

(** [for size in range(1, len(deadlocked_pids) + 1): ...], leaving at the
    first size with a suggestion. *)
Fixpoint try_sizes (state : SystemState) (ids : list nat) (sizes : list nat)
    (suggestions : list RecoverySuggestion) : outcome (list RecoverySuggestion) :=
  match sizes with
  | [] => Ok suggestions
  | size :: sizes' =>
      suggestions ← foldM (try_subset state) suggestions (combinations ids size);
      (* If we found solutions of this size, return them (minimal solutions) *)
      if suggestions is [] then try_sizes state ids sizes' suggestions
      else Ok suggestions
  end.

Definition find_minimal_termination_set (state : SystemState)
    (deadlocked_pids : gset nat) : outcome (list RecoverySuggestion) :=
  if decide (deadlocked_pids = ∅) then Ok []
  else
    (* Try progressively larger sets *)
    try_sizes state (sorted deadlocked_pids)
      (seq 1 (size deadlocked_pids)) [].

End Advisor.

Definition suggest_preemption_targets (state : SystemState)
    (deadlocked_pids : gset nat) : outcome (list RecoverySuggestion) :=
  foldM (λ suggestions pid,
    (* Find resources held by this process *)
    held_resources ←
      foldM (λ held_resources j,
        arow ← py_index (allocation state) pid;
        a ← py_index arow j;
        if 0 <? a then Ok (held_resources ++ [(j, a)]) else Ok held_resources)
        [] (range (m state));
    if held_resources is [] then Ok suggestions
    else
      let resource_desc :=
        join ", " ((λ '(rid, count), pretty count +:+ "×R" +:+ pretty rid)
                     <$> held_resources) in
      let explanation :=
        "Preempt resources from " +:+ Matrix.P pid +:+ ": " +:+ resource_desc
          +:+ nl
          +:+ "These resources can be reallocated to other waiting processes."
          +:+ nl
          +:+ "Note: " +:+ Matrix.P pid
          +:+ " would need to be rolled back and restarted later." in
      Ok (suggestions ++
            [ {| action_type := "preempt";
                 description := "Preempt resources from " +:+ Matrix.P pid
                                  +:+ ": " +:+ resource_desc;
                 processes := {[pid]};
                 resources := Some (list_to_set (fst <$> held_resources));
                 explanation := explanation |} ]))
    [] (sorted deadlocked_pids).

End Recovery.

(** [suggest_recovery_strategies] and [format_recovery_report] of
    strategies/recovery.py. *)

Section Strategies.
Context `{SetOrder} `{NeighbourOrder} `{CallStack}.

Definition suggest_recovery_strategies (state : SystemState) (use_wfg : bool)
    : outcome (list Recovery.RecoverySuggestion) :=
  (* First detect deadlock *)
  found ←
    (if use_wfg then
       wfg_result ← Wfg.detect_deadlock_wfg state;
       Ok (if Wfg.deadlocked wfg_result
           then Some (Wfg.deadlocked_processes wfg_result) else None)
     else
       matrix_result ← Matrix.detect_deadlock_matrix state;
       Ok (if Matrix.deadlocked matrix_result
           then Some (Matrix.deadlocked_processes matrix_result) else None));
  match found with
  | None => Ok []
  | Some deadlocked_pids =>
      (* Strategy 1: Find minimal termination sets *)
      termination_suggestions ←
        Recovery.find_minimal_termination_set state deadlocked_pids;
      (* Strategy 2: Suggest preemption as alternatives *)
      preemption_suggestions ←
        Recovery.suggest_preemption_targets state deadlocked_pids;
      Ok (termination_suggestions ++ preemption_suggestions)
  end.

End Strategies.

(** [s * k] on a string. *)
Fixpoint str_repeat (s : string) (k : nat) : string :=
  match k with
  | O => ""
  | S k' => s +:+ str_repeat s k'
  end.

(** [s.split('\n')]: the pieces of [s] between newline characters, with
    [cur] the characters of the piece being read, in reverse. *)
Fixpoint split_lines_from (cur : string) (s : string) : list string :=
  match s with
  | EmptyString => [String.rev cur]
  | String c s' =>
      if Ascii.eqb c (Ascii.ascii_of_nat 10)
      then String.rev cur :: split_lines_from "" s'
      else split_lines_from (String c cur) s'
  end.

Definition split_lines (s : string) : list string := split_lines_from "" s.

(** The list [report] that [format_recovery_report] joins, for a non-empty
    list of suggestions. *)
Definition report_lines (suggestions : list Recovery.RecoverySuggestion)
    : list string :=
  let report :=
    [ str_repeat "=" 60; "RECOVERY STRATEGIES"; str_repeat "=" 60; "" ] in
  (* Group by action type *)
  let terminations :=
    filter (λ s, Recovery.action_type s = "terminate") suggestions in
  let preemptions :=
    filter (λ s, Recovery.action_type s = "preempt") suggestions in
  let report :=
    if terminations is [] then report
    else
      report ++
      [ "OPTION 1: Process Termination"; str_repeat "-" 60;
        "Terminate processes to release their resources."; "" ] ++
      concat (imap (λ i0 sugg,
                let i := S i0 in
                ("  " +:+ pretty i +:+ ". " +:+ Recovery.description sugg) ::
                (if bool_decide (i ≤ 3)%nat then  (* Show details for first few *)
                   [""] ++
                   ((λ line, "     " +:+ line)
                      <$> split_lines (Recovery.explanation sugg)) ++
                   [""]
                 else [])) terminations) ++
      [""] in
  let report :=
    if preemptions is [] then report
    else
      report ++
      [ "OPTION 2: Resource Preemption"; str_repeat "-" 60;
        "Preempt resources from processes (requires rollback)."; "" ] ++
      imap (λ i0 sugg,
              "  " +:+ pretty (S i0) +:+ ". " +:+ Recovery.description sugg)
           preemptions ++
      [ "";
        "Note: Preemption requires saving process state for later restart." ] in
  report ++ [str_repeat "=" 60].

Definition format_recovery_report
    (suggestions : list Recovery.RecoverySuggestion) : string :=
  if suggestions is [] then
    "No recovery strategies needed (no deadlock detected)."
  else join Recovery.nl (report_lines suggestions).

(** [get_wait_for_graph_for_visualization] of detectors/wfg.py. *)
Definition get_wait_for_graph_for_visualization `{NeighbourOrder} `{CallStack}
    (state : SystemState) : outcome (list (nat * nat) * gset nat) :=
  result ← Wfg.detect_deadlock_wfg state;
  let edge_tuples :=
    (λ e, (Wfg.from_pid e, Wfg.to_pid e)) <$> Wfg.wait_for_edges result in
  Ok (edge_tuples, Wfg.deadlocked_processes result).

(** ** models.py, constructors and helpers *)

(** [Process(pid, name)], with [Process.__post_init__]. *)
Definition new_Process (pid : Z) (name : string) : outcome Process :=
  if pid <? 0 then
    Raise (ValueError ("Process ID must be non-negative, got " +:+ pretty pid))
  else Ok (mkProcess pid name).

(** [ResourceType(rid, name, instances)], with its [__post_init__]. *)
Definition new_ResourceType (rid : Z) (name : string) (instances : Z)
    : outcome ResourceType :=
  if rid <? 0 then
    Raise (ValueError ("Resource ID must be non-negative, got " +:+ pretty rid))
  else if instances <? 0 then
    Raise (ValueError ("Instance count must be non-negative, got "
                         +:+ pretty instances))
  else Ok (mkResourceType rid name instances).

(** [SystemState.clone] *)
Definition clone (self : SystemState) : outcome SystemState :=
  ps ← mapM (λ p, new_Process (pid p) (name p)) (processes self);
  rts ← mapM (λ rt, new_ResourceType (rid rt) (rname rt) (instances rt))
             (resource_types self);
  new_SystemState ps rts (available self) (allocation self) (request self).

(** [[Process(i, f"P{i}") for i in range(k)]] *)
Definition numbered_processes (k : nat) : outcome (list Process) :=
  mapM (λ i, new_Process (Z.of_nat i) ("P" +:+ pretty i)) (range k).

(** [[ResourceType(j, f"R{j}", 1) for j in range(k)]] *)
Definition numbered_single_resources (k : nat) : outcome (list ResourceType) :=
  mapM (λ j, new_ResourceType (Z.of_nat j) ("R" +:+ pretty j) 1) (range k).

(** [create_empty_system_state]; [range] and [[x] * k] are empty for a
    negative argument. *)
Definition create_empty_system_state (num_processes num_resources : Z)
    : outcome SystemState :=
  let np := Z.to_nat num_processes in
  let nr := Z.to_nat num_resources in
  processes ← numbered_processes np;
  resource_types ← numbered_single_resources nr;
  let available := replicate nr 1 in
  let allocation := replicate np (replicate nr 0) in
  let request := replicate np (replicate nr 0) in
  new_SystemState processes resource_types available allocation request.

(** ** io_utils/schema.py *)

Module Schema.

(** The dictionaries the module reads and writes, one field per key; a key
    that is absent is [None].  The values have the types that
    [system_state_to_dict] writes. *)
Record ProcessDict : Type := mkProcessDict {
  p_pid : option Z;
  p_name : option string
}.

Record ResourceDict : Type := mkResourceDict {
  r_rid : option Z;
  r_name : option string;
  r_instances : option Z
}.

Record StateDict : Type := mkStateDict {
  schema_version : option string;
  d_processes : option (list ProcessDict);
  d_resource_types : option (list ResourceDict);
  d_available : option (list Z);
  d_allocation : option (list (list Z));
  d_request : option (list (list Z))
}.

Definition SCHEMA_VERSION : string := "1.0".

(** [d[key]] *)
Definition getkey {A} (v : option A) : outcome A :=
  match v with
  | Some x => Ok x
  | None => Raise KeyError
  end.

Definition system_state_to_dict (state : SystemState) : StateDict :=
  {| schema_version := Some SCHEMA_VERSION;
     d_processes :=
       Some ((λ p, mkProcessDict (Some (pid p)) (Some (name p)))
               <$> processes state);
     d_resource_types :=
       Some ((λ r, mkResourceDict (Some (rid r)) (Some (rname r))
                     (Some (instances r)))
               <$> resource_types state);
     d_available := Some (available state);
     d_allocation := Some (allocation state);
     d_request := Some (request state) |}.

Definition dict_to_system_state (data : StateDict) : outcome SystemState :=
  (* Validate schema version *)
  _ ← (if schema_version data is None
       then Raise (ValueError "Missing schema_version in JSON") else Ok ());
  (* Parse processes *)
  plist ← getkey (d_processes data);
  processes ← mapM (λ p, pid ← getkey (p_pid p);
                         name ← getkey (p_name p);
                         new_Process pid name) plist;
  (* Parse resource types *)
  rlist ← getkey (d_resource_types data);
  resource_types ← mapM (λ r, rid ← getkey (r_rid r);
                              name ← getkey (r_name r);
                              instances ← getkey (r_instances r);
                              new_ResourceType rid name instances) rlist;
  (* Create system state (validation happens in __post_init__) *)
  available ← getkey (d_available data);
  allocation ← getkey (d_allocation data);
  request ← getkey (d_request data);
  new_SystemState processes resource_types available allocation request.

(** The sample datasets. *)

Definition get_sample_single_instance_deadlock : outcome SystemState :=
  processes ← numbered_processes 3;
  resource_types ← numbered_single_resources 3;
  new_SystemState processes resource_types [0; 0; 0]
    [[1; 0; 0]; [0; 1; 0]; [0; 0; 1]]
    [[0; 1; 0]; [0; 0; 1]; [1; 0; 0]].

Definition get_sample_single_instance_no_deadlock : outcome SystemState :=
  processes ← numbered_processes 3;
  resource_types ← numbered_single_resources 3;
  new_SystemState processes resource_types [0; 0; 0]
    [[1; 0; 0]; [0; 1; 0]; [0; 0; 1]]
    [[0; 1; 0]; [0; 0; 0]; [0; 0; 0]].

Definition get_sample_multi_instance_deadlock : outcome SystemState :=
  processes ← numbered_processes 3;
  resource_types ← mapM (λ '(i, nm, k), new_ResourceType i nm k)
                        [(0, "R0", 2); (1, "R1", 2); (2, "R2", 2)];
  new_SystemState processes resource_types [0; 0; 0]
    [[1; 0; 1]; [1; 1; 0]; [0; 1; 1]]
    [[1; 1; 0]; [0; 1; 1]; [1; 0; 1]].

Definition get_sample_multi_instance_no_deadlock : outcome SystemState :=
  processes ← numbered_processes 5;
  resource_types ← mapM (λ '(i, nm, k), new_ResourceType i nm k)
                        [(0, "R0", 10); (1, "R1", 5); (2, "R2", 7)];
  new_SystemState processes resource_types [3; 3; 2]
    [[0; 1; 0]; [2; 0; 0]; [3; 0; 2]; [2; 1; 1]; [0; 0; 2]]
    [[0; 0; 0]; [1; 0; 2]; [0; 0; 0]; [1; 0; 0]; [0; 0; 2]].

Definition get_sample_empty : outcome SystemState :=
  processes ← numbered_processes 3;
  resource_types ← numbered_single_resources 3;
  new_SystemState processes resource_types [1; 1; 1]
    (replicate 3 [0; 0; 0]) (replicate 3 [0; 0; 0]).

(** The registry [SAMPLES]: names, in the order of the dictionary, and the
    function each name stands for (here, the outcome of calling it). *)
Definition SAMPLES : list (string * outcome SystemState) :=
  [ ("Single-Instance: Deadlock (Cycle)", get_sample_single_instance_deadlock);
    ("Single-Instance: No Deadlock", get_sample_single_instance_no_deadlock);
    ("Multi-Instance: Deadlock", get_sample_multi_instance_deadlock);
    ("Multi-Instance: No Deadlock", get_sample_multi_instance_no_deadlock);
    ("Empty Template", get_sample_empty) ].

Definition get_sample_names : list string := fst <$> SAMPLES.

(** The first entry of a dictionary given as a list of pairs. *)
Fixpoint assoc {V} (key : string) (d : list (string * V)) : option V :=
  match d with
  | [] => None
  | (k, v) :: d' => if decide (k = key) then Some v else assoc key d'
  end.

(** [load_sample]; the message of its [KeyError] is not kept. *)
Definition load_sample (name : string) : outcome SystemState :=
  match assoc name SAMPLES with
  | None => Raise KeyError
  | Some sample => sample
  end.

End Schema.


(** ** The Work/Finish algorithm, in the words of the specification *)

(** [a <= b] component-wise, on all [k] components. *)
Definition vec_le (k : nat) (a b : list Z) : Prop :=
  ∀ j, (j < k)%nat → entry a j ≤ entry b j.

Definition alloc_row (s : SystemState) (i : nat) : list Z :=
  default [] (allocation s !! i).

Definition req_row (s : SystemState) (i : nat) : list Z :=
  default [] (request s !! i).

(** [Work] once the processes of [done] have finished, in that order. *)
Definition work_after (s : SystemState) (done : list nat) : list Z :=
  foldl (λ w i, Matrix.vector_add w (alloc_row s i)) (available s) done.

(** Process [i] can be selected once the processes of [done] have finished:
    it is unfinished and its request fits in [Work]. *)
Definition eligible (s : SystemState) (done : list nat) (i : nat) : Prop :=
  (i < n s)%nat ∧ (i ∉ done) ∧ vec_le (m s) (req_row s i) (work_after s done).

(** The [Finish] vector in which exactly the processes of [done] are marked. *)
Definition finish_of (k : nat) (done : list nat) : list bool :=
  (λ i, bool_decide (i ∈ done)) <$> range k.

(** [order] is the sequence of selections of the algorithm: every entry is
    the lowest eligible id at its round, and no id is eligible after them. *)
Definition lowest_first (s : SystemState) (order : list nat) : Prop :=
  ∀ k i, order !! k = Some i →
    eligible s (take k order) i ∧
    ∀ j, (j < i)%nat → ¬ eligible s (take k order) j.

Definition exhausted (s : SystemState) (order : list nat) : Prop :=
  ∀ j, ¬ eligible s order j.

(** [f] summed over the ids of [l]. *)
Definition sum_over (f : nat → Z) (l : list nat) : Z := foldr Z.add 0 (f <$> l).

(** The ids that [order] leaves unfinished. *)
Definition unfinished (s : SystemState) (order : list nat) : gset nat :=
  list_to_set (filter (λ i, i ∉ order) (range (n s))).

(** What the locals of the loop hold between two rounds. *)
Definition loop_inv (s : SystemState) (st : Matrix.locals) : Prop :=
  Matrix.l_work st = work_after s (Matrix.l_execution_order st) ∧
  Matrix.l_finish st = finish_of (n s) (Matrix.l_execution_order st) ∧
  Matrix.l_iteration st = S (length (Matrix.l_execution_order st)) ∧
  NoDup (Matrix.l_execution_order st) ∧
  lowest_first s (Matrix.l_execution_order st).

(** ** The wait-for graph, in the words of the specification *)

(** The edges [i → k] for every process [i] and resource type [j] with
    [request[i][j] > 0] and every process [k ≠ i] with
    [allocation[k][j] > 0], in the order the loops meet them. *)
Definition wait_edges (s : SystemState) : list Wfg.WaitForEdge :=
  i ← range (n s);
  j ← range (m s);
  if bool_decide (0 < entry (req_row s i) j) then
    k ← range (n s);
    if bool_decide (k ≠ i ∧ 0 < entry (alloc_row s k) j)
    then [Wfg.mkWaitForEdge i k (Z.of_nat j)] else []
  else [].

(** [i] waits for [k]. *)
Definition waits_for (s : SystemState) (i k : nat) : Prop :=
  (i < n s)%nat ∧ (k < n s)%nat ∧ k ≠ i ∧
  ∃ j, (j < m s)%nat ∧ 0 < entry (req_row s i) j ∧ 0 < entry (alloc_row s k) j.

(** The adjacency sets after recording the edges [es]. *)
Definition add_edges (adj : gmap nat (gset nat)) (es : list Wfg.WaitForEdge)
    : gmap nat (gset nat) :=
  foldl (λ a e, <[Wfg.from_pid e :=
                    {[Wfg.to_pid e]} ∪ default ∅ (a !! Wfg.from_pid e)]> a)
        adj es.

Definition add_all (g : gmap nat (gset nat) * list Wfg.WaitForEdge)
    (es : list Wfg.WaitForEdge) : gmap nat (gset nat) * list Wfg.WaitForEdge :=
  (add_edges g.1 es, g.2 ++ es).

Definition empty_graph (k : nat) : gmap nat (gset nat) :=
  list_to_map ((λ i, (i, ∅)) <$> range k).

(** [v] is a neighbour of [u]. *)
Definition adjacent (adj : gmap nat (gset nat)) (u v : nat) : Prop :=
  ∃ ws, adj !! u = Some ws ∧ v ∈ ws.

(** Every element of [l] is followed by one of its neighbours. *)
Fixpoint chain (adj : gmap nat (gset nat)) (l : list nat) : Prop :=
  match l with
  | u :: l' =>
      match l' with
      | v :: _ => adjacent adj u v ∧ chain adj l'
      | [] => True
      end
  | [] => True
  end.

(** [c] is a cycle of the graph: a chain whose last element has the first
    as a neighbour. *)
Definition is_cycle (adj : gmap nat (gset nat)) (c : list nat) : Prop :=
  ∃ x, head c = Some x ∧ chain adj (c ++ [x]).

(** The edges recorded for the cycle [c]: its consecutive pairs, closed by
    the pair from the last element to the first. *)
Definition closing_edges (c : list nat) : list Wfg.WaitForEdge :=
  match c with
  | [] => []
  | x :: c' => zip_with (λ a b, Wfg.mkWaitForEdge a b (-1)) c (c' ++ [x])
  end.

(** A recorded cycle is a cycle of the graph, with its closing edges. *)
Definition good_cycle (adj : gmap nat (gset nat)) (c : Wfg.CycleInfo) : Prop :=
  is_cycle adj (Wfg.processes c) ∧
  Wfg.edges c = closing_edges (Wfg.processes c).

(** Every neighbour of an element of [fin] stands before it in [fin]. *)
Definition ranked (adj : gmap nat (gset nat)) (fin : list nat) : Prop :=
  ∀ pre u post, fin = pre ++ u :: post → ∀ v, adjacent adj u v → v ∈ pre.

(** The nodes still [WHITE]. *)
Definition white_set (c : list Wfg.colour) : gset nat :=
  list_to_set (filter (λ v, c !! v = Some Wfg.WHITE) (seq 0 (length c))).

(** The graph handed to the search: a key for every node, neighbours
    among the nodes. *)
Definition graph_ok (adj : gmap nat (gset nat)) (k : nat) : Prop :=
  (∀ i, (i < k)%nat → is_Some (adj !! i)) ∧
  (∀ u v, adjacent adj u v → (v < k)%nat).

(** What holds of the shared variables of the search between two steps. *)
Definition dfs_inv (adj : gmap nat (gset nat)) (k : nat) (st : Wfg.dfs_state)
    : Prop :=
  length (Wfg.color st) = k ∧
  length (Wfg.parent st) = k ∧
  NoDup (Wfg.path st) ∧
  (∀ v, Wfg.color st !! v = Some Wfg.GRAY ↔ v ∈ Wfg.path st) ∧
  chain adj (Wfg.path st) ∧
  Forall (good_cycle adj) (Wfg.found st) ∧
  (Wfg.found st = [] →
   ∃ fin, (∀ v, Wfg.color st !! v = Some Wfg.BLACK ↔ v ∈ fin) ∧ ranked adj fin).

(** What a call of [dfs] leaves behind: the invariant, the same path,
    the colours other than [WHITE] untouched, cycles only added. *)
Definition dfs_post (adj : gmap nat (gset nat)) (k : nat)
    (st st' : Wfg.dfs_state) : Prop :=
  dfs_inv adj k st' ∧
  Wfg.path st' = Wfg.path st ∧
  (∀ v, Wfg.color st !! v ≠ Some Wfg.WHITE →
        Wfg.color st' !! v = Wfg.color st !! v) ∧
  (∃ new, Wfg.found st' = Wfg.found st ++ new).

(** The wait-for graph of a state. *)
Definition wait_graph (s : SystemState) : gmap nat (gset nat) :=
  add_edges (empty_graph (n s)) (wait_edges s).

(** No process requests a resource type of which it holds an instance. *)
Definition no_self_request (s : SystemState) : Prop :=
  ∀ i j, ¬ (0 < entry (req_row s i) j ∧ 0 < entry (alloc_row s i) j).

(** Whether [can_system_recover] returns true for the terminated set. *)
Definition recovers `{SetOrder} (s : SystemState) (T : gset nat) : bool :=
  match Matrix.can_system_recover s T with
  | Ok (true, _) => true
  | _ => false
  end.

(** Number of [True] entries of a [Finish] vector. *)
Definition count_true (l : list bool) : nat := length (filter (λ b, b = true) l).

(** ** Concrete states *)

(** The fields of a state with processes [P0..] and resource types [R0..]
    of the given instance counts, as the tests build them. *)
Definition state_of (totals : list Z) (av : list Z) (al rq : list (list Z))
    : SystemState :=
  mkSystemState
    (imap (λ i _, mkProcess (Z.of_nat i) ("P" +:+ pretty i)) al)
    (imap (λ j t, mkResourceType (Z.of_nat j) ("R" +:+ pretty j) t) totals)
    av al rq.

(** Scenario A: three processes in a single-instance cycle. *)
Definition scenario_A : SystemState :=
  state_of [1; 1; 1] [0; 0; 0]
    [[1; 0; 0]; [0; 1; 0]; [0; 0; 1]]
    [[0; 1; 0]; [0; 0; 1]; [1; 0; 0]].

(** Scenario B: a safe state of the Banker's algorithm. *)
Definition scenario_B : SystemState :=
  state_of [10; 5; 7] [3; 3; 2]
    [[0; 1; 0]; [2; 0; 0]; [3; 0; 2]; [2; 1; 1]; [0; 0; 2]]
    [[0; 0; 0]; [1; 0; 2]; [0; 0; 0]; [1; 0; 0]; [0; 0; 2]].

(** Scenario C: insufficient total resources. *)
Definition scenario_C : SystemState :=
  state_of [3] [1] [[1]; [1]] [[2]; [2]].

(** [test_single_process_requesting_held_resource]: one process asking for
    the resource it holds. *)
Definition self_request : SystemState :=
  state_of [1] [0] [[1]] [[1]].

(** [test_overlapping_cycles]: a cycle P0, P1, P2 and P3 waiting for P2. *)
Definition behind_cycle : SystemState :=
  state_of [1; 1; 1; 1] [0; 0; 0; 0]
    [[1; 0; 0; 0]; [0; 1; 0; 0]; [0; 0; 1; 0]; [0; 0; 0; 1]]
    [[0; 1; 0; 0]; [0; 0; 1; 0]; [1; 0; 0; 0]; [0; 0; 1; 0]].

(** Two processes waiting for each other on a resource type of three
    instances, one of which is free. *)
Definition free_instance : SystemState :=
  state_of [3] [1] [[1]; [1]] [[1]; [1]].

(** The degenerate state: no process, no resource type. *)
Definition empty_state : SystemState := state_of [] [] [] [].

(** Three idle processes and no resource type. *)
Definition no_resources : SystemState := state_of [] [] [[]; []; []] [[]; []; []].

(** Nine processes of which P1 asks for a resource type held by P8 and
    then for one held by P0, and P2 for one held by P0 and then for one
    held by P8: the adjacency sets of P1 and P2 are equal and are filled
    in different orders.  P0 waits for P1, and P8 for P2. *)
Definition insertion_history : SystemState :=
  state_of [1; 1; 1; 1; 1] [0; 0; 0; 0; 0]
    [ [1; 0; 1; 0; 0]; [0; 0; 0; 1; 0]; [0; 0; 0; 0; 1];
      [0; 0; 0; 0; 0]; [0; 0; 0; 0; 0]; [0; 0; 0; 0; 0];
      [0; 0; 0; 0; 0]; [0; 0; 0; 0; 0]; [0; 1; 0; 0; 0] ]
    [ [0; 0; 0; 1; 0]; [0; 1; 1; 0; 0]; [1; 1; 0; 0; 0];
      [0; 0; 0; 0; 0]; [0; 0; 0; 0; 0]; [0; 0; 0; 0; 0];
      [0; 0; 0; 0; 0]; [0; 0; 0; 0; 0]; [0; 0; 0; 0; 1] ].

(** A chain of [k] processes on [k] single-instance resource types: every
    process holds the resource type of its own index and requests that of
    the next process, and the last process requests nothing. *)
Definition chain_state (k : nat) : SystemState :=
  mkSystemState
    ((λ i, mkProcess (Z.of_nat i) ("P" +:+ pretty i)) <$> range k)
    ((λ j, mkResourceType (Z.of_nat j) ("R" +:+ pretty j) 1) <$> range k)
    (replicate k 0)
    ((λ i, (λ j, if decide (j = i) then 1 else 0) <$> range k) <$> range k)
    ((λ i, (λ j, if decide (j = S i) then 1 else 0) <$> range k) <$> range k).

(** No process requests anything. *)
Definition no_requests (s : SystemState) : Prop :=
  Forall (Forall (λ v, v = 0)) (request s).

(** The state that [create_empty_system_state] builds for [np] processes
    and [nr] resource types. *)
Definition empty_template (np nr : nat) : SystemState :=
  mkSystemState
    ((λ i, mkProcess (Z.of_nat i) ("P" +:+ pretty i)) <$> range np)
    ((λ j, mkResourceType (Z.of_nat j) ("R" +:+ pretty j) 1) <$> range nr)
    (replicate nr 1)
    (replicate np (replicate nr 0))
    (replicate np (replicate nr 0)).

(** The lines of the trace of [detect_deadlock_wfg]: the header, and the
    warning for a state that is not single-instance. *)
Definition wfg_header (s : SystemState) : list string :=
  [ "=== Wait-For Graph Deadlock Detection ===";
    "System: " +:+ pretty (n s) +:+ " processes, " +:+ pretty (m s)
      +:+ " resource types";
    "" ].

Definition wfg_warning : list string :=
  [ "WARNING: Not all resources have single instance!";
    "Wait-for graph cycle detection may give incorrect results.";
    "Use matrix-based detection for multi-instance resources.";
    "" ].

(** The resource types of which process [i] holds an instance, in
    ascending order. *)
Definition held_types (s : SystemState) (i : nat) : list nat :=
  filter (λ j, 0 < entry (alloc_row s i) j) (range (m s)).

(** What a suggestion proposes: its kind, its processes, its resources. *)
Definition suggestion_summary (x : Recovery.RecoverySuggestion)
    : string * gset nat * option (gset nat) :=
  (Recovery.action_type x, Recovery.processes x, Recovery.resources x).

(** [o] is a safe sequence: each of its processes can be selected once
    the processes before it have finished. *)
Definition safe_sequence (s : SystemState) (o : list nat) : Prop :=
  ∀ k i, o !! k = Some i → eligible s (take k o) i.

(** A line of the report that is empty or starts with a space. *)
Definition indented (l : string) : Prop := l = "" ∨ ∃ r, l = " " +:+ r.

(** [test_overlapping_cycles]-like state with a shortcut: P0 waits for P1
    and P2, P1 for P2, and P2 for P0. *)
Definition shortcut_cycle : SystemState :=
  state_of [1; 1; 1] [0; 0; 0]
    [[0; 0; 1]; [1; 0; 0]; [0; 1; 0]]
    [[1; 1; 0]; [0; 1; 0]; [0; 0; 1]].

(** A check of [__post_init__] either passes or raises [ValueError]. *)
Definition validation (r : outcome unit) : Prop :=
  r = Ok () ∨ ∃ msg, r = Raise (ValueError msg).

(** ** Tactics *)

(** Membership in the nested comprehensions of [wait_edges]. *)
Local Ltac edge_of H :=
  repeat match type of H with
  | _ ∈ (_ ≫= _) => apply list_elem_of_bind in H as (? & H & _)
  | _ ∈ [_] => apply list_elem_of_singleton in H
  | _ ∈ (if bool_decide ?P then _ else _) =>
      destruct (bool_decide P); [|by apply not_elem_of_nil in H]
  end.

(** Membership in the lists of lines of [report_lines]. *)
Local Ltac split_membership H :=
  repeat first
    [ apply elem_of_app in H as [H|H]
    | match type of H with _ ∈ _ :: _ => apply elem_of_cons in H as [H|H] end ].

Local Ltac no_such_line H :=
  split_membership H;
  first
    [ by apply elem_of_nil in H
    | discriminate H
    | cbn in H; discriminate H
    | match goal with
      | Hall : Forall _ ?l |- _ =>
          match type of H with _ ∈ l =>
            rewrite Forall_forall in Hall; by apply Hall in H
          end
      end ].

(* ================================================================== *)
(** * Properties *)

(** ** The outcome monad and the loop combinators *)

Lemma bind_Ok {A B} (r : outcome A) (k : A → outcome B) (b : B) :
  r ≫= k = Ok b ↔ ∃ a, r = Ok a ∧ k a = Ok b.
Proof.
  destruct r as [a| |]; simpl; split.
  - intros Hk. by exists a.
  - by intros (? & [= <-] & ?).
  - intros [=].
  - by intros (? & [=] & ?).
  - intros [=].
  - by intros (? & [=] & ?).
Qed.

Lemma bind_unit_Ok {B} (r : outcome unit) (k : unit → outcome B) (b : B) :
  r ≫= k = Ok b ↔ r = Ok () ∧ k () = Ok b.
Proof.
  rewrite bind_Ok. split.
  - intros [[] [-> ?]]. done.
  - intros [-> ?]. by exists ().
Qed.

Lemma fmap_Ok {A B} (f : A → B) (r : outcome A) (b : B) :
  f <$> r = Ok b ↔ ∃ a, r = Ok a ∧ b = f a.
Proof.
  destruct r as [a| |]; simpl; split.
  - intros [= <-]. by exists a.
  - by intros (? & [= <-] & ->).
  - intros [=].
  - by intros (? & [=] & ?).
  - intros [=].
  - by intros (? & [=] & ?).
Qed.

Lemma py_index_Ok {A} (l : list A) i x : py_index l i = Ok x ↔ l !! i = Some x.
Proof. unfold py_index. destruct (l !! i); naive_solver. Qed.

Lemma py_index_lookup {A} (l : list A) i x : l !! i = Some x → py_index l i = Ok x.
Proof. apply py_index_Ok. Qed.

Lemma py_setitem_lookup {A} (l : list A) i x y :
  l !! i = Some y → py_setitem l i x = Ok (<[i := x]> l).
Proof. unfold py_setitem. by intros ->. Qed.

Lemma elem_of_range i k : i ∈ range k ↔ (i < k)%nat.
Proof. unfold range. rewrite elem_of_seq. lia. Qed.

Lemma for_each_Ok {A} (l : list A) (body : A → outcome unit) :
  for_each l body = Ok () ↔ ∀ x, x ∈ l → body x = Ok ().
Proof.
  induction l as [|x l IH]; simpl.
  - split; [intros _ x Hx; inversion Hx | done].
  - rewrite bind_unit_Ok, IH. split.
    + intros [Hx Hl] y Hy. apply elem_of_cons in Hy as [->|Hy]; auto.
    + intros Hall. split; [|intros y Hy]; apply Hall; set_solver.
Qed.

Lemma mapM_Ok_fmap {A B} (f : A → outcome B) (g : A → B) (l : list A) :
  (∀ x, x ∈ l → f x = Ok (g x)) → mapM f l = Ok (g <$> l).
Proof.
  induction l as [|x l IH]; intros Hf; simpl; [done|].
  rewrite Hf by set_solver. simpl. rewrite IH by set_solver. done.
Qed.

Lemma mapM_py_index {A} (l : list A) (ids : list nat) (rows : list A) :
  mapM (py_index l) ids = Ok rows ↔ Forall2 (λ i row, l !! i = Some row) ids rows.
Proof.
  revert rows. induction ids as [|i ids IH]; intros rows; simpl.
  - split; [intros [= <-]; constructor | by inversion 1].
  - rewrite bind_Ok. split.
    + intros (row & Hrow & Hrest). apply bind_Ok in Hrest as (rs & Hrs & [= <-]).
      constructor; [by apply py_index_Ok | by apply IH].
    + inversion 1 as [|? row ? rs Hrow Hrs]; subst.
      exists row. split; [by apply py_index_Ok|].
      apply IH in Hrs. rewrite Hrs. done.
Qed.

Lemma validation_raise_if c msg : validation (raise_if c msg).
Proof. destruct c; [right|left]; eauto. Qed.

Lemma validation_bind (r : outcome unit) (k : unit → outcome unit) :
  validation r → (r = Ok () → validation (k ())) → validation (r ≫= k).
Proof.
  intros [->|[msg ->]] Hk; simpl; [by apply Hk | right; eauto].
Qed.

Lemma validation_for_each {A} (l : list A) (body : A → outcome unit) :
  (∀ x, x ∈ l → validation (body x)) → validation (for_each l body).
Proof.
  induction l as [|x l IH]; intros Hb; simpl; [by left|].
  apply validation_bind; [apply Hb; set_solver|].
  intros _. apply IH. intros y Hy. apply Hb. set_solver.
Qed.

Lemma raise_if_Ok c msg : raise_if c msg = Ok () ↔ c = false.
Proof. destruct c; simpl; naive_solver. Qed.

Lemma elem_of_enumerate {A} (l : list A) i x :
  (i, x) ∈ enumerate l ↔ l !! i = Some x.
Proof.
  unfold enumerate. rewrite list_elem_of_lookup. split.
  - intros [k Hk]. apply lookup_zip_with_Some in Hk as (a & b & [= -> ->] & Ha & Hb).
    apply lookup_seq in Ha as [-> _]. done.
  - intros Hx. exists i. apply lookup_zip_with_Some. exists i, x.
    split; [done|]. split; [|done].
    apply lookup_seq. split; [done|]. by eapply lookup_lt_Some.
Qed.

Lemma for_each_enumerate_Ok {A} (l : list A) (c : nat → A → bool)
    (msg : nat → A → string) :
  for_each (enumerate l) (λ '(i, x), raise_if (c i x) (msg i x)) = Ok ()
  ↔ ∀ i x, l !! i = Some x → c i x = false.
Proof.
  rewrite for_each_Ok. split.
  - intros Hall i x Hx. specialize (Hall (i, x)). simpl in Hall.
    eapply raise_if_Ok, Hall, elem_of_enumerate, Hx.
  - intros Hall [i x] Hx. eapply raise_if_Ok, Hall, elem_of_enumerate, Hx.
Qed.

Lemma for_each_range2_Ok (r c : nat) (body : nat → nat → outcome unit) :
  for_each (range r) (λ i, for_each (range c) (body i)) = Ok ()
  ↔ ∀ i j, (i < r)%nat → (j < c)%nat → body i j = Ok ().
Proof.
  rewrite for_each_Ok. setoid_rewrite for_each_Ok.
  setoid_rewrite elem_of_range. naive_solver.
Qed.

(** ** Construction of a [SystemState] *)

Lemma foldl_add_foldr (l : list Z) (a : Z) :
  foldl Z.add a l = a + foldr Z.add 0 l.
Proof.
  revert a. induction l as [|x l IH]; intros a; simpl; [lia|].
  rewrite IH. lia.
Qed.

Lemma py_sum_foldr (l : list Z) : py_sum l = foldr Z.add 0 l.
Proof. unfold py_sum. by rewrite foldl_add_foldr. Qed.

Lemma entry_lookup (row : list Z) j v : row !! j = Some v → entry row j = v.
Proof. unfold entry. by intros ->. Qed.

Lemma lookup_row (al : list (list Z)) (k i j : nat) :
  Forall (λ row, length row = k) al → (j < k)%nat → (i < length al)%nat →
  ∃ row, al !! i = Some row ∧ row !! j = Some (entry row j).
Proof.
  intros Hall Hj Hi. apply lookup_lt_is_Some in Hi as [row Hrow].
  exists row. split; [done|].
  rewrite Forall_lookup in Hall. specialize (Hall _ _ Hrow).
  destruct (lookup_lt_is_Some_2 row j) as [v Hv]; [lia|].
  by rewrite (entry_lookup _ _ _ Hv).
Qed.

Lemma column_Ok (al : list (list Z)) (k j : nat) :
  Forall (λ row, length row = k) al → (j < k)%nat →
  mapM (λ i, arow ← py_index al i; py_index arow j) (range (length al))
  = Ok ((λ row, entry row j) <$> al).
Proof.
  intros Hall Hj.
  rewrite (mapM_Ok_fmap _ (λ i, entry (default [] (al !! i)) j)).
  - f_equal. apply list_eq. intros i. rewrite !list_lookup_fmap.
    unfold range. destruct (decide (i < length al)%nat) as [Hi|Hi].
    + rewrite lookup_seq_lt by done. simpl.
      apply lookup_lt_is_Some in Hi as [row ->]. done.
    + rewrite lookup_seq_ge by lia. rewrite lookup_ge_None_2 by lia. done.
  - intros i Hi. apply elem_of_range in Hi.
    destruct (lookup_row al k i j) as (row & Hrow & Hv); [done..|].
    rewrite (py_index_lookup _ _ _ Hrow). simpl. rewrite Hrow. simpl.
    by apply py_index_lookup.
Qed.

Lemma validate_dimensions_Ok s : validate_dimensions s = Ok () ↔ inv_dimensions s.
Proof.
  unfold validate_dimensions, inv_dimensions.
  rewrite !bind_unit_Ok, !raise_if_Ok, !negb_false_iff, !Nat.eqb_eq.
  rewrite !for_each_enumerate_Ok, !Forall_lookup.
  setoid_rewrite negb_false_iff. setoid_rewrite Nat.eqb_eq. tauto.
Qed.

Lemma validate_dimensions_validation s : validation (validate_dimensions s).
Proof.
  unfold validate_dimensions.
  repeat (apply validation_bind; [|intros _]);
    try apply validation_raise_if;
    apply validation_for_each; intros [i x] _; apply validation_raise_if.
Qed.

Lemma Forall2_nonneg_lookup (al : list (list Z)) (r c : nat) :
  length al = r → Forall (λ row, length row = c) al →
  Forall (Forall (λ v, 0 ≤ v)) al
  ↔ ∀ i j row, (i < r)%nat → (j < c)%nat → al !! i = Some row → 0 ≤ entry row j.
Proof.
  intros Hlen Hcols. rewrite !Forall_lookup. split.
  - intros Hall i j row _ Hj Hrow.
    rewrite Forall_lookup in Hcols. specialize (Hcols _ _ Hrow).
    destruct (lookup_lt_is_Some_2 row j) as [v Hv]; [lia|].
    rewrite (entry_lookup _ _ _ Hv).
    specialize (Hall _ _ Hrow). rewrite Forall_lookup in Hall. eauto.
  - intros Hall i row Hrow. rewrite Forall_lookup. intros j v Hv.
    rewrite <- (entry_lookup _ _ _ Hv).
    rewrite Forall_lookup in Hcols. specialize (Hcols _ _ Hrow).
    apply (Hall i j); [..|done].
    + apply lookup_lt_Some in Hrow. lia.
    + apply lookup_lt_Some in Hv. lia.
Qed.

Lemma validate_non_negative_Ok s :
  inv_dimensions s → validate_non_negative s = Ok () ↔ inv_nonneg s.
Proof.
  intros (Hav & [Hal Hac] & [Hrq Hrc]).
  unfold validate_non_negative, inv_nonneg.
  rewrite bind_unit_Ok, for_each_enumerate_Ok, for_each_range2_Ok.
  rewrite (Forall2_nonneg_lookup (allocation s) (n s) (m s)) by done.
  rewrite (Forall2_nonneg_lookup (request s) (n s) (m s)) by done.
  rewrite Forall_lookup. setoid_rewrite Z.ltb_ge.
  apply and_iff_compat_l. split.
  - intros Hbody. split; intros i j row Hi Hj Hrow.
    all: specialize (Hbody i j Hi Hj).
    all: destruct (lookup_row (allocation s) (m s) i j) as (arow & Ha & Hva);
      [done|done|lia|].
    all: destruct (lookup_row (request s) (m s) i j) as (rrow & Hr & Hvr);
      [done|done|lia|].
    all: rewrite (py_index_lookup _ _ _ Ha) in Hbody; simpl in Hbody.
    all: rewrite (py_index_lookup _ _ _ Hva) in Hbody; simpl in Hbody.
    all: apply bind_unit_Ok in Hbody as [H1 Hbody].
    all: rewrite (py_index_lookup _ _ _ Hr) in Hbody; simpl in Hbody.
    all: rewrite (py_index_lookup _ _ _ Hvr) in Hbody; simpl in Hbody.
    all: apply raise_if_Ok, Z.ltb_ge in H1, Hbody.
    all: simplify_eq; done.
  - intros [HA HR] i j Hi Hj.
    destruct (lookup_row (allocation s) (m s) i j) as (arow & Ha & Hva);
      [done|done|lia|].
    destruct (lookup_row (request s) (m s) i j) as (rrow & Hr & Hvr);
      [done|done|lia|].
    rewrite (py_index_lookup _ _ _ Ha). simpl.
    rewrite (py_index_lookup _ _ _ Hva). simpl.
    apply bind_unit_Ok. split.
    + apply raise_if_Ok, Z.ltb_ge. eauto.
    + rewrite (py_index_lookup _ _ _ Hr). simpl.
      rewrite (py_index_lookup _ _ _ Hvr). simpl.
      apply raise_if_Ok, Z.ltb_ge. eauto.
Qed.

Lemma validate_non_negative_validation s :
  inv_dimensions s → validation (validate_non_negative s).
Proof.
  intros (Hav & [Hal Hac] & [Hrq Hrc]). unfold validate_non_negative.
  apply validation_bind; [|intros _].
  { apply validation_for_each. intros [i x] _. apply validation_raise_if. }
  apply validation_for_each. intros i Hi%elem_of_range.
  apply validation_for_each. intros j Hj%elem_of_range.
  destruct (lookup_row (allocation s) (m s) i j) as (arow & Ha & Hva);
    [done|done|lia|].
  destruct (lookup_row (request s) (m s) i j) as (rrow & Hr & Hvr);
    [done|done|lia|].
  rewrite (py_index_lookup _ _ _ Ha). simpl.
  rewrite (py_index_lookup _ _ _ Hva). simpl.
  apply validation_bind; [apply validation_raise_if|intros _].
  rewrite (py_index_lookup _ _ _ Hr). simpl.
  rewrite (py_index_lookup _ _ _ Hvr). simpl.
  apply validation_raise_if.
Qed.

Lemma conservation_body s j :
  inv_dimensions s → (j < m s)%nat →
  ∃ rt, resource_types s !! j = Some rt ∧
    (col ← mapM (λ i, arow ← py_index (allocation s) i; py_index arow j)
               (range (n s));
     av ← py_index (available s) j;
     rt ← py_index (resource_types s) j;
     raise_if (negb (av + py_sum col =? instances rt))
       ("Resource R" +:+ pretty j +:+ ": Available (" +:+ pretty av
          +:+ ") + Allocated (" +:+ pretty (py_sum col)
          +:+ ") != Total instances (" +:+ pretty (instances rt) +:+ ")"))
    = raise_if (negb (entry (available s) j + column_sum (allocation s) j
                        =? instances rt))
        ("Resource R" +:+ pretty j +:+ ": Available ("
           +:+ pretty (entry (available s) j)
           +:+ ") + Allocated (" +:+ pretty (column_sum (allocation s) j)
           +:+ ") != Total instances (" +:+ pretty (instances rt) +:+ ")").
Proof.
  intros (Hav & [Hal Hac] & [Hrq Hrc]) Hj.
  destruct (lookup_lt_is_Some_2 (resource_types s) j) as [rt Hrt]; [done|].
  destruct (lookup_lt_is_Some_2 (available s) j) as [av Hv]; [lia|].
  exists rt. split; [done|].
  rewrite <- Hal, (column_Ok _ (m s)) by done. simpl.
  rewrite (py_index_lookup _ _ _ Hv). simpl.
  rewrite (py_index_lookup _ _ _ Hrt). simpl.
  rewrite py_sum_foldr. fold (column_sum (allocation s) j).
  by rewrite (entry_lookup _ _ _ Hv).
Qed.

Lemma validate_conservation_Ok s :
  inv_dimensions s → validate_conservation s = Ok () ↔ inv_conservation s.
Proof.
  intros Hdim. unfold validate_conservation, inv_conservation.
  rewrite for_each_Ok. setoid_rewrite elem_of_range. split.
  - intros Hall j rt Hrt. pose proof (lookup_lt_Some _ _ _ Hrt) as Hj.
    specialize (Hall j Hj).
    destruct (conservation_body s j Hdim Hj) as (rt' & Hrt' & Heq).
    rewrite Heq in Hall. apply raise_if_Ok, negb_false_iff, Z.eqb_eq in Hall.
    congruence.
  - intros Hall j Hj.
    destruct (conservation_body s j Hdim Hj) as (rt & Hrt & ->).
    apply raise_if_Ok, negb_false_iff, Z.eqb_eq. auto.
Qed.

Lemma validate_conservation_validation s :
  inv_dimensions s → validation (validate_conservation s).
Proof.
  intros Hdim. apply validation_for_each. intros j Hj%elem_of_range.
  cbv zeta. destruct (conservation_body s j Hdim Hj) as (rt & Hrt & ->).
  apply validation_raise_if.
Qed.

Lemma requests_body s i j :
  inv_dimensions s → (i < n s)%nat → (j < m s)%nat →
  ∃ row rt, request s !! i = Some row ∧ resource_types s !! j = Some rt ∧
    (rrow ← py_index (request s) i;
     r ← py_index rrow j;
     rt ← py_index (resource_types s) j;
     raise_if (instances rt <? r)
       ("Request[" +:+ pretty i +:+ "][" +:+ pretty j +:+ "] = " +:+ pretty r
          +:+ " exceeds total instances of R" +:+ pretty j +:+ " = "
          +:+ pretty (instances rt)))
    = raise_if (instances rt <? entry row j)
        ("Request[" +:+ pretty i +:+ "][" +:+ pretty j +:+ "] = "
           +:+ pretty (entry row j)
           +:+ " exceeds total instances of R" +:+ pretty j +:+ " = "
           +:+ pretty (instances rt)).
Proof.
  intros (Hav & [Hal Hac] & [Hrq Hrc]) Hi Hj.
  destruct (lookup_lt_is_Some_2 (resource_types s) j) as [rt Hrt]; [done|].
  destruct (lookup_row (request s) (m s) i j) as (row & Hr & Hvr);
    [done|done|lia|].
  exists row, rt. split; [done|]. split; [done|].
  rewrite (py_index_lookup _ _ _ Hr). simpl.
  rewrite (py_index_lookup _ _ _ Hvr). simpl.
  rewrite (py_index_lookup _ _ _ Hrt). done.
Qed.

Lemma validate_requests_Ok s :
  inv_dimensions s → validate_requests s = Ok () ↔ inv_bounded s.
Proof.
  intros Hdim. unfold validate_requests, inv_bounded.
  rewrite for_each_range2_Ok. split.
  - intros Hall i j row rt Hrow Hrt.
    assert (i < n s)%nat as Hi.
    { apply lookup_lt_Some in Hrow. destruct Hdim as (_ & _ & [<- _]). done. }
    pose proof (lookup_lt_Some _ _ _ Hrt) as Hj.
    specialize (Hall i j Hi Hj).
    destruct (requests_body s i j Hdim Hi Hj) as (row' & rt' & Hr' & Hrt' & Heq).
    rewrite Heq in Hall. apply raise_if_Ok, Z.ltb_ge in Hall. congruence.
  - intros Hall i j Hi Hj.
    destruct (requests_body s i j Hdim Hi Hj) as (row & rt & Hr & Hrt & ->).
    apply raise_if_Ok, Z.ltb_ge. eauto.
Qed.

Lemma validate_requests_validation s :
  inv_dimensions s → validation (validate_requests s).
Proof.
  intros Hdim. apply validation_for_each. intros i Hi%elem_of_range.
  apply validation_for_each. intros j Hj%elem_of_range.
  destruct (requests_body s i j Hdim Hi Hj) as (row & rt & Hr & Hrt & ->).
  apply validation_raise_if.
Qed.

Lemma post_init_Ok s : post_init s = Ok () ↔ valid s.
Proof.
  unfold post_init, valid. rewrite !bind_unit_Ok, validate_dimensions_Ok.
  split.
  - intros (Hdim & Hnn & Hcons & Hreq).
    rewrite validate_non_negative_Ok in Hnn by done.
    rewrite validate_conservation_Ok in Hcons by done.
    rewrite validate_requests_Ok in Hreq by done. done.
  - intros (Hdim & Hnn & Hcons & Hreq).
    rewrite validate_non_negative_Ok, validate_conservation_Ok,
      validate_requests_Ok by done. done.
Qed.

Lemma post_init_validation s : validation (post_init s).
Proof.
  unfold post_init.
  apply validation_bind; [apply validate_dimensions_validation|].
  intros Hdim%validate_dimensions_Ok.
  apply validation_bind; [by apply validate_non_negative_validation|intros _].
  apply validation_bind; [by apply validate_conservation_validation|intros _].
  by apply validate_requests_validation.
Qed.

Lemma new_SystemState_valid s :
  valid s →
  new_SystemState (processes s) (resource_types s) (available s)
    (allocation s) (request s) = Ok s.
Proof.
  intros Hv. unfold new_SystemState. destruct s as [ps rts av al rq]. simpl.
  apply post_init_Ok in Hv. rewrite Hv. done.
Qed.

(** C6. Constructing a [SystemState] returns the object exactly when the four
    invariants (dimensions, non-negativity, conservation, boundedness) hold
    of the arguments, and raises [ValueError] exactly when one of them is
    violated; a returned object is the record of the arguments and
    satisfies all four. *)
Theorem construction_checks_invariants
    (ps : list Process) (rts : list ResourceType) (av : list Z)
    (al rq : list (list Z)) :
  let s := mkSystemState ps rts av al rq in
  (new_SystemState ps rts av al rq = Ok s ↔ valid s) ∧
  ((∃ msg, new_SystemState ps rts av al rq = Raise (ValueError msg))
     ↔ ¬ valid s) ∧
  (∀ s', new_SystemState ps rts av al rq = Ok s' → s' = s ∧ valid s').
Proof.
  intros s. unfold new_SystemState. fold s.
  pose proof (post_init_Ok s) as Hok.
  destruct (post_init_validation s) as [Hr|[msg Hr]]; rewrite Hr; simpl.
  - pose proof (proj1 Hok Hr) as Hv. split; [done|]. split.
    + split; [by intros [? [=]] | done].
    + intros s' [= <-]. done.
  - assert (¬ valid s) as Hnv.
    { intros Hv%Hok. congruence. }
    split; [split; [intros [=] | done]|]. split.
    + split; [done | eauto].
    + intros s' [=].
Qed.

(** ** Vectors *)

Import Matrix.

Lemma length_vector_add a b : length (vector_add a b) = (length a `min` length b)%nat.
Proof. unfold vector_add. by rewrite length_fmap, length_zip_with. Qed.

Lemma lookup_vector_add a b j x y :
  a !! j = Some x → b !! j = Some y → vector_add a b !! j = Some (x + y).
Proof.
  intros Ha Hb. unfold vector_add. rewrite list_lookup_fmap.
  rewrite lookup_zip_with, Ha. simpl. rewrite Hb. done.
Qed.

Lemma entry_vector_add a b j :
  (j < length a)%nat → (j < length b)%nat →
  entry (vector_add a b) j = entry a j + entry b j.
Proof.
  intros [x Hx]%lookup_lt_is_Some [y Hy]%lookup_lt_is_Some.
  rewrite (entry_lookup _ _ _ (lookup_vector_add _ _ _ _ _ Hx Hy)).
  by rewrite (entry_lookup _ _ _ Hx), (entry_lookup _ _ _ Hy).
Qed.

Lemma vector_less_equal_spec k a b :
  length a = k → length b = k →
  vector_less_equal a b = true ↔ vec_le k a b.
Proof.
  intros Ha Hb. unfold vector_less_equal, vec_le.
  etrans; [symmetry; apply Is_true_true|].
  rewrite forallb_True, Forall_lookup. split.
  - intros Hall j Hj.
    destruct (lookup_lt_is_Some_2 a j) as [x Hx]; [lia|].
    destruct (lookup_lt_is_Some_2 b j) as [y Hy]; [lia|].
    rewrite (entry_lookup _ _ _ Hx), (entry_lookup _ _ _ Hy).
    specialize (Hall j (x, y)). simpl in Hall.
    apply Z.leb_le, Is_true_true, Hall.
    rewrite lookup_zip_with, Hx. simpl. by rewrite Hy.
  - intros Hall j [x y] Hxy.
    apply lookup_zip_with_Some in Hxy as (x' & y' & [= <- <-] & Hx & Hy).
    simpl. apply Is_true_true, Z.leb_le.
    rewrite <- (entry_lookup _ _ _ Hx), <- (entry_lookup _ _ _ Hy).
    apply Hall. apply lookup_lt_Some in Hx. lia.
Qed.

(** ** The Work/Finish loop *)

Lemma finish_of_lookup k done i :
  (i < k)%nat → finish_of k done !! i = Some (bool_decide (i ∈ done)).
Proof.
  intros Hi. unfold finish_of, range. rewrite list_lookup_fmap.
  by rewrite lookup_seq_lt.
Qed.

Lemma length_finish_of k done : length (finish_of k done) = k.
Proof. unfold finish_of, range. by rewrite length_fmap, length_seq. Qed.

Lemma finish_of_nil k : replicate k false = finish_of k [].
Proof.
  apply list_eq. intros i. destruct (decide (i < k)%nat) as [Hi|Hi].
  - by rewrite finish_of_lookup, lookup_replicate_2 by done.
  - rewrite (lookup_ge_None_2 (replicate k false))
      by (rewrite length_replicate; lia).
    by rewrite lookup_ge_None_2 by (rewrite length_finish_of; lia).
Qed.

Lemma finish_of_insert k done i :
  (i < k)%nat → <[i := true]> (finish_of k done) = finish_of k (done ++ [i]).
Proof.
  intros Hi. apply list_eq. intros j.
  destruct (decide (j < k)%nat) as [Hj|Hj].
  - rewrite (finish_of_lookup _ (done ++ [i])) by done.
    destruct (decide (i = j)) as [->|Hne].
    + rewrite list_lookup_insert_eq by (rewrite length_finish_of; lia).
      f_equal. symmetry. apply bool_decide_eq_true. set_solver.
    + rewrite list_lookup_insert_ne, finish_of_lookup by done.
      f_equal. apply bool_decide_ext. set_solver.
  - rewrite (lookup_ge_None_2 (finish_of k (done ++ [i])))
      by (rewrite length_finish_of; lia).
    by rewrite lookup_ge_None_2
      by (rewrite length_insert, length_finish_of; lia).
Qed.

Lemma work_after_snoc s done i :
  work_after s (done ++ [i]) = vector_add (work_after s done) (alloc_row s i).
Proof. unfold work_after. by rewrite foldl_app. Qed.

Section MatrixLoop.
Variable s : SystemState.
Hypothesis Hdim : inv_dimensions s.

Lemma alloc_row_lookup i :
  (i < n s)%nat →
  allocation s !! i = Some (alloc_row s i) ∧ length (alloc_row s i) = m s.
Proof.
  destruct Hdim as (_ & [Hal Hac] & _). intros Hi.
  destruct (lookup_lt_is_Some_2 (allocation s) i) as [row Hrow]; [lia|].
  unfold alloc_row. rewrite Hrow. split; [done|].
  rewrite Forall_lookup in Hac. eauto.
Qed.

Lemma req_row_lookup i :
  (i < n s)%nat →
  request s !! i = Some (req_row s i) ∧ length (req_row s i) = m s.
Proof.
  destruct Hdim as (_ & _ & [Hrq Hrc]). intros Hi.
  destruct (lookup_lt_is_Some_2 (request s) i) as [row Hrow]; [lia|].
  unfold req_row. rewrite Hrow. split; [done|].
  rewrite Forall_lookup in Hrc. eauto.
Qed.

Lemma length_work_after done :
  (∀ i, i ∈ done → (i < n s)%nat) → length (work_after s done) = m s.
Proof.
  induction done as [|i done IH] using rev_ind; intros Hlt.
  - by destruct Hdim as [? _].
  - rewrite work_after_snoc, length_vector_add, IH by set_solver.
    destruct (alloc_row_lookup i) as [_ ->]; [set_solver|]. lia.
Qed.

Lemma lowest_first_lt order i :
  lowest_first s order → i ∈ order → (i < n s)%nat.
Proof.
  intros Hlf [k Hk]%list_elem_of_lookup. by destruct (Hlf k i Hk) as [[? _] _].
Qed.

Lemma lowest_first_snoc order i :
  lowest_first s order → eligible s order i →
  (∀ j, (j < i)%nat → ¬ eligible s order j) →
  lowest_first s (order ++ [i]).
Proof.
  intros Hlf Hel Hlow k x Hk.
  destruct (decide (k < length order)%nat) as [Hlt|Hge].
  - rewrite lookup_app_l in Hk by done.
    rewrite take_app_le by lia. by apply Hlf.
  - apply lookup_lt_Some in Hk as Hlen. rewrite length_app in Hlen. simpl in Hlen.
    assert (k = length order) as -> by lia.
    rewrite list_lookup_middle in Hk by done. injection Hk as <-.
    rewrite take_app_length. done.
Qed.

Lemma finish_process_spec st i :
  loop_inv s st → eligible s (l_execution_order st) i →
  (∀ j, (j < i)%nat → ¬ eligible s (l_execution_order st) j) →
  ∃ st', finish_process s i st = Ok st' ∧ loop_inv s st' ∧
    l_execution_order st' = l_execution_order st ++ [i] ∧
    ∃ lines, l_trace st' = l_trace st ++ lines.
Proof.
  intros (Hw & Hf & Hit & Hnd & Hlf) Hel Hlow.
  pose proof Hel as (Hi & Hnotin & Hle).
  destruct (alloc_row_lookup i Hi) as [Ha Hal].
  destruct (req_row_lookup i Hi) as [Hr Hrl].
  unfold finish_process.
  rewrite (py_setitem_lookup _ _ _ (bool_decide (i ∈ l_execution_order st))).
  2:{ rewrite Hf. by apply finish_of_lookup. }
  simpl. rewrite (py_index_lookup _ _ _ Hr). simpl.
  rewrite (py_index_lookup _ _ _ Ha). simpl.
  eexists. split; [done|]. simpl. split; [|eauto].
  split_and!; simpl.
  - by rewrite work_after_snoc, Hw.
  - rewrite Hf. by apply finish_of_insert.
  - rewrite length_app. simpl. lia.
  - apply NoDup_app. split; [done|]. split; [|apply NoDup_singleton].
    intros x Hx Hx'. apply list_elem_of_singleton in Hx' as ->. done.
  - by apply lowest_first_snoc.
Qed.

Lemma scan_spec st a b :
  loop_inv s st → (a + b = n s)%nat →
  (∀ j, (j < a)%nat → ¬ eligible s (l_execution_order st) j) →
  (scan s (seq a b) st = Ok None ∧ exhausted s (l_execution_order st)) ∨
  (∃ i, eligible s (l_execution_order st) i ∧
        (∀ j, (j < i)%nat → ¬ eligible s (l_execution_order st) j) ∧
        scan s (seq a b) st = Some <$> finish_process s i st).
Proof.
  intros Hinv. pose proof Hinv as (Hw & Hf & Hit & Hnd & Hlf).
  revert a. induction b as [|b IH]; intros a Hab Hlow; simpl.
  - left. split; [done|]. intros j Hel. pose proof Hel as [Hj _].
    apply (Hlow j); [lia|done].
  - assert (a < n s)%nat as Ha by lia.
    rewrite Hf. rewrite (py_index_lookup _ _ _ (finish_of_lookup _ _ _ Ha)).
    simpl. case_bool_decide as Hin.
    { apply IH; [lia|]. intros j Hj.
      destruct (decide (j = a)) as [->|]; [by intros (_ & ? & _)|].
      apply Hlow. lia. }
    destruct (req_row_lookup a Ha) as [Hr Hrl].
    rewrite (py_index_lookup _ _ _ Hr). simpl.
    assert (length (l_work st) = m s) as Hwl.
    { rewrite Hw. apply length_work_after. intros x. by apply lowest_first_lt. }
    destruct (vector_less_equal (req_row s a) (l_work st)) eqn:Hle.
    + right. exists a. split; [|done].
      split; [done|]. split; [done|].
      rewrite <- Hw. by apply (vector_less_equal_spec (m s)).
    + apply IH; [lia|]. intros j Hj.
      destruct (decide (j = a)) as [->|]; [|apply Hlow; lia].
      intros (_ & _ & Hel). rewrite <- Hw in Hel.
      apply (vector_less_equal_spec (m s)) in Hel; [congruence|done..].
Qed.

Lemma order_length_le order :
  NoDup order → lowest_first s order → (length order ≤ n s)%nat.
Proof.
  intros Hnd Hlf.
  assert (order ⊆+ range (n s)) as Hsub.
  { apply NoDup_submseteq; [done|]. intros x Hx.
    apply elem_of_range. by eapply lowest_first_lt. }
  apply submseteq_length in Hsub. unfold range in Hsub.
  by rewrite length_seq in Hsub.
Qed.

Lemma rounds_spec fuel st :
  loop_inv s st → (n s - length (l_execution_order st) < fuel)%nat →
  ∃ st', rounds fuel s st = Ok st' ∧ loop_inv s st' ∧
    exhausted s (l_execution_order st') ∧
    ∃ lines, l_trace st' = l_trace st ++ lines.
Proof.
  revert st. induction fuel as [|fuel IH]; intros st Hinv Hfuel; [lia|].
  simpl. unfold range.
  destruct (scan_spec st 0 (n s) Hinv) as [[-> Hex]|(i & Hel & Hlow & ->)];
    [done|intros j; lia|..].
  - simpl. exists st. split_and!; [done..|]. exists []. by rewrite app_nil_r.
  - destruct (finish_process_spec st i Hinv Hel Hlow) as (st' & -> & Hinv' & Hord & l1 & Htr).
    simpl. destruct (IH st' Hinv') as (st'' & Hr & Hinv'' & Hex & l2 & Htr').
    + pose proof Hinv' as (_ & _ & _ & Hnd & Hlf).
      pose proof (order_length_le _ Hnd Hlf) as Hlen.
      rewrite Hord, length_app in *. simpl in *. lia.
    + exists st''. split_and!; [done..|].
      exists (l1 ++ l2). by rewrite Htr', Htr, app_assoc.
Qed.

End MatrixLoop.

Lemma filterM_Ok {A} (p : A → outcome bool) (Q : A → Prop)
    `{∀ x, Decision (Q x)} (l : list A) :
  (∀ x, x ∈ l → p x = Ok (bool_decide (Q x))) →
  filterM p l = Ok (filter Q l).
Proof.
  induction l as [|x l IH]; intros Hp; simpl; [done|].
  rewrite Hp by set_solver. simpl. rewrite IH by set_solver. simpl.
  rewrite filter_cons. by case_bool_decide; case_decide.
Qed.

Lemma elem_of_sorted (D : gset nat) i : i ∈ sorted D ↔ i ∈ D.
Proof.
  unfold sorted. rewrite merge_sort_Permutation. apply elem_of_elements.
Qed.

Lemma elem_of_unfinished s order i :
  i ∈ unfinished s order ↔ (i < n s)%nat ∧ i ∉ order.
Proof.
  unfold unfinished. rewrite elem_of_list_to_set, list_elem_of_filter.
  rewrite elem_of_range. tauto.
Qed.

Lemma mapM_row_lines_from {A B} (pre rows : list A) (fmt : nat → A → B) :
  mapM (λ i, row ← py_index (pre ++ rows) i; Ok (fmt i row))
       (seq (length pre) (length rows))
  = Ok (imap (λ i, fmt (length pre + i)%nat) rows).
Proof.
  revert pre. induction rows as [|row rows IH]; intros pre; simpl; [done|].
  rewrite (py_index_lookup _ _ row) by (by apply list_lookup_middle). simpl.
  rewrite (cons_middle row pre rows), app_assoc.
  specialize (IH (pre ++ [row])). rewrite length_app in IH. simpl in IH.
  rewrite Nat.add_1_r in IH. rewrite IH. simpl. rewrite Nat.add_0_r.
  do 2 f_equal. apply imap_ext. intros i x _. simpl. f_equal. lia.
Qed.

Lemma mapM_row_lines {A B} (rows : list A) (k : nat) (fmt : nat → A → B) :
  length rows = k →
  mapM (λ i, row ← py_index rows i; Ok (fmt i row)) (range k)
  = Ok (imap fmt rows).
Proof. intros <-. apply (mapM_row_lines_from [] rows fmt). Qed.

(** The detector returns, and its result is determined by the sequence of
    selections. *)
Lemma detect_deadlock_matrix_spec s :
  inv_dimensions s →
  ∃ order tr,
    detect_deadlock_matrix s
    = Ok {| deadlocked := bool_decide (0 < size (unfinished s order))%nat;
            deadlocked_processes := unfinished s order;
            finish := finish_of (n s) order;
            execution_order := order;
            trace := tr |} ∧
    NoDup order ∧ lowest_first s order ∧ exhausted s order.
Proof.
  intros Hdim. unfold detect_deadlock_matrix. cbv zeta.
  remember (S (n s)) as fuel eqn:Hfuel.
  pose proof Hdim as (_ & [Hal _] & [Hrq _]).
  rewrite (mapM_row_lines (allocation s) (n s)) by done. simpl.
  rewrite (mapM_row_lines (request s) (n s)) by done. simpl.
  match goal with |- context [rounds _ _ ?st0] =>
    destruct (rounds_spec s Hdim fuel st0) as (st & -> & Hinv & Hex & _)
  end.
  { split_and!; simpl; [done|apply finish_of_nil|done|constructor|].
    intros k i Hk. by rewrite lookup_nil in Hk. }
  { simpl. lia. }
  simpl. destruct Hinv as (Hw & Hf & _ & Hnd & Hlf).
  rewrite Hf.
  rewrite (filterM_Ok _ (λ i, i ∉ l_execution_order st)).
  2:{ intros i Hi%elem_of_range.
      cbv beta. rewrite (py_index_lookup _ _ _ (finish_of_lookup _ _ _ Hi)).
      simpl. f_equal. case_bool_decide; by case_bool_decide. }
  simpl. fold (unfinished s (l_execution_order st)).
  destruct (bool_decide (unfinished s (l_execution_order st) ≠ ∅)).
  - rewrite (mapM_Ok_fmap _
      (λ i, [ "    " +:+ P i +:+ ": Request = "
                +:+ vector_to_string (req_row s i) +:+ ", Work = "
                +:+ vector_to_string (l_work st);
              "          Request[" +:+ pretty i
                +:+ "] > Work (cannot be satisfied)" ])).
    2:{ intros i [Hi _]%elem_of_sorted%elem_of_unfinished.
        destruct (req_row_lookup s Hdim i Hi) as [Hr _].
        cbv beta. by rewrite (py_index_lookup _ _ _ Hr). }
    simpl. eexists _, _. split; [reflexivity|done].
  - simpl. eexists _, _. split; [reflexivity|done].
Qed.

(** ** Results of the Matrix Detector *)

Lemma filter_order_range s order :
  NoDup order → lowest_first s order →
  filter (λ i, i ∈ order) (range (n s)) ≡ₚ order.
Proof.
  intros Hnd Hlf. apply NoDup_Permutation; [|done|].
  - apply NoDup_filter, NoDup_seq.
  - intros i. rewrite list_elem_of_filter, elem_of_range.
    split; [tauto|]. intros Hi. split; [done|]. by eapply lowest_first_lt.
Qed.

Lemma size_unfinished s order :
  NoDup order → lowest_first s order →
  (length order + size (unfinished s order) = n s)%nat.
Proof.
  intros Hnd Hlf. unfold unfinished.
  rewrite size_list_to_set by apply NoDup_filter, NoDup_seq.
  rewrite <- (filter_order_range s order) at 1 by done.
  rewrite <- length_app, filter_app_complement.
  unfold range. by rewrite length_seq.
Qed.

Lemma count_true_finish_of s order :
  NoDup order → lowest_first s order →
  count_true (finish_of (n s) order) = length order.
Proof.
  intros Hnd Hlf. rewrite <- (filter_order_range s order) at 2 by done.
  unfold count_true, finish_of.
  induction (range (n s)) as [|i l IH]; simpl; [done|].
  rewrite !filter_cons.
  case_bool_decide; repeat case_decide; simpl; try done; by f_equal.
Qed.

Lemma valid_dimensions s : valid s → inv_dimensions s.
Proof. by intros [? _]. Qed.

(** C2. On every valid state the Matrix Detector returns a result whose
    [deadlocked_processes] is exactly the set of ids whose [finish] entry is
    false, and whose [deadlocked] flag is true iff that set is non-empty,
    iff fewer than [n] entries of [finish] are true. *)
Theorem matrix_result_matches_finish (s : SystemState) :
  valid s →
  ∃ r, detect_deadlock_matrix s = Ok r ∧
    length (finish r) = n s ∧
    (∀ i, i ∈ deadlocked_processes r ↔ finish r !! i = Some false) ∧
    (deadlocked r = true ↔ deadlocked_processes r ≠ ∅) ∧
    (deadlocked r = true ↔ (count_true (finish r) < n s)%nat).
Proof.
  intros Hdim%valid_dimensions.
  destruct (detect_deadlock_matrix_spec s Hdim)
    as (order & tr & Hr & Hnd & Hlf & Hex).
  eexists. split; [exact Hr|]. simpl.
  pose proof (size_unfinished s order Hnd Hlf) as Hsize.
  split_and!.
  - apply length_finish_of.
  - intros i. rewrite elem_of_unfinished. split.
    + intros [Hi Hni]. rewrite finish_of_lookup by done.
      f_equal. by apply bool_decide_eq_false.
    + intros Hf. pose proof (lookup_lt_Some _ _ _ Hf) as Hi.
      rewrite length_finish_of in Hi. split; [done|].
      rewrite finish_of_lookup in Hf by done.
      injection Hf as Hf. by apply bool_decide_eq_false in Hf.
  - rewrite bool_decide_eq_true. unfold_leibniz.
    rewrite <- size_non_empty_iff. lia.
  - rewrite bool_decide_eq_true, count_true_finish_of by done. lia.
Qed.

Lemma valid_scenario_A : valid scenario_A.
Proof. apply post_init_Ok. vm_compute. reflexivity. Qed.

Lemma valid_scenario_B : valid scenario_B.
Proof. apply post_init_Ok. vm_compute. reflexivity. Qed.

Lemma matrix_result_matches_finish_witness :
  ∃ r, detect_deadlock_matrix scenario_A = Ok r ∧
    length (finish r) = n scenario_A ∧
    (∀ i, i ∈ deadlocked_processes r ↔ finish r !! i = Some false) ∧
    (deadlocked r = true ↔ deadlocked_processes r ≠ ∅) ∧
    (deadlocked r = true ↔ (count_true (finish r) < n scenario_A)%nat).
Proof.
  apply (matrix_result_matches_finish scenario_A).
  apply post_init_Ok. vm_compute. reflexivity.
Defined.

(** C10. On every valid state the [execution_order] of the Matrix Detector
    has no duplicates, holds exactly the ids whose [finish] entry is true,
    and its length plus the size of [deadlocked_processes] is [n]. *)
Theorem execution_order_partitions (s : SystemState) :
  valid s →
  ∃ r, detect_deadlock_matrix s = Ok r ∧
    NoDup (execution_order r) ∧
    (∀ i, i ∈ execution_order r ↔ finish r !! i = Some true) ∧
    (∀ i, i ∈ execution_order r → i ∉ deadlocked_processes r) ∧
    (length (execution_order r) + size (deadlocked_processes r) = n s)%nat.
Proof.
  intros Hdim%valid_dimensions.
  destruct (detect_deadlock_matrix_spec s Hdim)
    as (order & tr & Hr & Hnd & Hlf & Hex).
  eexists. split; [exact Hr|]. simpl. split_and!.
  - done.
  - intros i. split.
    + intros Hi. rewrite finish_of_lookup by by eapply lowest_first_lt.
      f_equal. by apply bool_decide_eq_true.
    + intros Hf. pose proof (lookup_lt_Some _ _ _ Hf) as Hi.
      rewrite length_finish_of in Hi.
      rewrite finish_of_lookup in Hf by done.
      injection Hf as Hf. by apply bool_decide_eq_true in Hf.
  - intros i Hi [_ Hni]%elem_of_unfinished. done.
  - by apply size_unfinished.
Qed.

Lemma execution_order_partitions_witness :
  ∃ r, detect_deadlock_matrix scenario_B = Ok r ∧
    NoDup (execution_order r) ∧
    (∀ i, i ∈ execution_order r ↔ finish r !! i = Some true) ∧
    (∀ i, i ∈ execution_order r → i ∉ deadlocked_processes r) ∧
    (length (execution_order r) + size (deadlocked_processes r)
     = n scenario_B)%nat.
Proof.
  apply (execution_order_partitions scenario_B).
  apply post_init_Ok. vm_compute. reflexivity.
Defined.

Lemma lowest_first_take_eq s o1 o2 k :
  lowest_first s o1 → exhausted s o1 →
  lowest_first s o2 → exhausted s o2 →
  take k o1 = take k o2.
Proof.
  intros Hl1 He1 Hl2 He2. induction k as [|k IH]; [done|].
  destruct (o1 !! k) as [i1|] eqn:H1, (o2 !! k) as [i2|] eqn:H2.
  - rewrite (take_S_r _ _ _ H1), (take_S_r _ _ _ H2), IH. do 2 f_equal.
    destruct (Hl1 _ _ H1) as [Hel1 Hlow1], (Hl2 _ _ H2) as [Hel2 Hlow2].
    rewrite IH in Hel1, Hlow1.
    destruct (lt_eq_lt_dec i1 i2) as [[Hlt| ->]|Hlt]; [|done|].
    + by destruct (Hlow2 i1 Hlt).
    + by destruct (Hlow1 i2 Hlt).
  - destruct (Hl1 _ _ H1) as [Hel1 _]. rewrite IH in Hel1.
    apply lookup_ge_None in H2. rewrite take_ge in Hel1 by lia.
    by destruct (He2 i1).
  - destruct (Hl2 _ _ H2) as [Hel2 _]. rewrite <- IH in Hel2.
    apply lookup_ge_None in H1. rewrite take_ge in Hel2 by lia.
    by destruct (He1 i2).
  - apply lookup_ge_None in H1, H2.
    rewrite !take_ge in IH by lia. by rewrite !take_ge by lia.
Qed.

Lemma lowest_first_unique s o1 o2 :
  lowest_first s o1 → exhausted s o1 →
  lowest_first s o2 → exhausted s o2 →
  o1 = o2.
Proof.
  intros Hl1 He1 Hl2 He2.
  pose proof (lowest_first_take_eq s o1 o2 (length o1 `max` length o2)
                Hl1 He1 Hl2 He2) as Heq.
  by rewrite !take_ge in Heq by lia.
Qed.

(** C3. On every valid state the Matrix Detector returns, and its
    [execution_order] is the sequence of rounds of the specification: the
    entry of round [k] is the lowest id that is unfinished and whose request
    fits, component-wise, in [available] plus the allocations of the entries
    before it (every round looks at all ids from 0), [finish] marks exactly
    these entries, and no id is eligible after the last round.  Only one
    sequence has this property, so any two runs on the state give the same
    [execution_order], and the same [trace]. *)
Theorem matrix_rounds_lowest_id_first (s : SystemState) :
  valid s →
  ∃ r, detect_deadlock_matrix s = Ok r ∧
    lowest_first s (execution_order r) ∧
    exhausted s (execution_order r) ∧
    finish r = finish_of (n s) (execution_order r) ∧
    (∀ order, lowest_first s order → exhausted s order →
       order = execution_order r) ∧
    (∀ r', detect_deadlock_matrix s = Ok r' →
       execution_order r' = execution_order r ∧ trace r' = trace r).
Proof.
  intros Hdim%valid_dimensions.
  destruct (detect_deadlock_matrix_spec s Hdim)
    as (order & tr & Hr & Hnd & Hlf & Hex).
  eexists. split; [exact Hr|]. simpl. split_and!; [done..| |].
  - intros order' Hlf' Hex'. by apply (lowest_first_unique s).
  - intros r' Hr'. rewrite Hr in Hr'. by injection Hr' as <-.
Qed.

Lemma matrix_rounds_lowest_id_first_witness :
  ∃ r, detect_deadlock_matrix scenario_B = Ok r ∧
    lowest_first scenario_B (execution_order r) ∧
    exhausted scenario_B (execution_order r) ∧
    finish r = finish_of (n scenario_B) (execution_order r) ∧
    (∀ order, lowest_first scenario_B order → exhausted scenario_B order →
       order = execution_order r) ∧
    (∀ r', detect_deadlock_matrix scenario_B = Ok r' →
       execution_order r' = execution_order r ∧ trace r' = trace r).
Proof.
  apply (matrix_rounds_lowest_id_first scenario_B).
  apply post_init_Ok. vm_compute. reflexivity.
Defined.

(** ** Sums of allocations *)

Lemma sum_over_nil f : sum_over f [] = 0.
Proof. done. Qed.

Lemma sum_over_cons f x l : sum_over f (x :: l) = f x + sum_over f l.
Proof. done. Qed.

Lemma sum_over_app f l1 l2 : sum_over f (l1 ++ l2) = sum_over f l1 + sum_over f l2.
Proof.
  induction l1 as [|x l1 IH]; [by rewrite sum_over_nil|].
  rewrite <- app_comm_cons, !sum_over_cons, IH. lia.
Qed.

Lemma sum_over_perm f l1 l2 : l1 ≡ₚ l2 → sum_over f l1 = sum_over f l2.
Proof.
  induction 1 as [|x l l' _ IH|x y l|l l' l'' _ IH1 _ IH2];
    rewrite ?sum_over_cons; [done|by rewrite IH|lia|by rewrite IH1].
Qed.

Lemma sum_over_nonneg f l : (∀ x, 0 ≤ f x) → 0 ≤ sum_over f l.
Proof.
  intros Hf. induction l as [|x l IH]; [by rewrite sum_over_nil|].
  rewrite sum_over_cons. specialize (Hf x). lia.
Qed.

Lemma sum_over_submseteq f l1 l2 :
  (∀ x, 0 ≤ f x) → l1 ⊆+ l2 → sum_over f l1 ≤ sum_over f l2.
Proof.
  intros Hf [k Hk]%submseteq_Permutation.
  rewrite (sum_over_perm f _ _ Hk), sum_over_app.
  pose proof (sum_over_nonneg f k Hf). lia.
Qed.

Lemma sum_over_fmap f (g : nat → nat) l :
  sum_over f (g <$> l) = sum_over (f ∘ g) l.
Proof. unfold sum_over. by rewrite <- list_fmap_compose. Qed.

Lemma sum_over_ext f g l :
  (∀ x, x ∈ l → f x = g x) → sum_over f l = sum_over g l.
Proof.
  intros Hfg. unfold sum_over. f_equal. apply list_fmap_ext.
  intros i x Hx. apply Hfg. by eapply list_elem_of_lookup_2.
Qed.

Lemma column_sum_sum_over s j :
  column_sum (allocation s) j
  = sum_over (λ i, entry (alloc_row s i) j) (seq 0 (length (allocation s))).
Proof.
  unfold column_sum, sum_over. f_equal.
  apply list_eq. intros i. rewrite !list_lookup_fmap.
  destruct (decide (i < length (allocation s))%nat) as [Hi|Hi].
  - rewrite lookup_seq_lt by done. simpl. unfold alloc_row.
    apply lookup_lt_is_Some in Hi as [row ->]. done.
  - rewrite lookup_seq_ge by lia. by rewrite lookup_ge_None_2 by lia.
Qed.

Lemma entry_work_after s done j :
  inv_dimensions s → (∀ i, i ∈ done → (i < n s)%nat) → (j < m s)%nat →
  entry (work_after s done) j
  = entry (available s) j + sum_over (λ i, entry (alloc_row s i) j) done.
Proof.
  intros Hdim. induction done as [|i done IH] using rev_ind; intros Hlt Hj.
  - rewrite sum_over_nil. unfold work_after. simpl. lia.
  - rewrite work_after_snoc, entry_vector_add.
    + rewrite IH by set_solver.
      rewrite sum_over_app, sum_over_cons, sum_over_nil. lia.
    + rewrite length_work_after; [done..|set_solver].
    + destruct (alloc_row_lookup s Hdim i) as [_ ->]; [set_solver|done].
Qed.

(** ** The reduced state of [can_system_recover] *)

Lemma foldM_Ok {A S} (f : S → A → outcome S) (g : S → A → S) (a : S) (l : list A) :
  (∀ a x, x ∈ l → f a x = Ok (g a x)) → foldM f a l = Ok (foldl g a l).
Proof.
  revert a. induction l as [|x l IH]; intros a Hf; simpl; [done|].
  rewrite Hf by set_solver. simpl. apply IH. intros. apply Hf. set_solver.
Qed.

Lemma mapM_py_index_total {A} (l : list A) (ids : list nat) :
  (∀ i, i ∈ ids → (i < length l)%nat) →
  ∃ rows, mapM (py_index l) ids = Ok rows ∧ length rows = length ids.
Proof.
  induction ids as [|i ids IH]; intros Hlt; simpl; [by exists []|].
  destruct (lookup_lt_is_Some_2 l i) as [x Hx]; [apply Hlt; set_solver|].
  rewrite (py_index_lookup _ _ _ Hx). simpl.
  destruct IH as (rows & -> & Hlen); [intros; apply Hlt; set_solver|].
  simpl. exists (x :: rows). simpl. by rewrite Hlen.
Qed.

Section Reduced.
Context `{SetOrder}.
Variable s : SystemState.
Variable T : gset nat.
Hypothesis Hvalid : valid s.
Hypothesis HT : ∀ i, i ∈ T → (i < n s)%nat.

Let Hdim : inv_dimensions s := valid_dimensions s Hvalid.

Lemma set_iter_elem i : i ∈ set_iter T ↔ i ∈ T.
Proof. rewrite set_iter_perm. apply elem_of_elements. Qed.

Lemma set_iter_NoDup : NoDup (set_iter T).
Proof. rewrite set_iter_perm. apply NoDup_elements. Qed.

Lemma released_available_spec :
  released_available s T = Ok (work_after s (set_iter T)).
Proof.
  unfold released_available, work_after. apply foldM_Ok.
  intros a i Hi%set_iter_elem%HT.
  destruct (alloc_row_lookup s Hdim i Hi) as [Ha _].
  by rewrite (py_index_lookup _ _ _ Ha).
Qed.

Lemma elem_of_remaining_pids i :
  i ∈ remaining_pids s T ↔ (i < n s)%nat ∧ i ∉ T.
Proof.
  unfold remaining_pids. rewrite list_elem_of_filter, elem_of_range. tauto.
Qed.

Lemma NoDup_remaining_pids : NoDup (remaining_pids s T).
Proof. apply NoDup_filter, NoDup_seq. Qed.

Lemma range_split : range (n s) ≡ₚ remaining_pids s T ++ set_iter T.
Proof.
  rewrite <- (filter_app_complement (λ i, i ∈ T) (range (n s))).
  rewrite (comm (++)). apply Permutation_app; [done|].
  apply NoDup_Permutation.
  - apply NoDup_filter, NoDup_seq.
  - apply set_iter_NoDup.
  - intros i. rewrite list_elem_of_filter, elem_of_range, set_iter_elem.
    split; [tauto|]. intros Hi. split; [done|]. by apply HT.
Qed.

Lemma reduced_state_spec :
  ∃ ps, length ps = length (remaining_pids s T) ∧
    reduced_state s (work_after s (set_iter T)) (remaining_pids s T)
    = new_SystemState ps (resource_types s) (work_after s (set_iter T))
        (alloc_row s <$> remaining_pids s T)
        (req_row s <$> remaining_pids s T).
Proof.
  unfold reduced_state.
  destruct (mapM_py_index_total (processes s) (remaining_pids s T))
    as (ps & -> & Hlen).
  { by intros i [Hi _]%elem_of_remaining_pids. }
  exists ps. split; [done|]. simpl.
  rewrite (mapM_Ok_fmap (py_index (allocation s)) (alloc_row s)).
  2:{ intros i [Hi _]%elem_of_remaining_pids. apply py_index_lookup.
      by destruct (alloc_row_lookup s Hdim i Hi). }
  simpl. rewrite (mapM_Ok_fmap (py_index (request s)) (req_row s)).
  2:{ intros i [Hi _]%elem_of_remaining_pids. apply py_index_lookup.
      by destruct (req_row_lookup s Hdim i Hi). }
  done.
Qed.

Lemma entry_nonneg (row : list Z) j : Forall (λ v, 0 ≤ v) row → 0 ≤ entry row j.
Proof.
  intros Hall. unfold entry. destruct (row !! j) as [v|] eqn:Hv; simpl; [|lia].
  rewrite Forall_lookup in Hall. eauto.
Qed.

Lemma alloc_row_nonneg i : Forall (λ v, 0 ≤ v) (alloc_row s i).
Proof.
  pose proof Hvalid as (_ & (_ & Hal & _) & _). unfold alloc_row.
  destruct (allocation s !! i) as [row|] eqn:Hrow; simpl; [|constructor].
  rewrite Forall_lookup in Hal. eauto.
Qed.

Lemma req_row_nonneg i : Forall (λ v, 0 ≤ v) (req_row s i).
Proof.
  pose proof Hvalid as (_ & (_ & _ & Hrq) & _). unfold req_row.
  destruct (request s !! i) as [row|] eqn:Hrow; simpl; [|constructor].
  rewrite Forall_lookup in Hrq. eauto.
Qed.

Lemma work_after_nonneg done :
  (∀ i, i ∈ done → (i < n s)%nat) → Forall (λ v, 0 ≤ v) (work_after s done).
Proof.
  intros Hlt. rewrite Forall_lookup. intros j v Hv.
  rewrite <- (entry_lookup _ _ _ Hv).
  apply lookup_lt_Some in Hv. rewrite length_work_after in Hv by done.
  rewrite entry_work_after by done.
  pose proof Hvalid as (_ & (Hav & _) & _).
  pose proof (entry_nonneg _ j Hav).
  assert (0 ≤ sum_over (λ i, entry (alloc_row s i) j) done) as Hsum.
  { apply sum_over_nonneg. intros i. apply entry_nonneg, alloc_row_nonneg. }
  lia.
Qed.

Lemma reduced_valid ps :
  length ps = length (remaining_pids s T) →
  valid (mkSystemState ps (resource_types s) (work_after s (set_iter T))
           (alloc_row s <$> remaining_pids s T)
           (req_row s <$> remaining_pids s T)).
Proof.
  intros Hlen.
  assert (∀ i, i ∈ set_iter T → (i < n s)%nat) as HT'.
  { intros i Hi%set_iter_elem. by apply HT. }
  split_and!.
  - unfold inv_dimensions, n, m. simpl. rewrite !length_fmap.
    split_and!; [by apply length_work_after|done| |done|].
    + apply Forall_fmap, Forall_forall.
      intros i [Hi _]%elem_of_remaining_pids. simpl.
      by destruct (alloc_row_lookup s Hdim i Hi).
    + apply Forall_fmap, Forall_forall.
      intros i [Hi _]%elem_of_remaining_pids. simpl.
      by destruct (req_row_lookup s Hdim i Hi).
  - unfold inv_nonneg. simpl. split_and!.
    + by apply work_after_nonneg.
    + apply Forall_fmap, Forall_forall. intros i _. apply alloc_row_nonneg.
    + apply Forall_fmap, Forall_forall. intros i _. apply req_row_nonneg.
  - unfold inv_conservation. simpl. intros j rt Hrt.
    pose proof Hvalid as (_ & _ & Hcons & _). rewrite <- (Hcons j rt Hrt).
    pose proof (lookup_lt_Some _ _ _ Hrt) as Hj.
    rewrite entry_work_after by done.
    rewrite column_sum_sum_over.
    pose proof Hdim as (_ & [Hal _] & _). rewrite Hal. fold (range (n s)).
    rewrite (sum_over_perm _ _ _ range_split), sum_over_app.
    unfold column_sum. rewrite <- list_fmap_compose.
    fold (sum_over ((λ row, entry row j) ∘ alloc_row s) (remaining_pids s T)).
    unfold compose. lia.
  - unfold inv_bounded. simpl. intros i j row rt Hrow Hrt.
    apply list_lookup_fmap_Some in Hrow as (i' & -> & Hi').
    apply list_elem_of_lookup_2, elem_of_remaining_pids in Hi' as [Hi' _].
    pose proof Hvalid as (_ & _ & _ & Hb).
    destruct (req_row_lookup s Hdim i' Hi') as [Hr _]. eauto.
Qed.

End Reduced.

Lemma valid_scenario_C : valid scenario_C.
Proof. apply post_init_Ok. vm_compute. reflexivity. Qed.

(** C9. For a valid state and a set of terminated ids within [0..n-1] that
    leaves some process, [can_system_recover] reaches the construction of
    the reduced state and that construction returns: the reduced state has
    the rows of the remaining processes, the same resource types, the
    released allocations added to [available], and satisfies the four
    construction invariants. *)
Theorem reduced_state_construction_succeeds `{SetOrder}
    (s : SystemState) (T : gset nat) :
  valid s →
  (∀ i, i ∈ T → (i < n s)%nat) →
  (∃ i, (i < n s)%nat ∧ i ∉ T) →
  ∃ new_available reduced,
    released_available s T = Ok new_available ∧
    remaining_pids s T ≠ [] ∧
    reduced_state s new_available (remaining_pids s T) = Ok reduced ∧
    valid reduced ∧
    resource_types reduced = resource_types s ∧
    available reduced = new_available ∧
    (∀ j, (j < m s)%nat →
       entry new_available j
       = entry (available s) j
         + sum_over (λ i, entry (alloc_row s i) j) (elements T)) ∧
    allocation reduced = alloc_row s <$> remaining_pids s T ∧
    request reduced = req_row s <$> remaining_pids s T.
Proof.
  intros Hvalid HT (i0 & Hi0 & Hni0).
  exists (work_after s (set_iter T)).
  destruct (reduced_state_spec s T Hvalid) as (ps & Hlen & Hred).
  pose proof (reduced_valid s T Hvalid HT ps Hlen) as Hv.
  eexists. split_and!.
  - by apply released_available_spec.
  - intros Hnil.
    assert (i0 ∈ remaining_pids s T) as Hin by by apply elem_of_remaining_pids.
    rewrite Hnil in Hin. by apply not_elem_of_nil in Hin.
  - rewrite Hred. unfold new_SystemState.
    apply post_init_Ok in Hv. rewrite Hv. reflexivity.
  - done.
  - done.
  - done.
  - intros j Hj. rewrite entry_work_after.
    + by rewrite (sum_over_perm _ _ _ (set_iter_perm T)).
    + by apply valid_dimensions.
    + intros i Hi%set_iter_elem. by apply HT.
    + done.
  - done.
  - done.
Qed.

Lemma reduced_state_construction_succeeds_witness :
  ∃ new_available reduced,
    @released_available ascending_order scenario_C ({[0%nat]} : gset nat) = Ok new_available ∧
    remaining_pids scenario_C ({[0%nat]} : gset nat) ≠ [] ∧
    reduced_state scenario_C new_available (remaining_pids scenario_C ({[0%nat]} : gset nat))
    = Ok reduced ∧
    valid reduced ∧
    resource_types reduced = resource_types scenario_C ∧
    available reduced = new_available ∧
    (∀ j, (j < m scenario_C)%nat →
       entry new_available j
       = entry (available scenario_C) j
         + sum_over (λ i, entry (alloc_row scenario_C i) j) (elements ({[0%nat]} : gset nat))) ∧
    allocation reduced = alloc_row scenario_C <$> remaining_pids scenario_C ({[0%nat]} : gset nat) ∧
    request reduced = req_row scenario_C <$> remaining_pids scenario_C ({[0%nat]} : gset nat).
Proof.
  apply (@reduced_state_construction_succeeds ascending_order scenario_C ({[0%nat]} : gset nat)).
  - apply post_init_Ok. vm_compute. reflexivity.
  - intros i Hi. apply elem_of_singleton in Hi as ->. vm_compute. lia.
  - exists 1%nat. split; [vm_compute; lia|].
    intros Hi. apply elem_of_singleton in Hi. lia.
Defined.

(** ** Recovery by terminating the unfinished processes *)

Section RecoverUnfinished.
Context `{SetOrder}.
Variable s : SystemState.
Variable order : list nat.
Hypothesis Hvalid : valid s.
Hypothesis Hnd : NoDup order.
Hypothesis Hlf : lowest_first s order.

Let T : gset nat := unfinished s order.
Let rem : list nat := remaining_pids s T.

Variable ps : list Process.
Hypothesis Hps : length ps = length rem.

Let red : SystemState :=
  mkSystemState ps (resource_types s) (work_after s (set_iter T))
    (alloc_row s <$> rem) (req_row s <$> rem).

Variable order' : list nat.
Hypothesis Hnd' : NoDup order'.
Hypothesis Hlf' : lowest_first red order'.
Hypothesis Hex' : exhausted red order'.

Lemma unfinished_lt i : i ∈ T → (i < n s)%nat.
Proof. by intros [? _]%elem_of_unfinished. Qed.

Lemma elem_of_rem i : i ∈ rem ↔ i ∈ order.
Proof.
  unfold rem. rewrite elem_of_remaining_pids. unfold T.
  rewrite elem_of_unfinished. split.
  - intros [Hi Hn]. destruct (decide (i ∈ order)); [done|]. by destruct Hn.
  - intros Hi. split; [by eapply lowest_first_lt|]. by intros [_ ?].
Qed.

Lemma red_valid : valid red.
Proof. apply reduced_valid; [done|apply unfinished_lt|done]. Qed.

Lemma red_alloc_row p e : rem !! p = Some e → alloc_row red p = alloc_row s e.
Proof.
  intros Hp. unfold alloc_row at 1. simpl.
  by rewrite list_lookup_fmap, Hp.
Qed.

Lemma red_req_row p e : rem !! p = Some e → req_row red p = req_row s e.
Proof.
  intros Hp. unfold req_row at 1. simpl.
  by rewrite list_lookup_fmap, Hp.
Qed.

Lemma order'_lt p : p ∈ order' → (p < length rem)%nat.
Proof.
  intros Hp. rewrite <- Hps. by apply (lowest_first_lt red order').
Qed.

(** Every process of [order] is finished again in the reduced state. *)
Lemma finished_again k :
  ∀ e p, order !! k = Some e → rem !! p = Some e → p ∈ order'.
Proof.
  induction k as [k IH] using lt_wf_ind. intros e p Hk Hp.
  destruct (decide (p ∈ order')) as [|Hnp]; [done|].
  destruct (Hex' p). split_and!.
  - unfold n. simpl. rewrite Hps. by eapply lookup_lt_Some.
  - done.
  - intros j Hj. change (m red) with (m s) in Hj.
    rewrite (red_req_row p e Hp).
    destruct (Hlf k e Hk) as [(_ & _ & Hle) _].
    etrans; [by apply Hle|].
    pose proof (valid_dimensions _ Hvalid) as Hdim.
    rewrite entry_work_after; [|done| |done].
    2:{ intros i Hi%elem_of_take. destruct Hi as (k' & Hk' & _).
        eapply lowest_first_lt; [done|]. by eapply list_elem_of_lookup_2. }
    rewrite (entry_work_after red); [|apply valid_dimensions, red_valid| |done].
    2:{ intros i Hi. by apply (lowest_first_lt red order'). }
    simpl.
    rewrite entry_work_after; [|done| |done].
    2:{ intros i Hi%set_iter_elem. by apply unfinished_lt. }
    assert (0 ≤ sum_over (λ i, entry (alloc_row s i) j) (set_iter T)) as Hrel.
    { apply sum_over_nonneg. intros i. by apply entry_nonneg, alloc_row_nonneg. }
    assert (sum_over (λ i, entry (alloc_row s i) j) (take k order)
            ≤ sum_over (λ i, entry (alloc_row red i) j) order'); [|lia].
    rewrite (sum_over_ext (λ i, entry (alloc_row red i) j)
               ((λ i, entry (alloc_row s i) j) ∘ (λ q, default 0%nat (rem !! q)))).
    2:{ intros q Hq%order'_lt. apply lookup_lt_is_Some in Hq as [e' He'].
        simpl. by rewrite (red_alloc_row q e' He'), He'. }
    rewrite <- sum_over_fmap. apply sum_over_submseteq.
    { intros i. by apply entry_nonneg, alloc_row_nonneg. }
    apply NoDup_submseteq; [by eapply sublist_NoDup, sublist_take|].
    intros x Hx%elem_of_take. destruct Hx as (k' & Hk' & Hlt).
    assert (x ∈ rem) as [q Hq]%list_elem_of_lookup.
    { apply elem_of_rem. by eapply list_elem_of_lookup_2. }
    apply list_elem_of_fmap. exists q. rewrite Hq. split; [done|].
    by apply (IH k' Hlt x q).
Qed.

Lemma reduced_none_unfinished : unfinished red order' = ∅.
Proof.
  apply set_eq. intros p. rewrite elem_of_unfinished. split; [|set_solver].
  intros [Hp Hnp]. unfold n in Hp. simpl in Hp. rewrite Hps in Hp.
  apply lookup_lt_is_Some in Hp as [e He].
  assert (e ∈ order) as [k Hk]%list_elem_of_lookup.
  { apply elem_of_rem. by eapply list_elem_of_lookup_2. }
  destruct Hnp. by apply (finished_again k e p).
Qed.

End RecoverUnfinished.

Lemma new_SystemState_Ok ps rts av al rq :
  valid (mkSystemState ps rts av al rq) →
  new_SystemState ps rts av al rq = Ok (mkSystemState ps rts av al rq).
Proof.
  intros Hv%post_init_Ok. unfold new_SystemState. by rewrite Hv.
Qed.

(** [can_system_recover] returns on a valid state and ids in range, and
    answers whether the reduced state has no unfinished process. *)
Lemma can_system_recover_cases `{SetOrder} s (T : gset nat) :
  valid s → (∀ i, i ∈ T → (i < n s)%nat) →
  (remaining_pids s T = [] ∧ ∃ tr, can_system_recover s T = Ok (true, tr)) ∨
  (remaining_pids s T ≠ [] ∧
   ∃ ps order' tr,
     let red := mkSystemState ps (resource_types s) (work_after s (set_iter T))
                  (alloc_row s <$> remaining_pids s T)
                  (req_row s <$> remaining_pids s T) in
     length ps = length (remaining_pids s T) ∧
     NoDup order' ∧ lowest_first red order' ∧ exhausted red order' ∧
     can_system_recover s T
     = Ok (bool_decide (unfinished red order' = ∅), tr)).
Proof.
  intros Hvalid HT. unfold can_system_recover.
  rewrite (released_available_spec s T Hvalid HT). simpl.
  destruct (remaining_pids s T) as [|i0 rem0] eqn:Hrem; [left; eauto|].
  right. split; [done|]. rewrite <- Hrem.
  destruct (reduced_state_spec s T Hvalid) as (ps & Hlen & ->).
  pose proof (reduced_valid s T Hvalid HT ps Hlen) as Hv.
  rewrite (new_SystemState_Ok _ _ _ _ _ Hv). simpl.
  destruct (detect_deadlock_matrix_spec _ (valid_dimensions _ Hv))
    as (order' & tr' & -> & Hnd' & Hlf' & Hex').
  simpl. exists ps, order'.
  set (red := mkSystemState ps _ _ _ _) in *.
  case_bool_decide as Hsize; simpl.
  - eexists. split_and!; [done..|].
    rewrite bool_decide_eq_false_2; [done|].
    intros Hempty. rewrite Hempty, size_empty in Hsize. lia.
  - rewrite (mapM_Ok_fmap _
      (λ i, P (default 0%nat (remaining_pids s T !! i)))).
    2:{ intros i Hi. cbv beta.
        assert (i < length (remaining_pids s T))%nat as Hlt.
        { rewrite <- Hlen. by apply (lowest_first_lt red order'). }
        apply lookup_lt_is_Some in Hlt as [e He].
        by rewrite (py_index_lookup _ _ _ He), He. }
    simpl. eexists. split_and!; [done..|].
    rewrite bool_decide_eq_true_2; [done|].
    apply leibniz_equiv, size_empty_iff. lia.
Qed.

(** C4. On every valid state the Matrix Detector returns, and when it
    reports a deadlock, [can_system_recover] on its set of deadlocked
    processes returns true. *)
Theorem recovery_by_terminating_deadlocked `{SetOrder} (s : SystemState) :
  valid s →
  ∃ r, detect_deadlock_matrix s = Ok r ∧
    (deadlocked r = true →
     ∃ tr, can_system_recover s (deadlocked_processes r) = Ok (true, tr)).
Proof.
  intros Hvalid.
  destruct (detect_deadlock_matrix_spec s (valid_dimensions _ Hvalid))
    as (order & tr & Hr & Hnd & Hlf & Hex).
  eexists. split; [exact Hr|]. simpl. intros _.
  destruct (can_system_recover_cases s (unfinished s order) Hvalid)
    as [[_ Htrue]|(_ & ps & order' & tr' & Hlen & Hnd' & Hlf' & Hex' & Hres)].
  - by intros i [? _]%elem_of_unfinished.
  - done.
  - exists tr'. rewrite Hres. do 2 f_equal.
    apply bool_decide_eq_true_2.
    by apply (reduced_none_unfinished s order Hvalid Hnd Hlf ps Hlen order').
Qed.

Lemma recovery_by_terminating_deadlocked_witness :
  ∃ r, detect_deadlock_matrix scenario_C = Ok r ∧
    (deadlocked r = true →
     ∃ tr, @can_system_recover ascending_order scenario_C
             (deadlocked_processes r) = Ok (true, tr)).
Proof.
  apply (@recovery_by_terminating_deadlocked ascending_order scenario_C).
  apply post_init_Ok. vm_compute. reflexivity.
Defined.

(** ** Combinations *)

Lemma elem_of_combinations {A} (l c : list A) (k : nat) :
  c ∈ combinations l k ↔ c `sublist_of` l ∧ length c = k.
Proof.
  revert c k. induction l as [|x l IH]; intros c k.
  - destruct k as [|k]; simpl.
    + rewrite list_elem_of_singleton. split.
      * intros ->. split; [constructor|done].
      * intros [_ Hlen]. by apply nil_length_inv.
    + split; [by intros ?%not_elem_of_nil|].
      intros [Hsub%sublist_nil_r Hlen]. by subst.
  - destruct k as [|k]; simpl.
    + rewrite list_elem_of_singleton. split.
      * intros ->. split; [apply sublist_nil_l|done].
      * intros [_ Hlen]. by apply nil_length_inv.
    + rewrite elem_of_app, list_elem_of_fmap. setoid_rewrite IH. split.
      * intros [(c' & -> & Hsub & Hlen)|[Hsub Hlen]].
        -- split; [by apply sublist_skip|simpl; by rewrite Hlen].
        -- split; [by apply sublist_cons|done].
      * intros [Hsub Hlen]. apply sublist_cons_r in Hsub as [Hsub|(c' & -> & Hsub)].
        -- by right.
        -- left. exists c'. simpl in Hlen. split_and!; [done..|lia].
Qed.

Lemma NoDup_sorted (D : gset nat) : NoDup (sorted D).
Proof. unfold sorted. rewrite merge_sort_Permutation. apply NoDup_elements. Qed.

Lemma length_sorted (D : gset nat) : length (sorted D) = size D.
Proof. unfold sorted. by rewrite merge_sort_Permutation. Qed.

(** The combinations of the sorted ids of [D] are its subsets. *)
Lemma combination_subset (D : gset nat) (c : list nat) (k : nat) :
  c ∈ combinations (sorted D) k →
  (list_to_set c : gset nat) ⊆ D ∧ size (list_to_set c : gset nat) = k.
Proof.
  intros [Hsub Hlen]%elem_of_combinations. split.
  - intros x Hx%elem_of_list_to_set.
    apply elem_of_sorted. by eapply elem_of_sublist.
  - rewrite size_list_to_set; [done|].
    eapply sublist_NoDup; [apply NoDup_sorted|done].
Qed.

Lemma subset_combination (D T : gset nat) :
  T ⊆ D →
  ∃ c, c ∈ combinations (sorted D) (size T) ∧ list_to_set c = T.
Proof.
  intros HTD. exists (filter (λ i, i ∈ T) (sorted D)).
  assert (filter (λ i, i ∈ T) (sorted D) ≡ₚ elements T) as Hperm.
  { apply NoDup_Permutation.
    - apply NoDup_filter, NoDup_sorted.
    - apply NoDup_elements.
    - intros i. rewrite list_elem_of_filter, elem_of_sorted, elem_of_elements.
      set_solver. }
  split.
  - apply elem_of_combinations. split; [apply sublist_filter|].
    by rewrite Hperm.
  - apply set_eq. intros i. rewrite elem_of_list_to_set, Hperm.
    apply elem_of_elements.
Qed.

(** ** The search for minimal termination sets *)

Section Search.
Context `{SetOrder}.
Variable s : SystemState.
Hypothesis Hvalid : valid s.

Lemma can_system_recover_total (T : gset nat) :
  (∀ i, i ∈ T → (i < n s)%nat) →
  ∃ tr, can_system_recover s T = Ok (recovers s T, tr).
Proof.
  intros HT. unfold recovers.
  destruct (can_system_recover_cases s T Hvalid HT)
    as [[_ [tr ->]]|(_ & ps & order' & tr & _ & _ & _ & _ & ->)]; [by eexists|].
  exists tr. by destruct (bool_decide _).
Qed.

Lemma try_subset_spec (acc : list Recovery.RecoverySuggestion) (c : list nat) :
  (∀ i, i ∈ c → (i < n s)%nat) →
  ∃ new, Recovery.try_subset s acc c = Ok (acc ++ new) ∧
    Recovery.processes <$> new
    = if recovers s (list_to_set c) then [list_to_set c] else [].
Proof.
  intros Hc. unfold Recovery.try_subset.
  destruct (can_system_recover_total (list_to_set c)) as [tr ->].
  { intros i Hi%elem_of_list_to_set. by apply Hc. }
  simpl. destruct (recovers s (list_to_set c)).
  - eexists [_]. split; [reflexivity|done].
  - exists []. by rewrite app_nil_r.
Qed.

Lemma try_all_spec (acc : list Recovery.RecoverySuggestion)
    (combos : list (list nat)) :
  (∀ c i, c ∈ combos → i ∈ c → (i < n s)%nat) →
  ∃ new, foldM (Recovery.try_subset s) acc combos = Ok (acc ++ new) ∧
    Recovery.processes <$> new
    = list_to_set <$> filter (λ c, recovers s (list_to_set c) = true) combos.
Proof.
  revert acc. induction combos as [|c combos IH]; intros acc Hc; simpl.
  - exists []. by rewrite app_nil_r.
  - destruct (try_subset_spec acc c) as (new1 & -> & Hnew1).
    { intros i. apply Hc. set_solver. }
    simpl. destruct (IH (acc ++ new1)) as (new2 & -> & Hnew2).
    { intros c' i Hc'. apply Hc. set_solver. }
    exists (new1 ++ new2). split; [by rewrite app_assoc|].
    rewrite fmap_app, Hnew1, Hnew2, filter_cons.
    destruct (recovers s (list_to_set c)); by case_decide.
Qed.

(** The ids of [D] that recover at size [k], in combination order. *)
Lemma try_sizes_spec (D : gset nat) (a b : nat) :
  (∀ i, i ∈ D → (i < n s)%nat) →
  ∃ sugg, Recovery.try_sizes s (sorted D) (seq a b) [] = Ok sugg ∧
    ((sugg = [] ∧
      ∀ k c, (a ≤ k < a + b)%nat → c ∈ combinations (sorted D) k →
             recovers s (list_to_set c) = false) ∨
     (sugg ≠ [] ∧ ∃ k, (a ≤ k < a + b)%nat ∧
        Recovery.processes <$> sugg
        = list_to_set <$> filter (λ c, recovers s (list_to_set c) = true)
                            (combinations (sorted D) k) ∧
        ∀ k' c, (a ≤ k' < k)%nat → c ∈ combinations (sorted D) k' →
                recovers s (list_to_set c) = false)).
Proof.
  intros HD. revert a. induction b as [|b IH]; intros a; simpl.
  - exists []. split; [done|]. left. split; [done|]. intros; lia.
  - destruct (try_all_spec [] (combinations (sorted D) a)) as (new & -> & Hnew).
    { intros c i [Hsub _]%elem_of_combinations Hi.
      apply HD, elem_of_sorted. by eapply elem_of_sublist. }
    simpl. destruct new as [|x new].
    + destruct (IH (S a)) as (sugg & -> & Hcases).
      assert (∀ c, c ∈ combinations (sorted D) a →
                   recovers s (list_to_set c) = false) as Hnone.
      { intros c Hc. symmetry in Hnew. apply fmap_nil_inv in Hnew.
        destruct (recovers s (list_to_set c)) eqn:Hrec; [|done].
        assert (c ∈ filter (λ c, recovers s (list_to_set c) = true)
                      (combinations (sorted D) a)) as Hin
          by by apply list_elem_of_filter.
        rewrite Hnew in Hin. by apply not_elem_of_nil in Hin. }
      exists sugg. split; [done|].
      destruct Hcases as [[-> Hall]|(Hne & k & Hk & Hsets & Hbelow)].
      * left. split; [done|]. intros k c Hk Hc.
        destruct (decide (k = a)) as [->|]; [by apply Hnone|].
        apply (Hall k); [lia|done].
      * right. split; [done|]. exists k. split; [lia|]. split; [done|].
        intros k' c Hk' Hc.
        destruct (decide (k' = a)) as [->|]; [by apply Hnone|].
        apply (Hbelow k'); [lia|done].
    + exists (x :: new). split; [done|]. right. split; [done|].
      exists a. split; [lia|]. split; [done|]. intros; lia.
Qed.

End Search.

Lemma size_pos (X : gset nat) : X ≠ ∅ → (0 < size X)%nat.
Proof.
  intros HX. assert (size X ≠ 0%nat); [|lia].
  apply size_non_empty_iff. by unfold_leibniz.
Qed.

Lemma valid_free_instance : valid free_instance.
Proof. apply post_init_Ok. vm_compute. reflexivity. Qed.

(** C5, as stated, fails: on [free_instance] the Wait-For Graph Detector
    reports the ids 0 and 1, the search over that set returns suggestions
    of size 1, and yet the empty subset, of smaller size, recovers. *)
Lemma minimal_termination_sets_counterexample :
  valid free_instance ∧
  (∃ w, @Wfg.detect_deadlock_wfg (uniform_order ascending_order) default_stack
            free_instance = Ok w ∧
        Wfg.deadlocked w = true ∧
        Wfg.deadlocked_processes w = {[0%nat; 1%nat]}) ∧
  ∃ sugg,
    @Recovery.find_minimal_termination_set ascending_order free_instance
      {[0%nat; 1%nat]} = Ok sugg ∧
    Recovery.processes <$> sugg = [{[0%nat]}; {[1%nat]}] ∧
    (∅ : gset nat) ⊆ {[0%nat; 1%nat]} ∧
    @recovers ascending_order free_instance ∅ = true.
Proof.
  split; [apply valid_free_instance|]. split.
  - eexists. split; [vm_compute; reflexivity|]. split; [reflexivity|].
    apply (bool_decide_unpack _). by vm_compute.
  - eexists. split; [vm_compute; reflexivity|]. split_and!.
    + apply (bool_decide_unpack _). by vm_compute.
    + set_solver.
    + by vm_compute.
Qed.

(** C5, amended. For a valid state and a non-empty set [D] of ids in range,
    [find_minimal_termination_set] returns; either no non-empty subset of
    [D] recovers and the result is empty, or there is a size [k] between 1
    and the size of [D] such that the result lists, in the order of the
    combinations of the sorted ids, exactly the subsets of [D] of size [k]
    that recover, and no non-empty subset of [D] smaller than [k] recovers.
    The empty subset is not tried. *)
Theorem minimal_termination_sets `{SetOrder} (s : SystemState) (D : gset nat) :
  valid s → D ≠ ∅ → (∀ i, i ∈ D → (i < n s)%nat) →
  ∃ sugg, Recovery.find_minimal_termination_set s D = Ok sugg ∧
    ((sugg = [] ∧ ∀ T, T ⊆ D → T ≠ ∅ → recovers s T = false) ∨
     (∃ k, (1 ≤ k ≤ size D)%nat ∧ sugg ≠ [] ∧
        Recovery.processes <$> sugg
        = list_to_set <$> filter (λ c, recovers s (list_to_set c) = true)
                            (combinations (sorted D) k) ∧
        (∀ x, x ∈ sugg →
           Recovery.processes x ⊆ D ∧ size (Recovery.processes x) = k ∧
           recovers s (Recovery.processes x) = true) ∧
        (∀ T, T ⊆ D → size T = k → recovers s T = true →
           ∃ x, x ∈ sugg ∧ Recovery.processes x = T) ∧
        (∀ T, T ⊆ D → T ≠ ∅ → (size T < k)%nat → recovers s T = false))).
Proof.
  intros Hvalid Hne HD. unfold Recovery.find_minimal_termination_set.
  case_decide; [done|].
  destruct (try_sizes_spec s Hvalid D 1 (size D) HD)
    as (sugg & -> & [[-> Hnone]|(Hsugg & k & Hk & Hsets & Hbelow)]).
  - exists []. split; [done|]. left. split; [done|].
    intros T HTD HT.
    destruct (subset_combination D T HTD) as (c & Hc & <-).
    eapply Hnone; [|exact Hc].
    apply subseteq_size in HTD. apply size_pos in HT. lia.
  - exists sugg. split; [done|]. right. exists k.
    split; [lia|]. split; [done|]. split; [done|]. split_and!.
    + intros x Hx.
      assert (Recovery.processes x ∈ Recovery.processes <$> sugg) as Hin
        by by apply list_elem_of_fmap_2.
      rewrite Hsets in Hin.
      apply list_elem_of_fmap in Hin as (c & -> & [Hrec Hc]%list_elem_of_filter).
      destruct (combination_subset D c k Hc). done.
    + intros T HTD Hsize Hrec.
      destruct (subset_combination D T HTD) as (c & Hc & <-).
      rewrite Hsize in Hc.
      assert ((list_to_set c : gset nat) ∈ Recovery.processes <$> sugg) as Hin.
      { rewrite Hsets. apply list_elem_of_fmap_2. by apply list_elem_of_filter. }
      apply list_elem_of_fmap in Hin as (x & Hx & Hin). eauto.
    + intros T HTD HT Hsize.
      destruct (subset_combination D T HTD) as (c & Hc & <-).
      eapply Hbelow; [|exact Hc]. apply size_pos in HT. lia.
Qed.

Lemma minimal_termination_sets_witness :
  ∃ sugg,
    @Recovery.find_minimal_termination_set ascending_order scenario_C
      {[0%nat; 1%nat]} = Ok sugg ∧
    sugg ≠ [].
Proof.
  destruct (@minimal_termination_sets ascending_order scenario_C
              {[0%nat; 1%nat]})
    as (sugg & Hs & [[_ Hnone]|(k & _ & Hne & _)]).
  - apply post_init_Ok. vm_compute. reflexivity.
  - apply (bool_decide_unpack _). vm_compute. exact I.
  - intros i Hi. assert (i = 0 ∨ i = 1)%nat as [-> | ->] by set_solver;
      vm_compute; lia.
  - specialize (Hnone {[0%nat]}).
    assert (@recovers ascending_order scenario_C {[0%nat]} = true) as Hrec
      by (vm_compute; reflexivity).
    rewrite Hnone in Hrec; [discriminate|set_solver|].
    apply (bool_decide_unpack _). vm_compute. exact I.
  - exists sugg. done.
Defined.

(** ** Construction of the wait-for graph *)

Lemma add_all_app g es1 es2 : add_all g (es1 ++ es2) = add_all (add_all g es1) es2.
Proof.
  unfold add_all, add_edges. simpl. by rewrite foldl_app, app_assoc.
Qed.

Lemma add_all_nil g : add_all g [] = g.
Proof. destruct g. unfold add_all. simpl. by rewrite app_nil_r. Qed.

Lemma add_edges_keys adj es i :
  is_Some (adj !! i) → is_Some (add_edges adj es !! i).
Proof.
  revert adj. induction es as [|e es IH]; intros adj Hi; simpl; [done|].
  apply IH. destruct (decide (Wfg.from_pid e = i)) as [->|Hne].
  - rewrite lookup_insert_eq. eauto.
  - by rewrite lookup_insert_ne.
Qed.

Lemma foldM_add_all {A} (k : nat)
    (body : gmap nat (gset nat) * list Wfg.WaitForEdge → A →
            outcome (gmap nat (gset nat) * list Wfg.WaitForEdge))
    (E : A → list Wfg.WaitForEdge) (l : list A) g :
  (∀ g x, x ∈ l → (∀ i, (i < k)%nat → is_Some (g.1 !! i)) →
          body g x = Ok (add_all g (E x))) →
  (∀ i, (i < k)%nat → is_Some (g.1 !! i)) →
  foldM body g l = Ok (add_all g (l ≫= E)).
Proof.
  revert g. induction l as [|x l IH]; intros g Hbody Hkeys; simpl.
  - by rewrite add_all_nil.
  - rewrite Hbody by (done || set_solver). simpl.
    rewrite IH.
    + by rewrite add_all_app.
    + intros g' y Hy. apply Hbody. set_solver.
    + intros i Hi. simpl. by apply add_edges_keys, Hkeys.
Qed.

Lemma add_edge_spec i k j g :
  is_Some (g.1 !! i) →
  Wfg.add_edge i k j g = Ok (add_all g [Wfg.mkWaitForEdge i k (Z.of_nat j)]).
Proof.
  intros [ws Hws]. unfold Wfg.add_edge, Wfg.py_getitem. rewrite Hws. simpl.
  unfold add_all. simpl. by rewrite Hws.
Qed.

Lemma empty_graph_lookup k i :
  empty_graph k !! i = if decide (i < k)%nat then Some ∅ else None.
Proof.
  unfold empty_graph. case_decide as Hi.
  - apply elem_of_list_to_map_1.
    + rewrite <- list_fmap_compose. simpl. rewrite list_fmap_id. apply NoDup_seq.
    + apply list_elem_of_fmap. exists i. split; [done|]. by apply elem_of_range.
  - apply not_elem_of_list_to_map_1. rewrite <- list_fmap_compose. simpl.
    rewrite list_fmap_id. by rewrite elem_of_range.
Qed.

Lemma build_wait_for_graph_spec s :
  inv_dimensions s →
  Wfg.build_wait_for_graph s
  = Ok (add_edges (empty_graph (n s)) (wait_edges s), wait_edges s).
Proof.
  intros Hdim. unfold Wfg.build_wait_for_graph, wait_edges.
  fold (empty_graph (n s)).
  rewrite (foldM_add_all (n s) _
    (λ i, j ← range (m s);
          if bool_decide (0 < entry (req_row s i) j) then
            k ← range (n s);
            if bool_decide (k ≠ i ∧ 0 < entry (alloc_row s k) j)
            then [Wfg.mkWaitForEdge i k (Z.of_nat j)] else []
          else [])); [done| |].
  2:{ intros i Hi. simpl. rewrite empty_graph_lookup.
      rewrite decide_True by done. eauto. }
  intros g i Hi%elem_of_range Hkeys.
  apply (foldM_add_all (n s)); [|done].
  clear g Hkeys. intros g j Hj%elem_of_range Hkeys.
  destruct (req_row_lookup s Hdim i Hi) as [Hr Hrl].
  rewrite (py_index_lookup _ _ _ Hr). simpl.
  destruct (lookup_lt_is_Some_2 (req_row s i) j) as [r Hrj]; [lia|].
  rewrite (py_index_lookup _ _ _ Hrj). simpl.
  rewrite (entry_lookup _ _ _ Hrj).
  destruct (Z.ltb_spec 0 r) as [Hpos|Hnpos].
  2:{ rewrite bool_decide_eq_false_2 by lia. by rewrite add_all_nil. }
  rewrite bool_decide_eq_true_2 by done.
  apply (foldM_add_all (n s)); [|done].
  clear g Hkeys. intros g k Hk%elem_of_range Hkeys.
  destruct (Nat.eqb_spec k i) as [->|Hne]; simpl.
  { rewrite bool_decide_eq_false_2 by tauto. by rewrite add_all_nil. }
  destruct (alloc_row_lookup s Hdim k Hk) as [Ha Hal].
  rewrite (py_index_lookup _ _ _ Ha). simpl.
  destruct (lookup_lt_is_Some_2 (alloc_row s k) j) as [a Haj]; [lia|].
  rewrite (py_index_lookup _ _ _ Haj). simpl.
  rewrite (entry_lookup _ _ _ Haj).
  destruct (Z.ltb_spec 0 a) as [Hpos'|Hnpos'].
  - rewrite bool_decide_eq_true_2 by done. by apply add_edge_spec, Hkeys.
  - rewrite bool_decide_eq_false_2 by lia. by rewrite add_all_nil.
Qed.

Lemma elem_of_wait_edges s e :
  e ∈ wait_edges s ↔
  ∃ i k j, e = Wfg.mkWaitForEdge i k (Z.of_nat j) ∧
    (i < n s)%nat ∧ (k < n s)%nat ∧ (j < m s)%nat ∧ k ≠ i ∧
    0 < entry (req_row s i) j ∧ 0 < entry (alloc_row s k) j.
Proof.
  unfold wait_edges. rewrite list_elem_of_bind. split.
  - intros (i & Hin & Hi%elem_of_range).
    apply list_elem_of_bind in Hin as (j & Hin & Hj%elem_of_range).
    case_bool_decide as Hreq; [|by apply not_elem_of_nil in Hin].
    apply list_elem_of_bind in Hin as (k & Hin & Hk%elem_of_range).
    case_bool_decide as Hal; [|by apply not_elem_of_nil in Hin].
    apply list_elem_of_singleton in Hin as ->.
    exists i, k, j. tauto.
  - intros (i & k & j & -> & Hi & Hk & Hj & Hne & Hreq & Hal).
    exists i. split; [|by apply elem_of_range].
    apply list_elem_of_bind. exists j. split; [|by apply elem_of_range].
    rewrite bool_decide_eq_true_2 by done.
    apply list_elem_of_bind. exists k. split; [|by apply elem_of_range].
    rewrite bool_decide_eq_true_2 by done. by apply list_elem_of_singleton.
Qed.

Lemma adjacent_add_edges adj es u v :
  adjacent (add_edges adj es) u v ↔
  adjacent adj u v ∨ ∃ e, e ∈ es ∧ Wfg.from_pid e = u ∧ Wfg.to_pid e = v.
Proof.
  revert adj. induction es as [|e es IH]; intros adj; simpl.
  - split; [by left|]. intros [?|(e & He & _)]; [done|].
    by apply not_elem_of_nil in He.
  - rewrite IH. clear IH. unfold adjacent at 1.
    destruct (decide (Wfg.from_pid e = u)) as [<-|Hne].
    + rewrite lookup_insert_eq. split.
      * intros [(ws & [= <-] & Hv)|(e' & He' & Hu & Hv)].
        -- apply elem_of_union in Hv as [Hv%elem_of_singleton|Hv].
           ++ right. exists e. split_and!; [set_solver|done..].
           ++ left. unfold adjacent.
              destruct (adj !! Wfg.from_pid e) as [ws|]; [eauto|].
              by apply not_elem_of_empty in Hv.
        -- right. exists e'. split_and!; [set_solver|done..].
      * intros [(ws & Hws & Hv)|(e' & He' & Hu & Hv)].
        -- left. eexists. split; [done|]. rewrite Hws. simpl. set_solver.
        -- apply elem_of_cons in He' as [->|He'].
           ++ left. eexists. split; [done|]. set_solver.
           ++ right. eauto.
    + rewrite lookup_insert_ne by done. fold (adjacent adj u v). split.
      * intros [?|(e' & He' & Hu & Hv)]; [by left|].
        right. exists e'. split_and!; [set_solver|done..].
      * intros [?|(e' & He' & Hu & Hv)]; [by left|].
        apply elem_of_cons in He' as [->|He']; [done|]. right. eauto.
Qed.

Lemma adjacent_empty_graph k u v : ¬ adjacent (empty_graph k) u v.
Proof.
  intros (ws & Hws & Hv). rewrite empty_graph_lookup in Hws.
  case_decide; [|done]. injection Hws as <-. by apply not_elem_of_empty in Hv.
Qed.

(** The adjacency sets built from a state are the wait-for relation. *)
Lemma adjacent_wait_graph s u v :
  adjacent (add_edges (empty_graph (n s)) (wait_edges s)) u v ↔ waits_for s u v.
Proof.
  rewrite adjacent_add_edges. unfold waits_for. split.
  - intros [[]%adjacent_empty_graph|(e & He & <- & <-)].
    apply elem_of_wait_edges in He as (i & k & j & -> & ?). simpl. naive_solver.
  - intros (Hu & Hv & Hne & j & Hj & Hreq & Hal). right.
    exists (Wfg.mkWaitForEdge u v (Z.of_nat j)). split; [|done].
    apply elem_of_wait_edges. exists u, v, j. tauto.
Qed.

Lemma wait_graph_ok s :
  graph_ok (add_edges (empty_graph (n s)) (wait_edges s)) (n s).
Proof.
  split.
  - intros i Hi. apply add_edges_keys. rewrite empty_graph_lookup.
    rewrite decide_True by done. eauto.
  - by intros u v (_ & Hv & _)%adjacent_wait_graph.
Qed.

(** ** The depth-first search *)

Lemma foldM_inv {A S} (f : S → A → outcome S) (I : list A → S → Prop)
    (l : list A) (s0 : S) :
  I [] s0 →
  (∀ pre x st, (∃ post, l = pre ++ x :: post) → I pre st →
     ∃ st', f st x = Ok st' ∧ I (pre ++ [x]) st') →
  ∃ st', foldM f s0 l = Ok st' ∧ I l st'.
Proof.
  intros H0 Hstep.
  assert (∀ post pre st, l = pre ++ post → I pre st →
            ∃ st', foldM f st post = Ok st' ∧ I l st') as Hgen.
  { induction post as [|x post IH]; intros pre st Hl HI; simpl.
    - exists st. rewrite app_nil_r in Hl. by subst.
    - destruct (Hstep pre x st) as (st1 & -> & HI1); [by eexists|done|].
      simpl. apply (IH (pre ++ [x])); [|done].
      by rewrite <- app_assoc. }
  by apply (Hgen l []).
Qed.

(** The same for a loop whose body may raise [e]. *)
Lemma foldM_inv_raise {A S} (f : S → A → outcome S) (I : list A → S → Prop)
    (e : exn) (Q : Prop) (l : list A) (s0 : S) :
  I [] s0 →
  (∀ pre x st, (∃ post, l = pre ++ x :: post) → I pre st →
     (∃ st', f st x = Ok st' ∧ I (pre ++ [x]) st') ∨
     (f st x = Raise e ∧ Q)) →
  (∃ st', foldM f s0 l = Ok st' ∧ I l st') ∨ (foldM f s0 l = Raise e ∧ Q).
Proof.
  intros H0 Hstep.
  assert (∀ post pre st, l = pre ++ post → I pre st →
            (∃ st', foldM f st post = Ok st' ∧ I l st') ∨
            (foldM f st post = Raise e ∧ Q)) as Hgen.
  { induction post as [|x post IH]; intros pre st Hl HI; simpl.
    - left. exists st. rewrite app_nil_r in Hl. by subst.
    - destruct (Hstep pre x st) as [(st1 & -> & HI1)|[-> HQ]];
        [by eexists|done| |by right].
      simpl. apply (IH (pre ++ [x])); [|done].
      by rewrite <- app_assoc. }
  by apply (Hgen l []).
Qed.

Lemma elem_of_white_set (c : list Wfg.colour) v :
  v ∈ white_set c ↔ c !! v = Some Wfg.WHITE.
Proof.
  unfold white_set. rewrite elem_of_list_to_set, list_elem_of_filter, elem_of_seq.
  split; [tauto|]. intros Hv. split; [done|].
  apply lookup_lt_Some in Hv. lia.
Qed.

Lemma size_white_set (c : list Wfg.colour) : (size (white_set c) ≤ length c)%nat.
Proof.
  unfold white_set. rewrite size_list_to_set by apply NoDup_filter, NoDup_seq.
  etrans; [apply length_filter|]. by rewrite length_seq.
Qed.

Lemma white_set_insert (c : list Wfg.colour) v col :
  c !! v = Some Wfg.WHITE → col ≠ Wfg.WHITE →
  (size (white_set (<[v := col]> c)) < size (white_set c))%nat.
Proof.
  intros Hv Hcol. apply subset_size. split.
  - intros w Hw%elem_of_white_set. apply elem_of_white_set.
    destruct (decide (v = w)) as [->|Hne].
    + rewrite list_lookup_insert_eq in Hw by by eapply lookup_lt_Some. congruence.
    + by rewrite list_lookup_insert_ne in Hw.
  - intros Hsub. assert (v ∈ white_set (<[v := col]> c)) as Hin
      by by apply Hsub, elem_of_white_set.
    apply elem_of_white_set in Hin.
    rewrite list_lookup_insert_eq in Hin by by eapply lookup_lt_Some. congruence.
Qed.

Lemma white_set_mono (c c' : list Wfg.colour) :
  (∀ v, c' !! v = Some Wfg.WHITE → c !! v = Some Wfg.WHITE) →
  (size (white_set c') ≤ size (white_set c))%nat.
Proof.
  intros Hsub. apply subseteq_size. intros v. rewrite !elem_of_white_set. auto.
Qed.

Lemma chain_app_adjacent adj l u v :
  chain adj l → last l = Some u → adjacent adj u v → chain adj (l ++ [v]).
Proof.
  induction l as [|x l IH]; intros Hc Hl Hadj; [done|].
  destruct l as [|y l].
  - simpl in *. injection Hl as ->. done.
  - destruct Hc as [Hxy Hc]. split; [done|]. apply IH; [done| |done].
    by rewrite last_cons_cons in Hl.
Qed.

Lemma chain_app_l adj l1 l2 : chain adj (l1 ++ l2) → chain adj l1.
Proof.
  induction l1 as [|x l1 IH]; intros Hc; [done|].
  destruct l1 as [|y l1]; [done|].
  destruct Hc as [Hxy Hc]. split; [done|]. by apply IH.
Qed.

Lemma chain_app_r adj l1 l2 : chain adj (l1 ++ l2) → chain adj l2.
Proof.
  induction l1 as [|x l1 IH]; intros Hc; [done|].
  apply IH. destruct l1 as [|y l1]; simpl in *.
  - destruct l2; [done|]. by destruct Hc.
  - by destruct Hc.
Qed.

Lemma list_find_index_split x l :
  x ∈ l →
  ∃ pre post, l = pre ++ x :: post ∧ list_find_index x l = Some (length pre).
Proof.
  induction l as [|y l IH]; intros Hx; [by apply not_elem_of_nil in Hx|].
  simpl. case_decide as Hy.
  - subst. by exists [], l.
  - destruct IH as (pre & post & -> & ->); [set_solver|].
    by exists (y :: pre), post.
Qed.

Lemma zip_with_snoc_l {A B C} (f : A → B → C) l1 l2 z :
  length l1 = length l2 → zip_with f (l1 ++ [z]) l2 = zip_with f l1 l2.
Proof.
  revert l2. induction l1 as [|x l1 IH]; intros [|y l2] Hlen; simpl in *;
    try done. f_equal. apply IH. lia.
Qed.

Lemma consecutive_pairs {A B} (f : A → A → B) (pre l : list A) :
  mapM (λ i, a ← py_index (pre ++ l) i;
             b ← py_index (pre ++ l) (i + 1);
             Ok (f a b))
       (seq (length pre) (length l - 1))
  = Ok (zip_with f l (tail l)).
Proof.
  revert pre. induction l as [|x l IH]; intros pre; [done|].
  destruct l as [|y l]; [done|].
  replace (length (x :: y :: l) - 1)%nat with (S (length (y :: l) - 1))
    by (simpl; lia).
  cbn [seq mapM].
  rewrite (py_index_lookup _ (length pre) x)
    by (by apply list_lookup_middle). simpl.
  rewrite (py_index_lookup _ (length pre + 1) y).
  2:{ rewrite (cons_middle x pre), app_assoc.
      apply list_lookup_middle. rewrite length_app. simpl. lia. }
  simpl. specialize (IH (pre ++ [x])).
  rewrite <- app_assoc, length_app in IH. simpl in IH.
  rewrite Nat.add_1_r in IH. rewrite IH. done.
Qed.

Lemma neighbour_iter_elem `{NeighbourOrder} node (ws : gset nat) v :
  v ∈ neighbour_iter node ws ↔ v ∈ ws.
Proof. rewrite neighbour_iter_perm. apply elem_of_elements. Qed.

Section DfsFacts.
Context `{NeighbourOrder}.
Variable adj : gmap nat (gset nat).
Variable k : nat.
Hypothesis Hgraph : graph_ok adj k.

Lemma cycle_edges_Ok frames v post :
  mapM (λ i, from ← py_index ((v :: post) ++ [v]) i;
             to ← py_index ((v :: post) ++ [v]) (i + 1);
             _ ← call_frame (S frames);
             Ok (Wfg.mkWaitForEdge from to (-1)))
       (range (length ((v :: post) ++ [v]) - 1))
  = Ok (closing_edges (v :: post)).
Proof.
  unfold range.
  etrans; [exact (consecutive_pairs (λ a b, Wfg.mkWaitForEdge a b (-1)) []
                    ((v :: post) ++ [v]))|].
  f_equal. unfold closing_edges.
  change (tail ((v :: post) ++ [v])) with (post ++ [v]).
  apply zip_with_snoc_l. rewrite length_app. simpl. lia.
Qed.

Lemma record_cycle_spec frames v st u :
  v ∈ Wfg.path st → chain adj (Wfg.path st) →
  last (Wfg.path st) = Some u → adjacent adj u v →
  ∃ c, Wfg.record_cycle (S frames) v st
       = Ok {| Wfg.color := Wfg.color st; Wfg.parent := Wfg.parent st;
               Wfg.found := Wfg.found st ++ [c]; Wfg.path := Wfg.path st |} ∧
       good_cycle adj c.
Proof.
  intros Hv Hchain Hlast Hadj. unfold Wfg.record_cycle, py_list_index.
  destruct (list_find_index_split v _ Hv) as (pre & post & Hpath & ->).
  cbn [mbind outcome_mbind outcome_bind]. cbv zeta.
  rewrite Hpath, drop_app_length, cycle_edges_Ok.
  cbn [mbind outcome_mbind outcome_bind].
  eexists. split; [reflexivity|].
  split; cbn [Wfg.processes Wfg.edges]; [|done].
  exists v. split; [done|].
  apply (chain_app_adjacent _ _ u); [|
    by rewrite Hpath, last_app_cons in Hlast | done].
  rewrite Hpath in Hchain. by apply chain_app_r in Hchain.
Qed.

(** With no frame free the first [WaitForEdge(...)] raises. *)
Lemma record_cycle_no_frame v st :
  v ∈ Wfg.path st → Wfg.record_cycle 0 v st = Raise RecursionError.
Proof.
  intros Hv. unfold Wfg.record_cycle, py_list_index.
  destruct (list_find_index_split v _ Hv) as (pre & post & Hpath & ->).
  cbn [mbind outcome_mbind outcome_bind]. cbv zeta.
  rewrite Hpath, drop_app_length.
  replace (length ((v :: post) ++ [v]) - 1)%nat with (S (length post))
    by (rewrite length_app; simpl; lia).
  unfold range. cbn [seq mapM].
  destruct (lookup_lt_is_Some_2 ((v :: post) ++ [v]) (0 + 1)) as [w Hw];
    [rewrite length_app; simpl; lia|].
  rewrite (py_index_lookup _ 0 v) by done.
  cbn [mbind outcome_mbind outcome_bind].
  rewrite (py_index_lookup _ _ _ Hw). done.
Qed.

Lemma py_pop_snoc {A} (l : list A) x : Wfg.py_pop (l ++ [x]) = Ok l.
Proof.
  unfold Wfg.py_pop. destruct (l ++ [x]) eqn:Heq.
  - by destruct l.
  - rewrite <- Heq, length_app. simpl.
    replace (length l + 1 - 1)%nat with (length l) by lia.
    by rewrite take_app_length.
Qed.

Lemma adjacent_lt u v : adjacent adj u v → (v < k)%nat.
Proof. by destruct Hgraph as [_ Hlt]; apply Hlt. Qed.

Lemma dfs_inv_gray st : 
  dfs_inv adj k st →
  ∀ v, Wfg.color st !! v = Some Wfg.GRAY ↔ v ∈ Wfg.path st.
Proof. by intros (_ & _ & _ & ? & _). Qed.

(** Entering [dfs]: the node turns [GRAY] and joins the path. *)
Lemma dfs_enter node st :
  dfs_inv adj k st → Wfg.color st !! node = Some Wfg.WHITE →
  chain adj (Wfg.path st ++ [node]) →
  dfs_inv adj k
    {| Wfg.color := <[node := Wfg.GRAY]> (Wfg.color st);
       Wfg.parent := Wfg.parent st; Wfg.found := Wfg.found st;
       Wfg.path := Wfg.path st ++ [node] |}.
Proof.
  intros (Hlc & Hlp & Hnd & Hgray & Hchain & Hgood & Hfin) Hwhite Hchain'.
  pose proof (lookup_lt_Some _ _ _ Hwhite) as Hnode.
  assert (node ∉ Wfg.path st) as Hnotin.
  { intros Hin%Hgray. congruence. }
  split_and!; simpl.
  - by rewrite length_insert.
  - done.
  - apply NoDup_app. split_and!; [done| |apply NoDup_singleton].
    intros x Hx ->%list_elem_of_singleton. done.
  - intros v. destruct (decide (node = v)) as [<-|Hne].
    + rewrite list_lookup_insert_eq by done. set_solver.
    + rewrite list_lookup_insert_ne by done. rewrite Hgray. set_solver.
  - done.
  - done.
  - intros Hnil. destruct (Hfin Hnil) as (fin & Hblack & Hrank).
    exists fin. split; [|done]. intros v.
    destruct (decide (node = v)) as [<-|Hne].
    + rewrite list_lookup_insert_eq by done. rewrite <- Hblack, Hwhite.
      split; intros [=].
    + by rewrite list_lookup_insert_ne.
Qed.

(** Leaving [dfs]: the node turns [BLACK] and leaves the path. *)
Lemma dfs_leave node st cur ws :
  dfs_inv adj k st → Wfg.color st !! node = Some Wfg.WHITE →
  adj !! node = Some ws →
  dfs_inv adj k cur → Wfg.path cur = Wfg.path st ++ [node] →
  (Wfg.found cur = [] → ∀ v, v ∈ ws → Wfg.color cur !! v = Some Wfg.BLACK) →
  dfs_inv adj k
    {| Wfg.color := <[node := Wfg.BLACK]> (Wfg.color cur);
       Wfg.parent := Wfg.parent cur; Wfg.found := Wfg.found cur;
       Wfg.path := Wfg.path st |}.
Proof.
  intros (_ & _ & Hnd & Hgray & Hchain & _ & _) Hwhite Hws
    (Hlc & Hlp & Hnd' & Hgray' & Hchain' & Hgood' & Hfin') Hpath Hdone.
  assert (node < length (Wfg.color cur))%nat as Hnode.
  { rewrite Hlc. destruct Hgraph as [_ Hlt].
    apply lookup_lt_Some in Hwhite.
    assert (Wfg.color cur !! node = Some Wfg.GRAY) as Hg.
    { apply Hgray'. rewrite Hpath. set_solver. }
    apply lookup_lt_Some in Hg. lia. }
  assert (node ∉ Wfg.path st) as Hnotin.
  { intros Hin%Hgray. congruence. }
  split_and!; simpl.
  - by rewrite length_insert.
  - done.
  - done.
  - intros v. destruct (decide (node = v)) as [<-|Hne].
    + rewrite list_lookup_insert_eq by done. split; [intros [=]|done].
    + rewrite list_lookup_insert_ne by done. rewrite Hgray', Hpath. set_solver.
  - done.
  - done.
  - intros Hnil. destruct (Hfin' Hnil) as (fin & Hblack & Hrank).
    exists (fin ++ [node]). split.
    + intros v. destruct (decide (node = v)) as [<-|Hne].
      * rewrite list_lookup_insert_eq by done. set_solver.
      * rewrite list_lookup_insert_ne by done. rewrite Hblack. set_solver.
    + intros pre u post Heq v Hadj.
      destruct post as [|z post _] using rev_ind.
      * apply app_inj_tail in Heq as [<- <-].
        apply Hblack, Hdone; [done|].
        destruct Hadj as (ws' & Hws' & Hv). congruence.
      * rewrite app_comm_cons, app_assoc in Heq.
        apply app_inj_tail in Heq as [Heq _].
        by apply (Hrank pre u post).
Qed.

(** A call of [dfs] returns, or it raises [RecursionError], and this only
    when no more frames are free than nodes are [WHITE]: the nested calls
    take one frame for each node they enter, and one more is needed for
    the constructors. *)
Lemma dfs_cases frames node st :
  dfs_inv adj k st → Wfg.color st !! node = Some Wfg.WHITE →
  chain adj (Wfg.path st ++ [node]) →
  (∃ st', Wfg.dfs adj frames node st = Ok st' ∧ dfs_post adj k st st' ∧
     Wfg.color st' !! node = Some Wfg.BLACK) ∨
  (Wfg.dfs adj frames node st = Raise RecursionError ∧
   (frames ≤ size (white_set (Wfg.color st)))%nat).
Proof.
  revert node st.
  induction frames as [|avail IH]; intros node st Hinv Hwhite Hchain;
    [right; split; [done|lia]|].
  assert (0 < size (white_set (Wfg.color st)))%nat as Hpos.
  { assert (node ∈ white_set (Wfg.color st)) as Hin by by apply elem_of_white_set.
    apply size_pos. set_solver. }
  pose proof (lookup_lt_Some _ _ _ Hwhite) as Hnode.
  pose proof Hinv as (Hlc & Hlp & _).
  destruct Hgraph as [Hkeys _].
  destruct (Hkeys node) as [ws Hws]; [lia|].
  simpl. rewrite (py_setitem_lookup _ _ _ _ Hwhite). simpl.
  unfold Wfg.py_getitem. rewrite Hws. simpl.
  set (st1 := {| Wfg.color := <[node := Wfg.GRAY]> (Wfg.color st);
                 Wfg.parent := Wfg.parent st; Wfg.found := Wfg.found st;
                 Wfg.path := Wfg.path st ++ [node] |}).
  pose proof (dfs_enter node st Hinv Hwhite Hchain) as Hinv1. fold st1 in Hinv1.
  pose proof (white_set_insert _ _ Wfg.GRAY Hwhite ltac:(done)) as Hless.
  match goal with |- context [foldM ?f st1 _] =>
    destruct (foldM_inv_raise f
      (λ pre cur, dfs_inv adj k cur ∧ Wfg.path cur = Wfg.path st ++ [node] ∧
         (∀ v, Wfg.color st1 !! v ≠ Some Wfg.WHITE →
               Wfg.color cur !! v = Wfg.color st1 !! v) ∧
         (∃ new, Wfg.found cur = Wfg.found st ++ new) ∧
         (Wfg.found cur = [] →
          ∀ v, v ∈ pre → Wfg.color cur !! v = Some Wfg.BLACK))
      RecursionError (S avail ≤ size (white_set (Wfg.color st)))%nat
      (neighbour_iter node ws) st1)
      as [(cur & -> & Hcur & Hpath & Hsame & Hnew & Hdone)|[-> Hshort]]
  end; [| | |by right].
  { split_and!; [done|done|done| |].
    - exists []. by rewrite app_nil_r.
    - intros _ v Hv. by apply not_elem_of_nil in Hv. }
  { intros pre v cur [post Hsplit] (Hcur & Hpath & Hsame & [new Hnew] & Hdone).
    assert (adjacent adj node v) as Hadj.
    { exists ws. split; [done|]. apply (neighbour_iter_elem node).
      rewrite Hsplit. set_solver. }
    pose proof (adjacent_lt _ _ Hadj) as Hv.
    pose proof Hcur as (Hlc' & Hlp' & _ & Hgray' & Hchain' & Hgood' & Hfin').
    destruct (lookup_lt_is_Some_2 (Wfg.color cur) v) as [c Hc]; [lia|].
    rewrite (py_index_lookup _ _ _ Hc). simpl.
    destruct c.
    - (* WHITE: recurse *)
      destruct (lookup_lt_is_Some_2 (Wfg.parent cur) v) as [p Hp]; [lia|].
      rewrite (py_setitem_lookup _ _ _ _ Hp). simpl.
      set (cur2 := {| Wfg.color := Wfg.color cur;
                      Wfg.parent := <[v := Z.of_nat node]> (Wfg.parent cur);
                      Wfg.found := Wfg.found cur; Wfg.path := Wfg.path cur |}).
      assert (size (white_set (Wfg.color cur))
              ≤ size (white_set (Wfg.color st1)))%nat as Hmono.
      { apply white_set_mono. intros w Hw.
        destruct (decide (Wfg.color st1 !! w = Some Wfg.WHITE)) as [|Hnw]; [done|].
        rewrite (Hsame w Hnw) in Hw. done. }
      destruct (IH v cur2)
        as [(st2 & -> & (Hinv2 & Hpath2 & Hsame2 & [new2 Hnew2]) & Hblack2)
           |[-> Hshort]].
      + split_and!; simpl; [done|by rewrite length_insert|by destruct Hcur as (_&_&?&_)|done..].
      + done.
      + simpl. rewrite Hpath.
        apply (chain_app_adjacent _ _ node); [by rewrite <- Hpath| |done].
        by rewrite last_snoc.
      + left. eexists. split; [done|]. simpl in *. split_and!.
        * done.
        * by rewrite Hpath2.
        * intros w Hw. rewrite Hsame2; [by apply Hsame|].
          by rewrite (Hsame w Hw).
        * exists (new ++ new2). by rewrite Hnew2, Hnew, app_assoc.
        * intros Hnil w Hw. rewrite Hnew2 in Hnil.
          apply app_eq_nil in Hnil as [Hnil _].
          apply elem_of_app in Hw as [Hw|Hw%list_elem_of_singleton].
          -- rewrite Hsame2; [by apply Hdone|]. rewrite (Hdone Hnil w Hw). done.
          -- by subst.
      + right. split; [done|]. simpl in *. lia.
    - (* GRAY: a cycle *)
      destruct avail as [|avail'].
      { right. split; [|lia]. apply record_cycle_no_frame. by apply Hgray'. }
      destruct (record_cycle_spec avail' v cur node) as (c & -> & Hc').
      + by apply Hgray'.
      + done.
      + by rewrite Hpath, last_snoc.
      + done.
      + left. eexists. split; [done|]. simpl. split_and!.
        * split_and!; simpl; [done|done|by destruct Hcur as (_&_&?&_)|done|done| |].
          -- apply Forall_app. split; [done|]. by constructor.
          -- intros Hnil. by apply app_eq_nil in Hnil as [_ [=]].
        * done.
        * done.
        * exists (new ++ [c]). by rewrite Hnew, app_assoc.
        * intros Hnil. by apply app_eq_nil in Hnil as [_ [=]].
    - (* BLACK *)
      left. exists cur. split; [done|].
      split_and!; [done|done|done|by exists new|].
      intros Hnil w Hw.
      apply elem_of_app in Hw as [Hw|Hw%list_elem_of_singleton];
        [by apply Hdone|by subst]. }
  simpl.
  assert (Wfg.color cur !! node = Some Wfg.GRAY) as Hg.
  { apply (dfs_inv_gray cur Hcur). rewrite Hpath. set_solver. }
  rewrite (py_setitem_lookup _ _ _ _ Hg). simpl.
  rewrite Hpath, py_pop_snoc. simpl.
  left. eexists. split; [done|]. split; [split_and!|]; simpl.
  - apply (dfs_leave node st cur ws); try done.
    intros Hnil v Hv. apply Hdone; [done|].
    by apply neighbour_iter_elem.
  - done.
  - intros v Hv. assert (node ≠ v) as Hne by congruence.
    rewrite list_lookup_insert_ne by done.
    rewrite Hsame; simpl; by rewrite list_lookup_insert_ne.
  - done.
  - apply list_lookup_insert_eq. by eapply lookup_lt_Some.
Qed.

End DfsFacts.

(** The search returns, or it raises [RecursionError], and this only when
    no more frames are free than the graph has nodes. *)
Lemma detect_cycles_dfs_cases `{NeighbourOrder} `{CallStack}
    (adj : gmap nat (gset nat)) (k : nat) :
  graph_ok adj k →
  (∃ cycles, Wfg.detect_cycles_dfs adj k = Ok cycles ∧
     Forall (good_cycle adj) cycles ∧
     (cycles = [] → ∃ fin, (∀ v, (v < k)%nat → v ∈ fin) ∧ ranked adj fin)) ∨
  (Wfg.detect_cycles_dfs adj k = Raise RecursionError ∧
   (free_frames ≤ k)%nat).
Proof.
  intros Hgraph. unfold Wfg.detect_cycles_dfs.
  match goal with |- context [foldM ?f ?st0 _] =>
    destruct (foldM_inv_raise f
      (λ pre st, dfs_inv adj k st ∧ Wfg.path st = [] ∧
         (Wfg.found st = [] →
          ∀ v, v ∈ pre → Wfg.color st !! v = Some Wfg.BLACK))
      RecursionError (free_frames ≤ k)%nat
      (range k) st0) as [(st & -> & Hinv & Hpath & Hdone)|[-> Hshort]]
  end; [| | |by right].
  { split_and!; simpl; [| done |].
    - split_and!; simpl.
      + apply length_replicate.
      + apply length_replicate.
      + constructor.
      + intros v. split; [|by intros ?%not_elem_of_nil].
        by intros [[=] _]%lookup_replicate.
      + done.
      + constructor.
      + intros _. exists []. split.
        * intros v. split; [|by intros ?%not_elem_of_nil].
          by intros [[=] _]%lookup_replicate.
        * intros pre u post Heq. by destruct pre.
    - intros _ v Hv. by apply not_elem_of_nil in Hv. }
  { intros pre i st [post Hsplit] (Hinv & Hpath & Hdone).
    assert (i < k)%nat as Hi.
    { apply elem_of_range. rewrite Hsplit. set_solver. }
    pose proof Hinv as (Hlc & _ & _ & Hgray & _).
    destruct (lookup_lt_is_Some_2 (Wfg.color st) i) as [c Hc]; [lia|].
    rewrite (py_index_lookup _ _ _ Hc). simpl.
    assert ({| Wfg.color := Wfg.color st; Wfg.parent := Wfg.parent st;
               Wfg.found := Wfg.found st; Wfg.path := [] |} = st) as Heta.
    { destruct st. simpl in *. by subst. }
    destruct c.
    - rewrite Heta.
      destruct (dfs_cases adj k Hgraph free_frames i st)
        as [(st' & -> & (Hinv' & Hpath' & Hsame & [new Hnew]) & Hblack)
           |[-> Hshort]].
      + done.
      + done.
      + by rewrite Hpath.
      + left. exists st'. split; [done|]. split_and!; [done|congruence|].
        intros Hnil v Hv. rewrite Hnew in Hnil.
        apply app_eq_nil in Hnil as [Hnil _].
        apply elem_of_app in Hv as [Hv|Hv%list_elem_of_singleton]; [|by subst].
        rewrite Hsame; [by apply Hdone|]. by rewrite (Hdone Hnil v Hv).
      + right. split; [done|].
        pose proof (size_white_set (Wfg.color st)). lia.
    - apply Hgray in Hc. rewrite Hpath in Hc. by apply not_elem_of_nil in Hc.
    - left. exists st. split; [done|]. split_and!; [done..|].
      intros Hnil v Hv.
      apply elem_of_app in Hv as [Hv|Hv%list_elem_of_singleton];
        [by apply Hdone|by subst]. }
  left. simpl. exists (Wfg.found st). split; [done|].
  destruct Hinv as (_ & _ & _ & _ & _ & Hgood & Hfin).
  split; [done|]. intros Hnil.
  destruct (Hfin Hnil) as (fin & Hblack & Hrank).
  exists fin. split; [|done]. intros v Hv.
  apply Hblack, Hdone; [done|]. by apply elem_of_range.
Qed.

Lemma detect_cycles_dfs_spec `{NeighbourOrder} `{CallStack}
    (adj : gmap nat (gset nat)) (k : nat) :
  graph_ok adj k → (k < free_frames)%nat →
  ∃ cycles, Wfg.detect_cycles_dfs adj k = Ok cycles ∧
    Forall (good_cycle adj) cycles ∧
    (cycles = [] → ∃ fin, (∀ v, (v < k)%nat → v ∈ fin) ∧ ranked adj fin).
Proof.
  intros Hgraph Hframes.
  destruct (detect_cycles_dfs_cases adj k Hgraph) as [?|[_ ?]]; [done|lia].
Qed.

(** A ranked graph has no non-empty set of nodes closed under "has a
    neighbour in the set". *)
Lemma ranked_no_closed_set adj fin (U : nat → Prop) :
  ranked adj fin →
  (∀ u, U u → u ∈ fin ∧ ∃ v, adjacent adj u v ∧ U v) →
  ∀ u, ¬ U u.
Proof.
  intros Hrank Hclosed.
  assert (∀ pre post, fin = pre ++ post → ∀ u, u ∈ pre → ¬ U u) as Hpre.
  { induction pre as [|x pre IH] using rev_ind; intros post Heq u Hu.
    - by apply not_elem_of_nil in Hu.
    - rewrite <- app_assoc in Heq. simpl in Heq.
      apply elem_of_app in Hu as [Hu|Hu%list_elem_of_singleton].
      + by apply (IH (x :: post)).
      + subst u. intros HU.
        destruct (Hclosed x HU) as (_ & v & Hadj & HUv).
        pose proof (Hrank pre x post Heq v Hadj) as Hv.
        by apply (IH (x :: post) Heq v). }
  intros u HU. destruct (Hclosed u HU) as [Hu _].
  apply (Hpre fin [] (eq_sym (app_nil_r fin)) u Hu HU).
Qed.

Lemma chain_lookup adj l p a b :
  chain adj l → l !! p = Some a → l !! S p = Some b → adjacent adj a b.
Proof.
  revert p. induction l as [|x l IH]; intros p Hc Ha Hb; [done|].
  destruct l as [|y l]; [done|]. destruct Hc as [Hxy Hc].
  destruct p as [|p]; simpl in *; [by simplify_eq|].
  by apply (IH p).
Qed.

(** Every member of a cycle has a neighbour in the cycle. *)
Lemma cycle_closed adj c u :
  is_cycle adj c → u ∈ c → ∃ v, adjacent adj u v ∧ v ∈ c.
Proof.
  intros (x & Hhead & Hchain) [p Hp]%list_elem_of_lookup.
  assert (x ∈ c) as Hx by (destruct c; simpl in *; [done|simplify_eq; set_solver]).
  destruct ((c ++ [x]) !! S p) as [v|] eqn:Hv.
  - exists v. split.
    + apply (chain_lookup adj (c ++ [x]) p); [done| |done].
      by apply lookup_app_l_Some.
    + apply list_elem_of_lookup_2 in Hv. set_solver.
  - apply lookup_ge_None in Hv. rewrite length_app in Hv. simpl in Hv.
    apply lookup_lt_Some in Hp. lia.
Qed.

Lemma elem_of_union_cycles (cycles : list Wfg.CycleInfo) (acc : gset nat) x :
  x ∈ foldl (λ acc c, acc ∪ list_to_set (Wfg.processes c)) acc cycles
  ↔ x ∈ acc ∨ ∃ c, c ∈ cycles ∧ x ∈ Wfg.processes c.
Proof.
  revert acc. induction cycles as [|c cycles IH]; intros acc; simpl.
  - split; [by left|]. intros [?|(c & Hc & _)]; [done|].
    by apply not_elem_of_nil in Hc.
  - rewrite IH, elem_of_union, elem_of_list_to_set. split.
    + intros [[?|?]|(c' & Hc' & Hx)]; [by left| |].
      * right. exists c. split; [set_solver|done].
      * right. exists c'. split; [set_solver|done].
    + intros [?|(c' & Hc' & Hx)]; [by left; left|].
      apply elem_of_cons in Hc' as [->|Hc']; [by left; right|].
      right. eauto.
Qed.

(** On a state of valid dimensions the Wait-For Graph Detector returns,
    reporting the union of the cycles the search recorded, or it raises
    [RecursionError], and this only when there is an edge, so that the
    search is run, and no more frames are free than the state has
    processes. *)
Lemma detect_deadlock_wfg_cases `{NeighbourOrder} `{CallStack} s :
  inv_dimensions s →
  (∃ w, Wfg.detect_deadlock_wfg s = Ok w ∧
     Forall (good_cycle (wait_graph s)) (Wfg.cycles w) ∧
     (Wfg.deadlocked w = true ↔ Wfg.cycles w ≠ []) ∧
     (∀ x, x ∈ Wfg.deadlocked_processes w
           ↔ ∃ c, c ∈ Wfg.cycles w ∧ x ∈ Wfg.processes c) ∧
     (Wfg.cycles w = [] →
      ∃ fin, (∀ v, (v < n s)%nat → v ∈ fin) ∧ ranked (wait_graph s) fin)) ∨
  (Wfg.detect_deadlock_wfg s = Raise RecursionError ∧
   wait_edges s ≠ [] ∧ (free_frames ≤ n s)%nat).
Proof.
  intros Hdim. unfold Wfg.detect_deadlock_wfg.
  rewrite (build_wait_for_graph_spec s Hdim).
  cbn [mbind outcome_mbind outcome_bind]. fold (wait_graph s).
  destruct (wait_edges s) as [|e es] eqn:Hedges.
  - left. eexists. split; [reflexivity|]. simpl. split_and!.
    + constructor.
    + split; [intros [=]|done].
    + intros x. split; [by intros ?%not_elem_of_empty|].
      by intros (c & ?%not_elem_of_nil & _).
    + intros _. exists (range (n s)). split.
      * intros v Hv. by apply elem_of_range.
      * intros pre u post _ v Hadj. unfold wait_graph in Hadj.
        rewrite adjacent_add_edges, Hedges in Hadj.
        destruct Hadj as [[]%adjacent_empty_graph|(e & ?%not_elem_of_nil & _)].
        done.
  - destruct (detect_cycles_dfs_cases (wait_graph s) (n s))
      as [(cycles & -> & Hgood & Hfin)|[-> Hshort]];
      [apply wait_graph_ok| |by right].
    cbn [mbind outcome_mbind outcome_bind]. left.
    destruct cycles as [|c cycles].
    + eexists. split; [reflexivity|]. simpl. split_and!.
      * constructor.
      * split; [intros [=]|done].
      * intros x. split; [by intros ?%not_elem_of_empty|].
        by intros (c & ?%not_elem_of_nil & _).
      * done.
    + eexists. split; [reflexivity|]. cbn [Wfg.cycles Wfg.deadlocked
        Wfg.deadlocked_processes]. split_and!.
      * done.
      * done.
      * intros x. rewrite elem_of_union_cycles. set_solver.
      * intros [=].
Qed.

(** It returns when there is no edge or more frames are free than the
    state has processes. *)
Lemma detect_deadlock_wfg_spec `{NeighbourOrder} `{CallStack} s :
  inv_dimensions s → wait_edges s = [] ∨ (n s < free_frames)%nat →
  ∃ w, Wfg.detect_deadlock_wfg s = Ok w ∧
    Forall (good_cycle (wait_graph s)) (Wfg.cycles w) ∧
    (Wfg.deadlocked w = true ↔ Wfg.cycles w ≠ []) ∧
    (∀ x, x ∈ Wfg.deadlocked_processes w
          ↔ ∃ c, c ∈ Wfg.cycles w ∧ x ∈ Wfg.processes c) ∧
    (Wfg.cycles w = [] →
     ∃ fin, (∀ v, (v < n s)%nat → v ∈ fin) ∧ ranked (wait_graph s) fin).
Proof.
  intros Hdim Hframes.
  destruct (detect_deadlock_wfg_cases s Hdim) as [?|(_ & Hedges & Hshort)];
    [done|].
  destruct Hframes; [done|lia].
Qed.

(** ** Edges of the recorded cycles *)

(** On every state of valid dimensions, with frames enough for the search
    and under every order of the adjacency sets, each edge recorded in a
    cycle joins consecutive processes of the cycle and has the resource id
    [-1]. *)
Lemma cycle_edges_always_placeholder `{NeighbourOrder} `{CallStack} s :
  inv_dimensions s → (n s < free_frames)%nat →
  ∃ w, Wfg.detect_deadlock_wfg s = Ok w ∧
    ∀ c, c ∈ Wfg.cycles w →
      Wfg.edges c = closing_edges (Wfg.processes c) ∧
      ∀ e, e ∈ Wfg.edges c → Wfg.resource_id e = -1.
Proof.
  intros Hdim Hframes.
  destruct (detect_deadlock_wfg_spec s Hdim (or_intror Hframes))
    as (w & Hw & Hgood & _).
  exists w. split; [done|]. intros c Hc.
  rewrite Forall_forall in Hgood. destruct (Hgood c Hc) as [_ Hedges].
  split; [done|]. rewrite Hedges. intros e He.
  unfold closing_edges in He. destruct (Wfg.processes c) as [|x c']; 
    [by apply not_elem_of_nil in He|].
  apply list_elem_of_lookup in He as [i Hi].
  apply lookup_zip_with_Some in Hi as (a & b & -> & _). done.
Qed.

(** C7 fails on Scenario A: the detector records the cycle P0, P1, P2 with
    edges between consecutive processes, each carrying the resource id
    [-1], although the edges P0 → P1, P1 → P2 and P2 → P0 of the wait-for
    graph are justified by the resources 1, 2 and 0. *)
Theorem cycle_edges_carry_placeholder :
  ∃ w, @Wfg.detect_deadlock_wfg (uniform_order ascending_order) default_stack
           scenario_A = Ok w ∧
    Wfg.cycles w =
      [ {| Wfg.processes := [0; 1; 2]%nat;
           Wfg.edges := [ Wfg.mkWaitForEdge 0 1 (-1);
                          Wfg.mkWaitForEdge 1 2 (-1);
                          Wfg.mkWaitForEdge 2 0 (-1) ] |} ] ∧
    Wfg.wait_for_edges w =
      [ Wfg.mkWaitForEdge 0 1 1; Wfg.mkWaitForEdge 1 2 2;
        Wfg.mkWaitForEdge 2 0 0 ].
Proof.
  eexists. split; [vm_compute; reflexivity|]. split; reflexivity.
Qed.

(** ** Totality *)

Lemma suggest_preemption_targets_total s (D : gset nat) :
  inv_dimensions s → (∀ i, i ∈ D → (i < n s)%nat) →
  ∃ l, Recovery.suggest_preemption_targets s D = Ok l.
Proof.
  intros Hdim HD. unfold Recovery.suggest_preemption_targets.
  match goal with |- context [foldM ?f ?st0 ?l] =>
    destruct (foldM_inv f (λ _ _, True) l st0) as (st & -> & _)
  end; [done| |by eexists].
  intros pre pid sugg [post Hsplit] _.
  assert (pid < n s)%nat as Hpid.
  { apply HD, elem_of_sorted. rewrite Hsplit. set_solver. }
  destruct (alloc_row_lookup s Hdim pid Hpid) as [Ha Hal].
  match goal with |- context [foldM ?f ?st0 ?l] =>
    destruct (foldM_inv f (λ _ _, True) l st0) as (held & -> & _)
  end; [done| |].
  - intros pre' j held [post' Hsplit'] _.
    assert (j < m s)%nat as Hj.
    { apply elem_of_range. rewrite Hsplit'. set_solver. }
    rewrite (py_index_lookup _ _ _ Ha). simpl.
    destruct (lookup_lt_is_Some_2 (alloc_row s pid) j) as [a Haj]; [lia|].
    rewrite (py_index_lookup _ _ _ Haj). simpl.
    destruct (0 <? a); by eexists.
  - simpl. destruct held; by eexists.
Qed.

Lemma find_minimal_termination_set_total `{SetOrder} s (D : gset nat) :
  valid s → (∀ i, i ∈ D → (i < n s)%nat) →
  ∃ l, Recovery.find_minimal_termination_set s D = Ok l.
Proof.
  intros Hvalid HD. unfold Recovery.find_minimal_termination_set.
  case_decide; [by eexists|].
  destruct (try_sizes_spec s Hvalid D 1 (size D) HD) as (sugg & -> & _).
  by eexists.
Qed.

(** ** A long chain of waiting processes *)

Lemma entry_replicate k v j : (j < k)%nat → entry (replicate k v) j = v.
Proof. intros Hj. unfold entry. by rewrite lookup_replicate_2. Qed.

Lemma lookup_fmap_range {A} (f : nat → A) (k i : nat) :
  (i < k)%nat → (f <$> range k) !! i = Some (f i).
Proof.
  intros Hi. rewrite list_lookup_fmap.
  change (range k !! i) with (seq 0 k !! i).
  by rewrite lookup_seq_lt.
Qed.

Lemma entry_fmap_range (f : nat → Z) (k j : nat) :
  (j < k)%nat → entry (f <$> range k) j = f j.
Proof. intros Hj. unfold entry. by rewrite lookup_fmap_range. Qed.

Lemma length_range k : length (range k) = k.
Proof. apply length_seq. Qed.

Lemma chain_state_size k : n (chain_state k) = k ∧ m (chain_state k) = k.
Proof. unfold n, m. simpl. by rewrite !length_fmap, length_range. Qed.

Lemma chain_state_alloc k i j :
  (i < k)%nat → (j < k)%nat →
  entry (alloc_row (chain_state k) i) j = if decide (j = i) then 1 else 0.
Proof.
  intros Hi Hj. unfold alloc_row. simpl.
  rewrite lookup_fmap_range by done. simpl. by rewrite entry_fmap_range.
Qed.

Lemma chain_state_req k i j :
  (i < k)%nat → (j < k)%nat →
  entry (req_row (chain_state k) i) j = if decide (j = S i) then 1 else 0.
Proof.
  intros Hi Hj. unfold req_row. simpl.
  rewrite lookup_fmap_range by done. simpl. by rewrite entry_fmap_range.
Qed.

Lemma column_sum_diagonal k j a b :
  (j < k)%nat →
  column_sum ((λ i, (λ j, if decide (j = i) then 1 else 0) <$> range k)
                <$> seq a b) j
  = if decide (a ≤ j < a + b)%nat then 1 else 0.
Proof.
  intros Hj. revert a. induction b as [|b IH]; intros a.
  - simpl. by rewrite decide_False by lia.
  - unfold column_sum in *. cbn [seq fmap list_fmap foldr].
    rewrite IH, entry_fmap_range by done.
    repeat case_decide; lia.
Qed.

Lemma valid_chain_state k : valid (chain_state k).
Proof.
  destruct (chain_state_size k) as [Hn Hm].
  split_and!.
  - unfold inv_dimensions. rewrite Hn, Hm. simpl.
    rewrite !length_fmap, length_replicate, length_range.
    split_and!; try done.
    all: apply Forall_fmap, Forall_forall; intros i _; simpl.
    all: by rewrite length_fmap, length_range.
  - unfold inv_nonneg. simpl. split_and!.
    + by apply Forall_replicate.
    + apply Forall_fmap, Forall_forall. intros i _. simpl.
      apply Forall_fmap, Forall_forall. intros j _. simpl. by case_decide.
    + apply Forall_fmap, Forall_forall. intros i _. simpl.
      apply Forall_fmap, Forall_forall. intros j _. simpl. by case_decide.
  - intros j rt Hrt. simpl in *.
    pose proof (lookup_lt_Some _ _ _ Hrt) as Hj.
    rewrite length_fmap, length_range in Hj.
    rewrite lookup_fmap_range in Hrt by done. injection Hrt as <-. simpl.
    rewrite entry_replicate by done.
    unfold range. rewrite column_sum_diagonal by done.
    rewrite decide_True by lia. done.
  - intros i j row rt Hrow Hrt. simpl in *.
    pose proof (lookup_lt_Some _ _ _ Hrt) as Hj.
    rewrite length_fmap, length_range in Hj.
    pose proof (lookup_lt_Some _ _ _ Hrow) as Hi.
    rewrite length_fmap, length_range in Hi.
    rewrite lookup_fmap_range in Hrt by done. injection Hrt as <-.
    rewrite lookup_fmap_range in Hrow by done. injection Hrow as <-. simpl.
    rewrite entry_fmap_range by done. by case_decide.
Qed.

Lemma single_instance_chain_state k : is_single_instance (chain_state k) = true.
Proof.
  unfold is_single_instance. simpl.
  induction (range k) as [|j l IH]; [done|]. simpl. exact IH.
Qed.

(** In the chain every process but the last waits for the next one, and
    for no other. *)
Lemma chain_state_waits k i v :
  waits_for (chain_state k) i v ↔ v = S i ∧ (S i < k)%nat.
Proof.
  destruct (chain_state_size k) as [Hn Hm].
  unfold waits_for. rewrite Hn, Hm. split.
  - intros (Hi & Hv & Hne & j & Hj & Hreq & Hal).
    rewrite chain_state_req in Hreq by done.
    rewrite chain_state_alloc in Hal by done.
    repeat case_decide; try done. split; lia.
  - intros [-> Hlt]. split_and!; [lia..|].
    exists (S i). split; [done|].
    rewrite chain_state_req, chain_state_alloc by lia.
    by rewrite !decide_True.
Qed.

Lemma chain_state_graph k i :
  (S i < k)%nat → wait_graph (chain_state k) !! i = Some {[S i]}.
Proof.
  intros Hi. destruct (chain_state_size k) as [Hn Hm].
  destruct (wait_graph_ok (chain_state k)) as [Hkeys _].
  destruct (Hkeys i) as [ws Hws]; [lia|].
  unfold wait_graph. rewrite Hws. f_equal.
  apply set_eq. intros v. rewrite elem_of_singleton.
  rewrite <- (and_True (v = S i)) at 1.
  transitivity (waits_for (chain_state k) i v).
  - rewrite <- adjacent_wait_graph. unfold adjacent. rewrite Hws. naive_solver.
  - rewrite chain_state_waits. naive_solver.
Qed.

Lemma chain_state_edges k : (2 ≤ k)%nat → wait_edges (chain_state k) ≠ [].
Proof.
  intros Hk Hnil. pose proof (chain_state_graph k 0 Hk) as Hg.
  unfold wait_graph in Hg. rewrite Hnil in Hg. simpl in Hg.
  rewrite empty_graph_lookup in Hg. case_decide; [|done].
  apply (inj Some) in Hg.
  assert (1%nat ∈ (∅ : gset nat)) as []%not_elem_of_empty.
  rewrite Hg. by apply elem_of_singleton.
Qed.

Section ChainSearch.
Context `{NeighbourOrder}.
Variable adj : gmap nat (gset nat).

Lemma neighbour_iter_singleton node v : neighbour_iter node {[v]} = [v].
Proof.
  apply Permutation_singleton_r.
  rewrite neighbour_iter_perm. by rewrite elements_singleton.
Qed.

(** Along a path of [WHITE] nodes that is longer than the number of free
    frames, [dfs] raises [RecursionError]. *)
Lemma dfs_chain_raises frames node st :
  (∀ i, (node ≤ i < node + frames)%nat → adj !! i = Some {[S i]}) →
  (∀ i, (node ≤ i ≤ node + frames)%nat → Wfg.color st !! i = Some Wfg.WHITE) →
  (node + frames < length (Wfg.parent st))%nat →
  Wfg.dfs adj frames node st = Raise RecursionError.
Proof.
  revert node st. induction frames as [|frames IH];
    intros node st Hadj Hwhite Hparent; [done|].
  cbn [Wfg.dfs].
  rewrite (py_setitem_lookup _ _ _ _ (Hwhite node ltac:(lia))).
  cbn [mbind outcome_mbind outcome_bind]. unfold Wfg.py_getitem.
  rewrite (Hadj node) by lia. cbn [mbind outcome_mbind outcome_bind].
  rewrite neighbour_iter_singleton. cbn [foldM Wfg.color Wfg.parent].
  assert (<[node:=Wfg.GRAY]> (Wfg.color st) !! S node = Some Wfg.WHITE) as Hc.
  { rewrite list_lookup_insert_ne by lia. apply Hwhite. lia. }
  rewrite (py_index_lookup _ _ _ Hc). cbn [mbind outcome_mbind outcome_bind].
  destruct (lookup_lt_is_Some_2 (Wfg.parent st) (S node)) as [p Hp]; [lia|].
  rewrite (py_setitem_lookup _ _ _ _ Hp).
  cbn [mbind outcome_mbind outcome_bind].
  rewrite IH; [done| | |].
  - intros i Hi. apply Hadj. lia.
  - intros i Hi. cbn [Wfg.color].
    rewrite list_lookup_insert_ne by lia. apply Hwhite. lia.
  - cbn [Wfg.parent]. rewrite length_insert. lia.
Qed.

End ChainSearch.

(** On a chain of more processes than there are frames free for the
    search, the Wait-For Graph Detector raises [RecursionError], under
    every order of the adjacency sets. *)
Lemma detect_deadlock_wfg_chain `{NeighbourOrder} `{CallStack} k :
  (2 ≤ k)%nat → (free_frames < k)%nat →
  Wfg.detect_deadlock_wfg (chain_state k) = Raise RecursionError.
Proof.
  intros Hk Hframes. destruct (chain_state_size k) as [Hn Hm].
  unfold Wfg.detect_deadlock_wfg.
  rewrite (build_wait_for_graph_spec _ (valid_dimensions _ (valid_chain_state k))).
  cbn [mbind outcome_mbind outcome_bind]. fold (wait_graph (chain_state k)).
  pose proof (chain_state_edges k Hk) as Hedges.
  destruct (wait_edges (chain_state k)) as [|e es]; [done|].
  rewrite Hn. unfold Wfg.detect_cycles_dfs.
  destruct k as [|k']; [lia|].
  unfold range. cbn [seq foldM Wfg.color Wfg.parent Wfg.found].
  rewrite (py_index_lookup _ 0 Wfg.WHITE) by done.
  cbn [mbind outcome_mbind outcome_bind].
  rewrite dfs_chain_raises; [done| | |].
  - intros i Hi. apply chain_state_graph. lia.
  - intros i Hi. cbn [Wfg.color]. apply lookup_replicate_2. lia.
  - cbn [Wfg.parent]. rewrite length_replicate. lia.
Qed.




(** The degenerate states are valid, so the theorem above covers them. *)
Lemma valid_degenerate_states : valid empty_state ∧ valid no_resources.
Proof. split; apply post_init_Ok; vm_compute; reflexivity. Qed.

(** ** The two detectors on single-instance states *)

Lemma single_instance_total s j rt :
  is_single_instance s = true → resource_types s !! j = Some rt →
  instances rt = 1.
Proof.
  unfold is_single_instance. intros Hall%Is_true_true Hrt.
  rewrite forallb_True, Forall_lookup in Hall.
  apply Z.eqb_eq, Is_true_true, (Hall j rt Hrt).
Qed.

Lemma vec_le_or_witness k a b :
  vec_le k a b ∨ ∃ j, (j < k)%nat ∧ entry b j < entry a j.
Proof.
  induction k as [|k [IH|(j & Hj & Hlt)]].
  - left. intros j Hj. lia.
  - destruct (decide (entry a k ≤ entry b k)) as [Hle|Hgt].
    + left. intros j Hj. destruct (decide (j = k)) as [->|]; [done|].
      apply IH. lia.
    + right. exists k. split; [lia|lia].
  - right. exists j. split; [lia|done].
Qed.

Lemma sum_over_pos_witness f l : 0 < sum_over f l → ∃ x, x ∈ l ∧ 0 < f x.
Proof.
  induction l as [|x l IH]; [rewrite sum_over_nil; lia|].
  rewrite sum_over_cons. intros Hpos.
  destruct (decide (0 < f x)) as [Hx|Hx].
  - exists x. split; [set_solver|done].
  - destruct IH as (y & Hy & Hfy); [lia|]. exists y. split; [set_solver|done].
Qed.

Section SingleInstance.
Variable s : SystemState.
Variable order : list nat.
Hypothesis Hvalid : valid s.
Hypothesis Hsingle : is_single_instance s = true.
Hypothesis Hnd : NoDup order.
Hypothesis Hlf : lowest_first s order.

Lemma column_total j :
  (j < m s)%nat →
  entry (available s) j
  + sum_over (λ i, entry (alloc_row s i) j) (range (n s)) = 1.
Proof.
  intros Hj. destruct (lookup_lt_is_Some_2 (resource_types s) j) as [rt Hrt];
    [done|].
  pose proof Hvalid as (Hdim & _ & Hcons & _).
  rewrite <- (single_instance_total s j rt Hsingle Hrt), <- (Hcons j rt Hrt).
  rewrite column_sum_sum_over. destruct Hdim as (_ & [-> _] & _). done.
Qed.

Lemma held_nonneg j i : 0 ≤ entry (alloc_row s i) j.
Proof. by apply entry_nonneg, alloc_row_nonneg. Qed.

(** A set of processes each waiting for a member of the set never
    finishes. *)
Lemma closed_set_unfinished (C : nat → Prop) :
  (∀ u, C u → ∃ v, waits_for s u v ∧ C v) →
  ∀ p e, order !! p = Some e → ¬ C e.
Proof.
  intros Hclosed p. induction p as [p IH] using lt_wf_ind. intros e Hp HC.
  destruct (Hclosed e HC) as (v & (He & Hv & Hne & j & Hj & Hreq & Hheld) & HCv).
  destruct (Hlf p e Hp) as [(_ & _ & Hle) _].
  specialize (Hle j Hj).
  pose proof (valid_dimensions s Hvalid) as Hdim.
  assert (∀ i, i ∈ take p order → (i < n s)%nat) as Hlt.
  { intros i (q & Hq & _)%elem_of_take.
    eapply lowest_first_lt; [done|]. by eapply list_elem_of_lookup_2. }
  rewrite entry_work_after in Hle by done.
  assert (v ∉ take p order) as Hnotin.
  { intros (q & Hq & Hlt')%elem_of_take. by apply (IH q Hlt' v). }
  assert (take p order ++ [v] ⊆+ range (n s)) as Hsub.
  { apply NoDup_submseteq.
    - apply NoDup_app. split_and!.
      + eapply sublist_NoDup; [done|apply sublist_take].
      + intros x Hx ->%list_elem_of_singleton. done.
      + apply NoDup_singleton.
    - intros x [Hx| ->%list_elem_of_singleton]%elem_of_app;
        apply elem_of_range; auto. }
  apply (sum_over_submseteq (λ i, entry (alloc_row s i) j)) in Hsub;
    [|intros i; apply held_nonneg].
  rewrite sum_over_app, sum_over_cons, sum_over_nil in Hsub.
  pose proof (column_total j Hj). lia.
Qed.

Hypothesis Hex : exhausted s order.
Hypothesis Hself : no_self_request s.

(** An unfinished process waits for an unfinished process. *)
Lemma unfinished_waits u :
  u ∈ unfinished s order →
  ∃ h, waits_for s u h ∧ h ∈ unfinished s order.
Proof.
  intros [Hu Hnotin]%elem_of_unfinished.
  pose proof (valid_dimensions s Hvalid) as Hdim.
  destruct (vec_le_or_witness (m s) (req_row s u) (work_after s order))
    as [Hle|(j & Hj & Hlt)].
  { destruct (Hex u). by split_and!. }
  assert (∀ i, i ∈ order → (i < n s)%nat) as Hlt'
    by (intros i; by apply lowest_first_lt).
  rewrite entry_work_after in Hlt by done.
  pose proof (column_total j Hj) as Htotal.
  assert (0 ≤ entry (available s) j) as Hav.
  { pose proof Hvalid as (_ & (Hav & _) & _). by apply entry_nonneg. }
  assert (0 ≤ sum_over (λ i, entry (alloc_row s i) j) order) as Hsum.
  { apply sum_over_nonneg. intros i. apply held_nonneg. }
  assert (entry (req_row s u) j ≤ 1) as Hbound.
  { destruct (lookup_lt_is_Some_2 (resource_types s) j) as [rt Hrt]; [done|].
    rewrite <- (single_instance_total s j rt Hsingle Hrt).
    pose proof Hvalid as (_ & _ & _ & Hb).
    destruct (req_row_lookup s Hdim u Hu) as [Hr _]. by apply (Hb u). }
  destruct (sum_over_pos_witness (λ i, entry (alloc_row s i) j) (range (n s)))
    as (h & Hh%elem_of_range & Hheld); [lia|].
  assert (h ∉ order) as Hhn.
  { intros Hin.
    assert ([h] ⊆+ order) as Hsub.
    { apply NoDup_submseteq; [apply NoDup_singleton|].
      by intros x ->%list_elem_of_singleton. }
    apply (sum_over_submseteq (λ i, entry (alloc_row s i) j)) in Hsub;
      [|intros i; apply held_nonneg].
    rewrite sum_over_cons, sum_over_nil in Hsub. lia. }
  exists h. split.
  - split_and!; [done|done| |].
    + intros ->. apply (Hself u j). split; [lia|done].
    + exists j. split_and!; [done|lia|done].
  - by apply elem_of_unfinished.
Qed.

End SingleInstance.




(** On the degenerate states the four functions return these results. *)
Lemma degenerate_states_run :
  (∃ rm rw, detect_deadlock_matrix empty_state = Ok rm ∧
     @Wfg.detect_deadlock_wfg (uniform_order ascending_order) default_stack
       empty_state = Ok rw ∧
     deadlocked rm = false ∧ Wfg.deadlocked rw = false ∧
     @Recovery.find_minimal_termination_set ascending_order empty_state ∅
     = Ok [] ∧
     Recovery.suggest_preemption_targets empty_state ∅ = Ok []) ∧
  (∃ rm rw, detect_deadlock_matrix no_resources = Ok rm ∧
     @Wfg.detect_deadlock_wfg (uniform_order ascending_order) default_stack
       no_resources = Ok rw ∧
     deadlocked rm = false ∧ execution_order rm = [0; 1; 2]%nat ∧
     Wfg.deadlocked rw = false ∧
     Recovery.suggest_preemption_targets no_resources {[0%nat; 2%nat]}
     = Ok []).
Proof.
  split; eexists _, _; (split; [vm_compute; reflexivity|]);
    (split; [vm_compute; reflexivity|]); repeat split; vm_compute; reflexivity.
Qed.

(* ================================================================== *)
(** * Further properties of the code *)

(** ** Vector helpers *)

(** X1. [vector_add] and [vector_less_equal] work on the positions the two
    vectors share: the sum is as long as the shorter vector, and the
    comparison looks at those positions only, ignoring the rest of the
    longer one. *)
Theorem vector_helpers_use_common_prefix (a b : list Z) :
  length (vector_add a b) = (length a `min` length b)%nat ∧
  (∀ j x y, a !! j = Some x → b !! j = Some y →
            vector_add a b !! j = Some (x + y)) ∧
  (vector_less_equal a b = true
   ↔ ∀ j x y, a !! j = Some x → b !! j = Some y → x ≤ y).
Proof.
  split; [apply length_vector_add|]. split; [apply lookup_vector_add|].
  unfold vector_less_equal.
  etrans; [symmetry; apply Is_true_true|].
  rewrite forallb_True, Forall_lookup. split.
  - intros Hall j x y Hx Hy. specialize (Hall j (x, y)). simpl in Hall.
    apply Z.leb_le, Is_true_true, Hall.
    rewrite lookup_zip_with, Hx. simpl. by rewrite Hy.
  - intros Hall j [x y] Hxy.
    apply lookup_zip_with_Some in Hxy as (x' & y' & [= <- <-] & Hx & Hy).
    simpl. apply Is_true_true, Z.leb_le. eauto.
Qed.

(** ** Constructors and copies *)

Lemma new_Process_Ok pid nm p :
  new_Process pid nm = Ok p ↔ 0 ≤ pid ∧ p = mkProcess pid nm.
Proof.
  unfold new_Process. destruct (Z.ltb_spec pid 0); split.
  - intros [=].
  - intros [? _]. lia.
  - intros [= <-]. done.
  - by intros [_ ->].
Qed.

Lemma new_ResourceType_Ok rid nm k r :
  new_ResourceType rid nm k = Ok r
  ↔ 0 ≤ rid ∧ 0 ≤ k ∧ r = mkResourceType rid nm k.
Proof.
  unfold new_ResourceType.
  destruct (Z.ltb_spec rid 0); [|destruct (Z.ltb_spec k 0)]; split.
  - intros [=].
  - intros [? _]. lia.
  - intros [=].
  - intros (_ & ? & _). lia.
  - intros [= <-]. done.
  - by intros (_ & _ & ->).
Qed.

Lemma mapM_rebuild {A} (f : A → outcome A) (Q : A → Prop) (l l' : list A) :
  (∀ x y, f x = Ok y ↔ Q x ∧ y = x) →
  mapM f l = Ok l' ↔ Forall Q l ∧ l' = l.
Proof.
  intros Hf. revert l'. induction l as [|x l IH]; intros l'; simpl.
  - split; [by intros [= <-]|by intros [_ ->]].
  - rewrite bind_Ok. split.
    + intros (y & [HQ ->]%Hf & Hrest).
      apply bind_Ok in Hrest as (ys & [Hall ->]%IH & [= <-]).
      split; [by constructor|done].
    + intros [Hall ->]. apply Forall_cons in Hall as [HQ Hall].
      exists x. split; [by apply Hf|].
      apply bind_Ok. exists l. split; [by apply IH|done].
Qed.

Lemma valid_instances_nonneg s :
  valid s → Forall (λ rt, 0 ≤ instances rt) (resource_types s).
Proof.
  intros Hv. pose proof Hv as (_ & (Hav & _) & Hcons & _).
  rewrite Forall_lookup. intros j rt Hrt.
  rewrite <- (Hcons j rt Hrt), column_sum_sum_over.
  pose proof (entry_nonneg _ j Hav).
  assert (0 ≤ sum_over (λ i, entry (alloc_row s i) j)
                  (seq 0 (length (allocation s)))); [|lia].
  apply sum_over_nonneg. intros i. by apply entry_nonneg, alloc_row_nonneg.
Qed.

(** X2. [clone] returns a state exactly when the state is valid and the ids
    of its processes and resource types are non-negative, and the state it
    returns is equal to the original. *)
Theorem clone_returns_equal_state (s s' : SystemState) :
  clone s = Ok s' ↔
  s' = s ∧ valid s ∧
  Forall (λ p, 0 ≤ pid p) (processes s) ∧
  Forall (λ rt, 0 ≤ rid rt) (resource_types s).
Proof.
  unfold clone. rewrite bind_Ok.
  setoid_rewrite (mapM_rebuild _ (λ p, 0 ≤ pid p)).
  2:{ intros [i nm] y. simpl. rewrite new_Process_Ok. naive_solver. }
  split.
  - intros (ps & [Hps ->] & Hrest).
    apply bind_Ok in Hrest as (rts & Hrts & Hnew).
    apply (mapM_rebuild _ (λ rt, 0 ≤ rid rt ∧ 0 ≤ instances rt)) in Hrts
      as [Hrts ->].
    2:{ intros [i nm k] y. simpl. rewrite new_ResourceType_Ok. naive_solver. }
    unfold new_SystemState in Hnew.
    apply bind_unit_Ok in Hnew as [Hpost [= <-]].
    destruct s as [ps rts av al rq]. simpl in *.
    split; [done|]. split; [by apply post_init_Ok|]. split; [done|].
    eapply Forall_impl; [exact Hrts|]. by intros rt [? _].
  - intros (-> & Hv & Hps & Hrts).
    exists (processes s). split; [done|].
    apply bind_Ok. exists (resource_types s). split.
    + apply (mapM_rebuild _ (λ rt, 0 ≤ rid rt ∧ 0 ≤ instances rt)).
      { intros [i nm k] y. simpl. rewrite new_ResourceType_Ok. naive_solver. }
      split; [|done]. pose proof (valid_instances_nonneg s Hv) as Hinst.
      rewrite Forall_lookup in *. naive_solver.
    + by apply new_SystemState_valid.
Qed.

(** ** States without requests *)

Lemma no_requests_entry s i j : no_requests s → entry (req_row s i) j = 0.
Proof.
  intros Hno. unfold entry, req_row.
  destruct (request s !! i) as [row|] eqn:Hrow; simpl; [|done].
  destruct (row !! j) as [v|] eqn:Hv; simpl; [|done].
  unfold no_requests in Hno. rewrite Forall_lookup in Hno.
  specialize (Hno i row Hrow). rewrite Forall_lookup in Hno. eauto.
Qed.

Lemma no_requests_order s :
  valid s → no_requests s →
  lowest_first s (range (n s)) ∧ exhausted s (range (n s)).
Proof.
  intros Hvalid Hno. split.
  - intros k i Hk. unfold range in Hk. apply lookup_seq in Hk as [-> Hk].
    simpl. unfold range. rewrite take_seq, Nat.min_l by lia. split.
    + split_and!; [done|by rewrite elem_of_seq; lia|].
      intros j Hj. rewrite no_requests_entry by done.
      apply entry_nonneg, work_after_nonneg; [done|].
      intros i. rewrite elem_of_seq. lia.
    + intros j Hj (_ & Hnotin & _). apply Hnotin. rewrite elem_of_seq. lia.
  - intros j (Hj & Hnotin & _). apply Hnotin. by apply elem_of_range.
Qed.

Lemma unfinished_range s : unfinished s (range (n s)) = ∅.
Proof.
  apply set_eq. intros i. rewrite elem_of_unfinished, elem_of_range.
  split; [tauto|]. by intros ?%not_elem_of_empty.
Qed.

Lemma wait_edges_no_requests s : no_requests s → wait_edges s = [].
Proof.
  intros Hno. apply elem_of_nil_inv. intros e He.
  apply elem_of_wait_edges in He as (i & k & j & _ & _ & _ & _ & _ & Hreq & _).
  rewrite no_requests_entry in Hreq by done. lia.
Qed.

(** The result of the Wait-For Graph Detector: its edges, and the shape of
    its trace. *)
Lemma detect_deadlock_wfg_result `{NeighbourOrder} `{CallStack} s :
  inv_dimensions s → wait_edges s = [] ∨ (n s < free_frames)%nat →
  ∃ w rest, Wfg.detect_deadlock_wfg s = Ok w ∧
    Wfg.wait_for_edges w = wait_edges s ∧
    (wait_edges s = [] → Wfg.cycles w = [] ∧ Wfg.deadlocked w = false) ∧
    Wfg.trace w
    = wfg_header s ++ (if is_single_instance s then [] else wfg_warning)
        ++ ["Step 1: Building Wait-For Graph"] ++ rest ∧
    Forall (λ l, l ≠ "WARNING: Not all resources have single instance!") rest.
Proof.
  intros Hdim Hframes. unfold Wfg.detect_deadlock_wfg.
  rewrite (build_wait_for_graph_spec s Hdim).
  cbn [mbind outcome_mbind outcome_bind]. fold (wait_graph s).
  assert (∀ tail,
    (if negb (is_single_instance s)
     then wfg_header s ++ wfg_warning else wfg_header s)
      ++ ["Step 1: Building Wait-For Graph"] ++ tail
    = wfg_header s ++ (if is_single_instance s then [] else wfg_warning)
        ++ ["Step 1: Building Wait-For Graph"] ++ tail) as Htrace.
  { intros tail. destruct (is_single_instance s); cbn [negb]; [done|].
    by rewrite <- (app_assoc (wfg_header s)). }
  fold (wfg_header s). fold wfg_warning.
  destruct (wait_edges s) as [|e es] eqn:Hedges.
  - eexists _, _. split; [reflexivity|]. cbn [Wfg.wait_for_edges Wfg.cycles
      Wfg.deadlocked Wfg.trace].
    split; [done|]. split; [done|]. split.
    + rewrite <- app_assoc. apply Htrace.
    + repeat constructor; done.
  - destruct Hframes as [[=]|Hframes].
    destruct (detect_cycles_dfs_spec (wait_graph s) (n s))
      as (cycles & -> & _); [apply wait_graph_ok|done|].
    cbn [mbind outcome_mbind outcome_bind].
    destruct cycles as [|c cycles].
    + eexists _, _. split; [reflexivity|]. cbn [Wfg.wait_for_edges Wfg.cycles
        Wfg.deadlocked Wfg.trace].
      split; [done|]. split; [done|]. split.
      * rewrite <- !app_assoc. apply Htrace.
      * repeat (apply Forall_app; split); try (repeat constructor; done).
        apply Forall_fmap, Forall_forall. intros x _. simpl. intros [=].
    + eexists _, _. split; [reflexivity|]. cbn [Wfg.wait_for_edges Wfg.cycles
        Wfg.deadlocked Wfg.trace].
      split; [done|]. split; [done|]. split.
      * rewrite <- !app_assoc. apply Htrace.
      * repeat (apply Forall_app; split); try (repeat constructor; done).
        all: try (apply Forall_fmap, Forall_forall; intros x _; simpl;
                  intros [=]).
        all: repeat constructor; try done; simpl; intros [=].
Qed.

Lemma finish_of_range k : finish_of k (range k) = replicate k true.
Proof.
  unfold finish_of. apply list_eq. intros i. rewrite list_lookup_fmap.
  change (range k !! i) with (seq 0 k !! i).
  destruct (decide (i < k)%nat) as [Hi|Hi].
  - rewrite lookup_seq_lt by done. simpl.
    rewrite (lookup_replicate_2 k true i Hi). f_equal.
    apply bool_decide_eq_true_2. by apply elem_of_range.
  - rewrite lookup_seq_ge by lia. simpl. symmetry.
    apply lookup_replicate_None. lia.
Qed.

(** X3. On a valid state in which no process requests anything, the Matrix
    Detector finishes the processes in ascending id order and reports no
    deadlock, and the Wait-For Graph Detector finds no edge, no cycle and
    no deadlock, whatever the iteration order of sets and the number of
    free frames. *)
Theorem no_requests_no_deadlock `{NeighbourOrder} `{CallStack}
    (s : SystemState) :
  valid s → no_requests s →
  (∃ r, detect_deadlock_matrix s = Ok r ∧
     deadlocked r = false ∧ deadlocked_processes r = ∅ ∧
     execution_order r = range (n s) ∧ finish r = replicate (n s) true) ∧
  (∃ w, Wfg.detect_deadlock_wfg s = Ok w ∧
     Wfg.deadlocked w = false ∧ Wfg.deadlocked_processes w = ∅ ∧
     Wfg.wait_for_edges w = [] ∧ Wfg.cycles w = []).
Proof.
  intros Hvalid Hno. pose proof (valid_dimensions s Hvalid) as Hdim. split.
  - destruct (detect_deadlock_matrix_spec s Hdim)
      as (order & tr & -> & _ & Hlf & Hex).
    destruct (no_requests_order s Hvalid Hno) as [Hlf' Hex'].
    rewrite (lowest_first_unique s order (range (n s))) by done.
    eexists. split; [reflexivity|]. simpl.
    rewrite unfinished_range, finish_of_range. by split_and!.
  - pose proof (wait_edges_no_requests s Hno) as Hwe.
    destruct (detect_deadlock_wfg_result s Hdim (or_introl Hwe))
      as (w & rest & Hw & Hedges & Hnone & _).
    destruct (detect_deadlock_wfg_spec s Hdim (or_introl Hwe))
      as (w' & Hw' & _ & _ & Hmem & _).
    rewrite Hw in Hw'. injection Hw' as <-.
    destruct (Hnone Hwe) as [Hcycles Hflag].
    exists w. split_and!; try done; [|congruence].
    apply set_eq. intros x. rewrite Hmem, Hcycles. split.
    + intros (c & Hc & _). by apply elem_of_nil in Hc.
    + by intros ?%not_elem_of_empty.
Qed.

Lemma no_requests_no_deadlock_witness :
  (∃ r, detect_deadlock_matrix (state_of [2; 1] [0; 1] [[1; 0]; [1; 0]]
                                  [[0; 0]; [0; 0]]) = Ok r ∧
     deadlocked r = false ∧ deadlocked_processes r = ∅ ∧
     execution_order r = range 2 ∧ finish r = replicate 2 true) ∧
  (∃ w, @Wfg.detect_deadlock_wfg alternating_order default_stack
          (state_of [2; 1] [0; 1] [[1; 0]; [1; 0]] [[0; 0]; [0; 0]]) = Ok w ∧
     Wfg.deadlocked w = false ∧ Wfg.deadlocked_processes w = ∅ ∧
     Wfg.wait_for_edges w = [] ∧ Wfg.cycles w = []).
Proof.
  apply (@no_requests_no_deadlock alternating_order default_stack
           (state_of [2; 1] [0; 1] [[1; 0]; [1; 0]] [[0; 0]; [0; 0]])).
  - apply post_init_Ok. vm_compute. reflexivity.
  - repeat constructor.
Defined.

(** ** The empty template *)

Lemma numbered_processes_Ok k :
  numbered_processes k
  = Ok ((λ i, mkProcess (Z.of_nat i) ("P" +:+ pretty i)) <$> range k).
Proof.
  apply mapM_Ok_fmap. intros i _. apply new_Process_Ok. split; [lia|done].
Qed.

Lemma numbered_single_resources_Ok k :
  numbered_single_resources k
  = Ok ((λ j, mkResourceType (Z.of_nat j) ("R" +:+ pretty j) 1) <$> range k).
Proof.
  apply mapM_Ok_fmap. intros j _. apply new_ResourceType_Ok.
  split_and!; [lia|lia|done].
Qed.

Lemma column_sum_zero np nr j :
  column_sum (replicate np (replicate nr 0)) j = 0.
Proof.
  induction np as [|np IH]; [done|].
  change (column_sum (replicate (S np) (replicate nr 0)) j)
    with (entry (replicate nr 0) j + column_sum (replicate np (replicate nr 0)) j).
  rewrite IH. unfold entry.
  destruct (replicate nr 0 !! j) as [v|] eqn:Hv; simpl; [|done].
  apply lookup_replicate in Hv as [-> _]. done.
Qed.

Lemma valid_empty_template np nr : valid (empty_template np nr).
Proof.
  assert (length (range np) = np ∧ length (range nr) = nr) as [Hnp Hnr].
  { unfold range. by rewrite !length_seq. }
  split_and!.
  - unfold inv_dimensions, n, m. simpl.
    rewrite !length_fmap, !length_replicate, Hnp, Hnr.
    split_and!; try done.
    all: apply Forall_replicate; by rewrite length_replicate.
  - unfold inv_nonneg. simpl. split_and!.
    + by apply Forall_replicate.
    + by apply Forall_replicate, Forall_replicate.
    + by apply Forall_replicate, Forall_replicate.
  - intros j rt Hrt. simpl in *.
    rewrite list_lookup_fmap in Hrt.
    destruct (range nr !! j) as [j'|] eqn:Hj; simplify_eq/=.
    apply lookup_lt_Some in Hj. rewrite Hnr in Hj.
    rewrite entry_replicate, column_sum_zero by done. done.
  - intros i j row rt Hrow Hrt. simpl in *.
    apply lookup_replicate in Hrow as [-> _].
    rewrite list_lookup_fmap in Hrt.
    destruct (range nr !! j) as [j'|] eqn:Hj; simplify_eq/=.
    apply lookup_lt_Some in Hj. rewrite Hnr in Hj.
    rewrite entry_replicate by done. done.
Qed.

(** X4. [create_empty_system_state] never raises, for any two integers: it
    returns a valid, single-instance state with [max(num_processes, 0)]
    processes and [max(num_resources, 0)] resource types in which nothing
    is requested, and on which neither detector reports a deadlock. *)
Theorem create_empty_system_state_valid `{NeighbourOrder} `{CallStack}
    (num_processes num_resources : Z) :
  ∃ s, create_empty_system_state num_processes num_resources = Ok s ∧
    s = empty_template (Z.to_nat num_processes) (Z.to_nat num_resources) ∧
    valid s ∧
    Z.of_nat (n s) = 0 `max` num_processes ∧
    Z.of_nat (m s) = 0 `max` num_resources ∧
    is_single_instance s = true ∧ no_requests s ∧
    (∃ r, detect_deadlock_matrix s = Ok r ∧ deadlocked r = false) ∧
    (∃ w, Wfg.detect_deadlock_wfg s = Ok w ∧ Wfg.deadlocked w = false).
Proof.
  set (np := Z.to_nat num_processes). set (nr := Z.to_nat num_resources).
  pose proof (valid_empty_template np nr) as Hvalid.
  assert (no_requests (empty_template np nr)) as Hno.
  { unfold no_requests. simpl. by apply Forall_replicate, Forall_replicate. }
  exists (empty_template np nr). split_and!; try done.
  - unfold create_empty_system_state. fold np nr.
    rewrite numbered_processes_Ok, numbered_single_resources_Ok.
    cbn [mbind outcome_mbind outcome_bind].
    by apply new_SystemState_Ok.
  - unfold n. simpl. unfold range. rewrite length_fmap, length_seq. lia.
  - unfold m. simpl. unfold range. rewrite length_fmap, length_seq. lia.
  - unfold is_single_instance. simpl.
    apply Is_true_true, forallb_True, Forall_fmap, Forall_forall.
    by intros j _.
  - destruct (detect_deadlock_matrix_spec _ (valid_dimensions _ Hvalid))
      as (order & tr & Hr & _ & Hlf & Hex).
    destruct (no_requests_order _ Hvalid Hno) as [Hlf' Hex'].
    rewrite (lowest_first_unique _ order _ Hlf Hex Hlf' Hex') in Hr.
    eexists. split; [exact Hr|]. cbn [deadlocked].
    by rewrite unfinished_range.
  - pose proof (wait_edges_no_requests _ Hno) as Hwe.
    destruct (detect_deadlock_wfg_result _ (valid_dimensions _ Hvalid)
                (or_introl Hwe)) as (w & rest & Hw & _ & Hnone & _).
    exists w. split; [done|]. by apply Hnone.
Qed.

(** ** The trace and the graph of the Wait-For Graph Detector *)



Lemma add_edges_keys_inv adj es i :
  is_Some (add_edges adj es !! i) →
  is_Some (adj !! i) ∨ ∃ e, e ∈ es ∧ Wfg.from_pid e = i.
Proof.
  revert adj. induction es as [|e es IH]; intros adj; simpl; [by left|].
  intros [Hi|(e' & He' & Hfrom)]%IH.
  - destruct (decide (Wfg.from_pid e = i)) as [Heq|Hne].
    + right. exists e. split; [set_solver|done].
    + rewrite lookup_insert_ne in Hi by done. by left.
  - right. exists e'. split; [set_solver|done].
Qed.

(** No edge is recorded twice. *)
Lemma NoDup_wait_edges s : NoDup (wait_edges s).
Proof.
  unfold wait_edges. apply NoDup_bind; [| |apply NoDup_seq].
  { intros i1 i2 e _ _ H1 H2. edge_of H1. edge_of H2. by simplify_eq. }
  intros i _. apply NoDup_bind; [| |apply NoDup_seq].
  { intros j1 j2 e _ _ H1 H2. edge_of H1. edge_of H2. simplify_eq. lia. }
  intros j _. destruct (bool_decide _); [|constructor].
  apply NoDup_bind; [| |apply NoDup_seq].
  { intros k1 k2 e _ _ H1 H2. edge_of H1. edge_of H2. by simplify_eq. }
  intros k _. destruct (bool_decide _); [apply NoDup_singleton|constructor].
Qed.

(** Every member of a cycle is the neighbour of a member of the cycle. *)
Lemma cycle_pred adj c u :
  is_cycle adj c → u ∈ c → ∃ p, p ∈ c ∧ adjacent adj p u.
Proof.
  intros (x & Hhead & Hchain) [q Hq]%list_elem_of_lookup.
  destruct q as [|q].
  - assert (u = x) as -> by (destruct c; simpl in *; congruence).
    assert (length c ≠ 0)%nat as Hlen by (by destruct c).
    destruct (lookup_lt_is_Some_2 c (length c - 1)) as [a Ha]; [lia|].
    exists a. split; [by eapply list_elem_of_lookup_2|].
    apply (chain_lookup adj (c ++ [x]) (length c - 1)); [done| |].
    + by apply lookup_app_l_Some.
    + replace (S (length c - 1)) with (length c + 0)%nat by lia.
      by rewrite lookup_app_r, Nat.add_comm, Nat.add_sub by lia.
  - destruct (lookup_lt_is_Some_2 c q) as [a Ha].
    { apply lookup_lt_Some in Hq. lia. }
    exists a. split; [by eapply list_elem_of_lookup_2|].
    apply (chain_lookup adj (c ++ [x]) q); [done|by apply lookup_app_l_Some..].
Qed.

(** X6. [build_wait_for_graph] returns on every valid state.  Its
    dictionary has exactly the keys [0 .. n-1]; its list holds, once each,
    the edges [i → k] on [j] for which process [i] requests resource type
    [j] and another process [k] holds an instance of it; and [k] is in the
    set of [i] exactly when the list has an edge from [i] to [k]. *)
Theorem wait_for_graph_of_state (s : SystemState) :
  valid s →
  ∃ adjacency edges, Wfg.build_wait_for_graph s = Ok (adjacency, edges) ∧
    (∀ i, is_Some (adjacency !! i) ↔ (i < n s)%nat) ∧
    (∀ e, e ∈ edges ↔
       ∃ i k j, e = Wfg.mkWaitForEdge i k (Z.of_nat j) ∧
         (i < n s)%nat ∧ (k < n s)%nat ∧ (j < m s)%nat ∧ k ≠ i ∧
         0 < entry (req_row s i) j ∧ 0 < entry (alloc_row s k) j) ∧
    NoDup edges ∧
    (∀ i k, adjacent adjacency i k
            ↔ ∃ e, e ∈ edges ∧ Wfg.from_pid e = i ∧ Wfg.to_pid e = k).
Proof.
  intros Hdim%valid_dimensions.
  exists (add_edges (empty_graph (n s)) (wait_edges s)), (wait_edges s).
  split; [by apply build_wait_for_graph_spec|]. split_and!.
  - intros i. split.
    + intros [Hi|(e & He & <-)]%add_edges_keys_inv.
      * rewrite empty_graph_lookup in Hi. case_decide; [done|].
        by destruct Hi.
      * apply elem_of_wait_edges in He as (i' & k & j & -> & ?). simpl. tauto.
    + apply wait_graph_ok.
  - apply elem_of_wait_edges.
  - apply NoDup_wait_edges.
  - intros i k. rewrite adjacent_add_edges. split; [|by right].
    by intros [[]%adjacent_empty_graph|?].
Qed.

Lemma wait_for_graph_of_state_witness :
  ∃ adjacency edges,
    Wfg.build_wait_for_graph scenario_A = Ok (adjacency, edges) ∧
    (∀ i, is_Some (adjacency !! i) ↔ (i < n scenario_A)%nat) ∧
    (∀ e, e ∈ edges ↔
       ∃ i k j, e = Wfg.mkWaitForEdge i k (Z.of_nat j) ∧
         (i < n scenario_A)%nat ∧ (k < n scenario_A)%nat ∧
         (j < m scenario_A)%nat ∧ k ≠ i ∧
         0 < entry (req_row scenario_A i) j ∧
         0 < entry (alloc_row scenario_A k) j) ∧
    NoDup edges ∧
    (∀ i k, adjacent adjacency i k
            ↔ ∃ e, e ∈ edges ∧ Wfg.from_pid e = i ∧ Wfg.to_pid e = k).
Proof.
  apply (wait_for_graph_of_state scenario_A).
  apply post_init_Ok. vm_compute. reflexivity.
Defined.

(** No cycle in a graph whose search recorded none. *)
Lemma ranked_no_cycle adj k fin c :
  graph_ok adj k → (∀ v, (v < k)%nat → v ∈ fin) → ranked adj fin →
  ¬ is_cycle adj c.
Proof.
  intros [_ Hlt] Hfin Hrank Hc.
  destruct Hc as (x & Hhead & Hchain).
  assert (is_cycle adj c) as Hcyc by (by exists x).
  assert (x ∈ c) as Hx.
  { destruct c; simpl in *; [done|]. simplify_eq. set_solver. }
  refine (ranked_no_closed_set adj fin (λ u, u ∈ c) Hrank _ x Hx).
  intros u Hu. split.
  - destruct (cycle_pred adj c u Hcyc Hu) as (p & _ & Hadj). eauto.
  - by apply cycle_closed.
Qed.



(** What the Wait-For Graph Detector reports, in terms of the wait-for
    relation of the state. *)
Lemma detect_deadlock_wfg_cycles `{NeighbourOrder} `{CallStack} s :
  inv_dimensions s → wait_edges s = [] ∨ (n s < free_frames)%nat →
  ∃ w, Wfg.detect_deadlock_wfg s = Ok w ∧
    Wfg.wait_for_edges w = wait_edges s ∧
    (Wfg.deadlocked w = true ↔ ∃ c, is_cycle (wait_graph s) c) ∧
    (Wfg.deadlocked w = true ↔ Wfg.deadlocked_processes w ≠ ∅) ∧
    (∀ u, u ∈ Wfg.deadlocked_processes w →
       ∃ c, is_cycle (wait_graph s) c ∧ u ∈ c ∧
            ∀ v, v ∈ c → v ∈ Wfg.deadlocked_processes w).
Proof.
  intros Hdim Hframes.
  destruct (detect_deadlock_wfg_result s Hdim Hframes)
    as (w & rest & Hw & Hedges & _).
  destruct (detect_deadlock_wfg_spec s Hdim Hframes)
    as (w' & Hw' & Hgood & Hflag & Hmem & Hnone).
  rewrite Hw in Hw'. injection Hw' as <-.
  exists w. split; [done|]. split; [done|].
  rewrite Forall_forall in Hgood.
  assert (Wfg.deadlocked w = true ↔ ∃ c, is_cycle (wait_graph s) c) as Hiff.
  { rewrite Hflag. split.
    - destruct (Wfg.cycles w) as [|c cs] eqn:Hcs; [done|]. intros _.
      destruct (Hgood c) as [Hc _]; [set_solver|]. eauto.
    - intros [c Hc] Hcs. destruct (Hnone Hcs) as (fin & Hfin & Hrank).
      apply (ranked_no_cycle (wait_graph s) (n s) fin c); try done.
      apply wait_graph_ok. }
  split; [done|]. split.
  - rewrite Hflag. split.
    + destruct (Wfg.cycles w) as [|c cs] eqn:Hcs; [done|]. intros _ Hempty.
      destruct (Hgood c) as [(x & Hhead & _) _]; [set_solver|].
      assert (x ∈ Wfg.deadlocked_processes w) as Hx.
      { apply Hmem. exists c. split; [set_solver|].
        destruct (Wfg.processes c); simpl in *; [done|].
        simplify_eq. set_solver. }
      rewrite Hempty in Hx. by apply not_elem_of_empty in Hx.
    + intros Hne Hcs. apply Hne, set_eq. intros x. rewrite Hmem, Hcs.
      split; [|by intros ?%not_elem_of_empty].
      by intros (c & ?%not_elem_of_nil & _).
  - intros u (c & Hc & Hu)%Hmem. exists (Wfg.processes c).
    split; [by apply Hgood|]. split; [done|].
    intros v Hv. apply Hmem. eauto.
Qed.





(** ** The recovery check *)

Lemma list_eq_entry (a b : list Z) :
  length a = length b →
  (∀ j, (j < length a)%nat → entry a j = entry b j) → a = b.
Proof.
  intros Hlen Hent. apply list_eq. intros j.
  destruct (decide (j < length a)%nat) as [Hj|Hj].
  - specialize (Hent j Hj). unfold entry in Hent.
    destruct (lookup_lt_is_Some_2 a j Hj) as [x Hx].
    destruct (lookup_lt_is_Some_2 b j) as [y Hy]; [lia|].
    rewrite Hx, Hy in *. simpl in Hent. by subst.
  - rewrite !lookup_ge_None_2 by lia. done.
Qed.

(** [Work] does not depend on the order in which the processes finish. *)
Lemma work_after_perm s d1 d2 :
  inv_dimensions s → (∀ i, i ∈ d1 → (i < n s)%nat) → d1 ≡ₚ d2 →
  work_after s d1 = work_after s d2.
Proof.
  intros Hdim Hlt Hperm.
  assert (∀ i, i ∈ d2 → (i < n s)%nat) as Hlt2.
  { intros i Hi. apply Hlt. by rewrite Hperm. }
  apply list_eq_entry.
  - by rewrite !(length_work_after s Hdim).
  - intros j Hj. rewrite (length_work_after s Hdim) in Hj by done.
    rewrite !entry_work_after by done. f_equal. by apply sum_over_perm.
Qed.

Lemma can_system_recover_order (order1 order2 : SetOrder) s (T : gset nat) :
  valid s → (∀ i, i ∈ T → (i < n s)%nat) →
  @can_system_recover order1 s T = @can_system_recover order2 s T.
Proof.
  intros Hvalid HT. unfold can_system_recover.
  rewrite (@released_available_spec order1 s T Hvalid HT).
  rewrite (@released_available_spec order2 s T Hvalid HT).
  rewrite (work_after_perm s (@set_iter order1 T) (@set_iter order2 T)).
  - done.
  - by apply valid_dimensions.
  - intros i Hi. apply HT. by apply (@set_iter_elem order1).
  - by rewrite !set_iter_perm.
Qed.

Lemma foldM_ext {A S} (f g : S → A → outcome S) (a : S) (l : list A) :
  (∀ a x, x ∈ l → f a x = g a x) → foldM f a l = foldM g a l.
Proof.
  revert a. induction l as [|x l IH]; intros a Hfg; simpl; [done|].
  rewrite Hfg by set_solver. destruct (g a x) as [a'| |]; simpl; try done.
  apply IH. intros. apply Hfg. set_solver.
Qed.

Lemma find_minimal_termination_set_order (order1 order2 : SetOrder) s
    (D : gset nat) :
  valid s → (∀ i, i ∈ D → (i < n s)%nat) →
  @Recovery.find_minimal_termination_set order1 s D
  = @Recovery.find_minimal_termination_set order2 s D.
Proof.
  intros Hvalid HD. unfold Recovery.find_minimal_termination_set.
  case_decide; [done|]. generalize (@nil Recovery.RecoverySuggestion).
  induction (seq 1 (size D)) as [|k sizes IH]; intros acc; simpl; [done|].
  rewrite (foldM_ext (@Recovery.try_subset order1 s)
                     (@Recovery.try_subset order2 s)).
  - by destruct (foldM _ _ _) as [[|x sugg]| |]; simpl.
  - intros a c [Hsub _]%elem_of_combinations. unfold Recovery.try_subset.
    rewrite (can_system_recover_order order1 order2); [done..|].
    intros i Hi%elem_of_list_to_set.
    apply HD, elem_of_sorted. by eapply elem_of_sublist.
Qed.

(** X10. The recovery check and the search for termination sets do not
    depend on the iteration order of sets: on a valid state and ids of the
    state, [can_system_recover] and [find_minimal_termination_set] return
    the same value under any two orders, and so does
    [suggest_recovery_strategies] with the Matrix Detector, which runs no
    search and so depends neither on the order of the adjacency sets nor
    on the number of free frames. *)
Theorem recovery_independent_of_set_order (order1 order2 : SetOrder)
    (neighbours1 neighbours2 : NeighbourOrder) (stack1 stack2 : CallStack)
    (s : SystemState) (D : gset nat) :
  valid s → (∀ i, i ∈ D → (i < n s)%nat) →
  @can_system_recover order1 s D = @can_system_recover order2 s D ∧
  @Recovery.find_minimal_termination_set order1 s D
  = @Recovery.find_minimal_termination_set order2 s D ∧
  @suggest_recovery_strategies order1 neighbours1 stack1 s false
  = @suggest_recovery_strategies order2 neighbours2 stack2 s false.
Proof.
  intros Hvalid HD. split; [by apply can_system_recover_order|].
  split; [by apply find_minimal_termination_set_order|].
  unfold suggest_recovery_strategies.
  destruct (detect_deadlock_matrix_spec s (valid_dimensions _ Hvalid))
    as (order & tr & -> & _).
  cbn [mbind outcome_mbind outcome_bind deadlocked deadlocked_processes].
  destruct (bool_decide _); [|done].
  rewrite (find_minimal_termination_set_order order1 order2); [done..|].
  by intros i [? _]%elem_of_unfinished.
Qed.

Lemma recovery_independent_of_set_order_witness :
  @can_system_recover ascending_order scenario_C {[0%nat; 1%nat]}
  = @can_system_recover descending_order scenario_C {[0%nat; 1%nat]} ∧
  @Recovery.find_minimal_termination_set ascending_order scenario_C
    {[0%nat; 1%nat]}
  = @Recovery.find_minimal_termination_set descending_order scenario_C
      {[0%nat; 1%nat]} ∧
  @suggest_recovery_strategies ascending_order
    (uniform_order ascending_order) default_stack scenario_C false
  = @suggest_recovery_strategies descending_order alternating_order
      {| free_frames := 0 |} scenario_C false.
Proof.
  apply (recovery_independent_of_set_order ascending_order descending_order
           (uniform_order ascending_order) alternating_order
           default_stack {| free_frames := 0 |}
           scenario_C {[0%nat; 1%nat]}).
  - apply post_init_Ok. vm_compute. reflexivity.
  - intros i Hi. assert (i = 0 ∨ i = 1)%nat as [-> | ->] by set_solver;
      vm_compute; lia.
Defined.

(** Two states with the same tables select the same processes. *)
Lemma eligible_same_tables s1 s2 done i :
  n s1 = n s2 → m s1 = m s2 → available s1 = available s2 →
  allocation s1 = allocation s2 → request s1 = request s2 →
  eligible s1 done i ↔ eligible s2 done i.
Proof.
  intros Hn Hm Hav Hal Hrq.
  unfold eligible, req_row, work_after, alloc_row.
  by rewrite Hn, Hm, Hav, Hal, Hrq.
Qed.

Lemma fmap_lookup_range {A} (l : list A) (f : nat → A) :
  (∀ i x, l !! i = Some x → f i = x) → f <$> range (length l) = l.
Proof.
  intros Hf. apply list_eq. intros i. rewrite list_lookup_fmap.
  change (range (length l) !! i) with (seq 0 (length l) !! i).
  destruct (l !! i) as [x|] eqn:Hx.
  - rewrite lookup_seq_lt by (by eapply lookup_lt_Some). simpl.
    f_equal. by apply Hf.
  - apply lookup_ge_None in Hx. by rewrite lookup_seq_ge by lia.
Qed.

Lemma remaining_pids_empty s : remaining_pids s ∅ = range (n s).
Proof.
  unfold remaining_pids. induction (range (n s)) as [|i l IH]; [done|].
  rewrite filter_cons_True by set_solver. by rewrite IH.
Qed.

(** Terminating no process: the outcome of the Matrix Detector. *)
Lemma can_system_recover_empty `{SetOrder} s :
  valid s →
  ∃ r tr, detect_deadlock_matrix s = Ok r ∧
    can_system_recover s ∅ = Ok (negb (deadlocked r), tr).
Proof.
  intros Hvalid. pose proof (valid_dimensions s Hvalid) as Hdim.
  destruct (detect_deadlock_matrix_spec s Hdim)
    as (order & tr & -> & Hnd & Hlf & Hex).
  eexists _. cbn [deadlocked].
  destruct (can_system_recover_cases s ∅ Hvalid)
    as [[Hrem [tr' ->]]|(_ & ps & order' & tr' & Hlen & _ & Hlf' & Hex' & ->)].
  - intros i Hi. by apply not_elem_of_empty in Hi.
  - exists tr'. split; [done|]. do 2 f_equal.
    rewrite remaining_pids_empty in Hrem.
    assert (unfinished s order = ∅) as ->; [|done].
    apply set_eq. intros i. rewrite elem_of_unfinished.
    split; [|by intros ?%not_elem_of_empty].
    intros [Hi%elem_of_range _]. rewrite Hrem in Hi.
    by apply not_elem_of_nil in Hi.
  - exists tr'. split; [done|]. do 2 f_equal.
    rewrite remaining_pids_empty in *.
    assert (set_iter (∅ : gset nat) = []) as Hnil.
    { apply Permutation_nil_r. by rewrite set_iter_perm, elements_empty. }
    rewrite Hnil in *. change (work_after s []) with (available s) in *.
    destruct Hdim as (_ & [Hal _] & [Hrq _]).
    assert (alloc_row s <$> range (n s) = allocation s) as Hal'.
    { rewrite <- Hal. apply fmap_lookup_range.
      intros i x Hx. unfold alloc_row. by rewrite Hx. }
    assert (req_row s <$> range (n s) = request s) as Hrq'.
    { rewrite <- Hrq. apply fmap_lookup_range.
      intros i x Hx. unfold req_row. by rewrite Hx. }
    rewrite Hal', Hrq' in Hlf', Hex' |- *.
    set (red := mkSystemState _ _ _ _ _) in *.
    assert (n red = n s) as Hn.
    { unfold n at 1. simpl. rewrite Hlen. unfold range.
      rewrite length_seq. unfold n. lia. }
    assert (∀ done i, eligible red done i ↔ eligible s done i) as Hel.
    { intros. by apply eligible_same_tables. }
    assert (order' = order) as ->.
    { apply (lowest_first_unique s); try done.
      - intros k i Hk. destruct (Hlf' k i Hk) as [H1 H2].
        split; [by apply Hel|]. intros j Hj. rewrite <- Hel. by apply H2.
      - intros j. rewrite <- Hel. apply Hex'. }
    assert (unfinished red order = unfinished s order) as ->.
    { unfold unfinished. by rewrite Hn. }
    case_bool_decide as Hsize.
    + by rewrite Hsize, size_empty.
    + rewrite (bool_decide_eq_true_2 (0 < size (unfinished s order))%nat).
      * done.
      * by apply size_pos.
Qed.

(** Terminating every process. *)
Lemma can_system_recover_all `{SetOrder} s (T : gset nat) :
  valid s → (∀ i, i ∈ T ↔ (i < n s)%nat) →
  ∃ tr, can_system_recover s T = Ok (true, tr).
Proof.
  intros Hvalid HT.
  destruct (can_system_recover_cases s T Hvalid) as [[_ Htrue]|[Hrem _]].
  - intros i. apply HT.
  - done.
  - destruct (remaining_pids s T) as [|i rem] eqn:Heq; [done|].
    assert (i ∈ remaining_pids s T) as Hi by (rewrite Heq; set_solver).
    unfold remaining_pids in Hi.
    apply list_elem_of_filter in Hi as [Hnot Hi%elem_of_range].
    by apply HT in Hi.
Qed.

(** X11. Terminating no process recovers a valid state exactly when the
    Matrix Detector reports no deadlock on it, and terminating every
    process always recovers it. *)
Theorem recovery_check_extremes `{SetOrder} (s : SystemState) :
  valid s →
  (∃ r tr, detect_deadlock_matrix s = Ok r ∧
     can_system_recover s ∅ = Ok (negb (deadlocked r), tr)) ∧
  (∀ T : gset nat, (∀ i, i ∈ T ↔ (i < n s)%nat) →
     ∃ tr, can_system_recover s T = Ok (true, tr)).
Proof.
  intros Hvalid. split; [by apply can_system_recover_empty|].
  intros T HT. by apply can_system_recover_all.
Qed.

Lemma recovery_check_extremes_witness :
  (∃ r tr, detect_deadlock_matrix scenario_A = Ok r ∧
     @can_system_recover ascending_order scenario_A ∅
     = Ok (negb (deadlocked r), tr)) ∧
  (∀ T : gset nat, (∀ i, i ∈ T ↔ (i < n scenario_A)%nat) →
     ∃ tr, @can_system_recover ascending_order scenario_A T = Ok (true, tr)).
Proof.
  apply (@recovery_check_extremes ascending_order scenario_A).
  apply post_init_Ok. vm_compute. reflexivity.
Defined.

(** ** The advisor *)

Lemma filter_snoc {A} (P : A → Prop) `{∀ x, Decision (P x)} (l : list A) x :
  filter P (l ++ [x]) = filter P l ++ (if decide (P x) then [x] else []).
Proof.
  by rewrite filter_app.
Qed.

(** The entries of a row collected by the inner loop of
    [suggest_preemption_targets]. *)
Lemma held_resources_spec s pid :
  inv_dimensions s → (pid < n s)%nat →
  foldM (λ held_resources j,
           arow ← py_index (allocation s) pid;
           a ← py_index arow j;
           if 0 <? a then Ok (held_resources ++ [(j, a)])
           else Ok held_resources) [] (range (m s))
  = Ok ((λ j, (j, entry (alloc_row s pid) j)) <$> held_types s pid).
Proof.
  intros Hdim Hpid.
  destruct (alloc_row_lookup s Hdim pid Hpid) as [Ha Hlen].
  match goal with |- foldM ?f ?st0 ?l = _ =>
    destruct (foldM_inv f
      (λ pre held, held = (λ j, (j, entry (alloc_row s pid) j))
                            <$> filter (λ j, 0 < entry (alloc_row s pid) j) pre)
      l st0) as (held & -> & ->)
  end; [done| |done].
  intros pre j held [post Hsplit] ->.
  assert (j < m s)%nat as Hj.
  { apply elem_of_range. rewrite Hsplit. set_solver. }
  rewrite (py_index_lookup _ _ _ Ha). simpl.
  destruct (lookup_lt_is_Some_2 (alloc_row s pid) j) as [a Haj]; [lia|].
  rewrite (py_index_lookup _ _ _ Haj). simpl.
  assert (entry (alloc_row s pid) j = a) as Hent.
  { unfold entry. by rewrite Haj. }
  rewrite filter_snoc, fmap_app, Hent.
  destruct (Z.ltb_spec 0 a); eexists; split; try reflexivity.
  - destruct (decide (0 < a)); [|lia]. simpl. by rewrite Hent.
  - destruct (decide (0 < a)); [lia|]. simpl. by rewrite app_nil_r.
Qed.

(** What [suggest_preemption_targets] returns. *)
Lemma suggest_preemption_targets_spec s (D : gset nat) :
  inv_dimensions s → (∀ i, i ∈ D → (i < n s)%nat) →
  ∃ l, Recovery.suggest_preemption_targets s D = Ok l ∧
    suggestion_summary <$> l
    = (λ i, ("preempt", {[i]}, Some (list_to_set (held_types s i))))
        <$> filter (λ i, held_types s i ≠ []) (sorted D).
Proof.
  intros Hdim HD. unfold Recovery.suggest_preemption_targets.
  match goal with |- context [foldM ?f ?st0 ?l] =>
    destruct (foldM_inv f
      (λ pre st, suggestion_summary <$> st
         = (λ i, ("preempt", {[i]}, Some (list_to_set (held_types s i))))
             <$> filter (λ i, held_types s i ≠ []) pre)
      l st0) as (st & -> & Hst)
  end; [done| |by eexists].
  intros pre pid sugg [post Hsplit] Hsugg.
  assert (pid < n s)%nat as Hpid.
  { apply HD, elem_of_sorted. rewrite Hsplit. set_solver. }
  rewrite (held_resources_spec s pid Hdim Hpid).
  cbn [mbind outcome_mbind outcome_bind].
  rewrite filter_snoc, fmap_app, <- Hsugg.
  destruct (held_types s pid) as [|j js] eqn:Hheld.
  - eexists. split; [reflexivity|].
    destruct (decide _) as [Hne|_]; [by destruct Hne|]. by rewrite app_nil_r.
  - rewrite fmap_cons. eexists. split; [reflexivity|].
    destruct (decide _) as [_|Hne]; [|by destruct Hne].
    rewrite fmap_app. f_equal.
    unfold suggestion_summary. cbn [fmap list_fmap Recovery.action_type
      Recovery.processes Recovery.resources fst]. rewrite Hheld.
    do 3 f_equal. f_equal. f_equal.
    rewrite <- list_fmap_compose.
    rewrite <- (list_fmap_id js) at 2. by apply list_fmap_ext.
Qed.

(** X12. On ids of a valid state [suggest_preemption_targets] returns one
    suggestion of kind ["preempt"] for every listed process that holds an
    instance of some resource type, in ascending order of process id, and
    the resources of the suggestion are exactly the resource types the
    process holds; a process that holds nothing gets no suggestion. *)
Theorem preemption_targets_hold_resources (s : SystemState) (D : gset nat) :
  valid s → (∀ i, i ∈ D → (i < n s)%nat) →
  ∃ l, Recovery.suggest_preemption_targets s D = Ok l ∧
    suggestion_summary <$> l
    = (λ i, ("preempt", {[i]}, Some (list_to_set (held_types s i))))
        <$> filter (λ i, held_types s i ≠ []) (sorted D) ∧
    ∀ i j, j ∈ held_types s i
           ↔ (j < m s)%nat ∧ 0 < entry (alloc_row s i) j.
Proof.
  intros Hdim%valid_dimensions HD.
  destruct (suggest_preemption_targets_spec s D Hdim HD) as (l & Hl & Hsum).
  exists l. split; [done|]. split; [done|].
  intros i j. unfold held_types.
  rewrite list_elem_of_filter, elem_of_range. tauto.
Qed.

Lemma preemption_targets_hold_resources_witness :
  ∃ l, Recovery.suggest_preemption_targets scenario_C {[0%nat; 1%nat]} = Ok l ∧
    suggestion_summary <$> l
    = (λ i, ("preempt", {[i]}, Some (list_to_set (held_types scenario_C i))))
        <$> filter (λ i, held_types scenario_C i ≠ [])
              (sorted {[0%nat; 1%nat]}) ∧
    ∀ i j, j ∈ held_types scenario_C i
           ↔ (j < m scenario_C)%nat ∧ 0 < entry (alloc_row scenario_C i) j.
Proof.
  apply (preemption_targets_hold_resources scenario_C {[0%nat; 1%nat]}).
  - apply post_init_Ok. vm_compute. reflexivity.
  - intros i Hi. assert (i = 0 ∨ i = 1)%nat as [-> | ->] by set_solver;
      vm_compute; lia.
Defined.

Lemma filter_all {A} (P : A → Prop) `{∀ x, Decision (P x)} (l : list A) :
  (∀ x, x ∈ l → P x) → filter P l = l.
Proof.
  induction l as [|x l IH]; intros Hall; [done|].
  rewrite filter_cons_True by (apply Hall; set_solver).
  rewrite IH; [done|]. intros y Hy. apply Hall. set_solver.
Qed.

(** Terminating the processes the Matrix Detector leaves unfinished. *)
Lemma recovers_unfinished `{SetOrder} s order :
  valid s → NoDup order → lowest_first s order →
  recovers s (unfinished s order) = true.
Proof.
  intros Hvalid Hnd Hlf. unfold recovers.
  destruct (can_system_recover_cases s (unfinished s order) Hvalid)
    as [[_ [tr ->]]|(_ & ps & order' & tr' & Hlen & Hnd' & Hlf' & Hex' & ->)].
  - by intros i [? _]%elem_of_unfinished.
  - done.
  - rewrite bool_decide_eq_true_2; [done|].
    by apply (reduced_none_unfinished s order Hvalid Hnd Hlf ps Hlen order').
Qed.

Lemma foldM_preserves {A S} (f : S → A → outcome S) (Q : S → Prop)
    (l : list A) (a b : S) :
  (∀ a x b, Q a → f a x = Ok b → Q b) →
  Q a → foldM f a l = Ok b → Q b.
Proof.
  intros Hf. revert a. induction l as [|x l IH]; intros a Ha; simpl.
  - by intros [= <-].
  - intros (a' & Ha' & Hrest)%bind_Ok. eauto.
Qed.

(** The search only ever suggests terminations. *)
Lemma find_minimal_termination_set_kind `{SetOrder} s (D : gset nat) sugg :
  Recovery.find_minimal_termination_set s D = Ok sugg →
  Forall (λ x, Recovery.action_type x = "terminate" ∧
               Recovery.resources x = None) sugg.
Proof.
  unfold Recovery.find_minimal_termination_set.
  case_decide; [by intros [= <-]|].
  assert (Forall (λ x, Recovery.action_type x = "terminate" ∧
                       Recovery.resources x = None)
            (@nil Recovery.RecoverySuggestion)) as Hacc by constructor.
  revert Hacc. generalize (@nil Recovery.RecoverySuggestion).
  induction (seq 1 (size D)) as [|k sizes IH]; intros acc Hacc; simpl.
  - by intros [= <-].
  - intros (acc' & Hfold & Hrest)%bind_Ok.
    assert (Forall (λ x, Recovery.action_type x = "terminate" ∧
                         Recovery.resources x = None) acc') as Hacc'.
    { revert Hfold. apply foldM_preserves; [|done].
      intros a c b Ha. unfold Recovery.try_subset.
      intros ([[] tr] & _ & Hb)%bind_Ok; simplify_eq; [|done].
      apply Forall_app. split; [done|]. by repeat constructor. }
    destruct acc' as [|x acc']; [by apply (IH [])|].
    by injection Hrest as <-.
Qed.

(** X13. With the Matrix Detector, [suggest_recovery_strategies] returns
    on every valid state: the empty list when there is no deadlock, and
    otherwise a non-empty list of terminations followed by the
    preemptions.  Every termination is a set of deadlocked processes that
    recovers the state, all of one size [k ≥ 1], and no smaller set of
    deadlocked processes, the empty set included, recovers it. *)
Theorem matrix_recovery_strategies `{SetOrder} `{NeighbourOrder} `{CallStack}
    (s : SystemState) :
  valid s →
  ∃ r l, detect_deadlock_matrix s = Ok r ∧
    suggest_recovery_strategies s false = Ok l ∧
    (deadlocked r = false → l = []) ∧
    (deadlocked r = true →
     ∃ terminations preemptions k,
       l = terminations ++ preemptions ∧
       terminations ≠ [] ∧ (1 ≤ k)%nat ∧
       Recovery.find_minimal_termination_set s (deadlocked_processes r)
       = Ok terminations ∧
       Recovery.suggest_preemption_targets s (deadlocked_processes r)
       = Ok preemptions ∧
       Forall (λ x, Recovery.action_type x = "terminate" ∧
                    Recovery.processes x ⊆ deadlocked_processes r ∧
                    size (Recovery.processes x) = k ∧
                    recovers s (Recovery.processes x) = true) terminations ∧
       (∀ T, T ⊆ deadlocked_processes r → (size T < k)%nat →
             recovers s T = false) ∧
       Forall (λ x, Recovery.action_type x = "preempt") preemptions).
Proof.
  intros Hvalid. pose proof (valid_dimensions s Hvalid) as Hdim.
  destruct (detect_deadlock_matrix_spec s Hdim)
    as (order & tr & Hr & Hnd & Hlf & Hex).
  unfold suggest_recovery_strategies. rewrite Hr.
  cbn [mbind outcome_mbind outcome_bind deadlocked deadlocked_processes].
  assert (recovers s ∅
          = negb (bool_decide (0 < size (unfinished s order))%nat)) as Hnone.
  { unfold recovers. destruct (can_system_recover_empty s Hvalid)
      as (r' & tr' & Hr' & ->). rewrite Hr in Hr'. injection Hr' as <-.
    cbn [deadlocked]. by destruct (bool_decide _). }
  destruct (bool_decide (0 < size (unfinished s order))%nat) eqn:Hsize.
  2:{ eexists _, _. split; [reflexivity|]. split; [reflexivity|].
      split; [done|]. intros [=]. }
  apply bool_decide_eq_true in Hsize. cbn [negb] in Hnone.
  set (D := unfinished s order) in *.
  assert (∀ i, i ∈ D → (i < n s)%nat) as HD
    by by intros i [? _]%elem_of_unfinished.
  destruct (find_minimal_termination_set_total s D Hvalid HD) as [t Ht].
  destruct (suggest_preemption_targets_spec s D Hdim HD) as (p & Hp & Hsum).
  rewrite Ht, Hp. cbn [mbind outcome_mbind outcome_bind].
  eexists _, _. split; [reflexivity|].
  split; [reflexivity|]. split; [intros [=]|]. intros _.
  cbn [deadlocked_processes]. fold D.
  assert (D ≠ ∅) as Hne.
  { intros Hempty. rewrite Hempty, size_empty in Hsize. lia. }
  pose proof (find_minimal_termination_set_kind s D t Ht) as Hkind.
  pose proof Ht as Ht2. unfold Recovery.find_minimal_termination_set in Ht2.
  rewrite decide_False in Ht2 by done.
  destruct (try_sizes_spec s Hvalid D 1 (size D) HD) as (t' & Ht' & Hcases).
  rewrite Ht2 in Ht'. injection Ht' as <-.
  destruct Hcases as [[Hnil Hall]|(Hsugg & k & Hk & Hsets & Hbelow)].
  { destruct (subset_combination D D) as (c & Hc & Hset); [done|].
    pose proof (size_pos D Hne).
    pose proof (recovers_unfinished s order Hvalid Hnd Hlf) as Hrec.
    fold D in Hrec. rewrite <- Hset, (Hall (size D) c) in Hrec; [done|lia|done]. }
  exists t, p, k. split_and!; try done; [lia| | |].
  - rewrite Forall_forall in Hkind |- *. intros x Hx.
    destruct (Hkind x Hx) as [Hact _]. split; [done|].
    assert (Recovery.processes x ∈ Recovery.processes <$> t) as Hin
      by by apply list_elem_of_fmap_2.
    rewrite Hsets in Hin.
    apply list_elem_of_fmap in Hin as (c & -> & [Hrec Hc]%list_elem_of_filter).
    destruct (combination_subset D c k Hc). done.
  - intros T HTD HT. destruct (decide (T = ∅)) as [->|HTne]; [done|].
    destruct (subset_combination D T HTD) as (c & Hc & <-).
    eapply Hbelow; [|exact Hc]. apply size_pos in HTne. lia.
  - assert (Forall (λ y, y.1.1 = "preempt") (suggestion_summary <$> p)) as Hall.
    { rewrite Hsum. apply Forall_fmap, Forall_forall. by intros i _. }
    by apply Forall_fmap in Hall.
Qed.

Lemma matrix_recovery_strategies_witness :
  ∃ r l, detect_deadlock_matrix scenario_C = Ok r ∧
    @suggest_recovery_strategies ascending_order alternating_order
      default_stack scenario_C false = Ok l ∧
    (deadlocked r = false → l = []) ∧
    (deadlocked r = true →
     ∃ terminations preemptions k,
       l = terminations ++ preemptions ∧
       terminations ≠ [] ∧ (1 ≤ k)%nat ∧
       @Recovery.find_minimal_termination_set ascending_order scenario_C
         (deadlocked_processes r) = Ok terminations ∧
       Recovery.suggest_preemption_targets scenario_C (deadlocked_processes r)
       = Ok preemptions ∧
       Forall (λ x, Recovery.action_type x = "terminate" ∧
                    Recovery.processes x ⊆ deadlocked_processes r ∧
                    size (Recovery.processes x) = k ∧
                    @recovers ascending_order scenario_C
                      (Recovery.processes x) = true) terminations ∧
       (∀ T, T ⊆ deadlocked_processes r → (size T < k)%nat →
             @recovers ascending_order scenario_C T = false) ∧
       Forall (λ x, Recovery.action_type x = "preempt") preemptions).
Proof.
  apply (@matrix_recovery_strategies ascending_order alternating_order
           default_stack scenario_C).
  apply post_init_Ok. vm_compute. reflexivity.
Defined.



(** ** Dictionaries *)

Lemma mapM_inverse {A B} (f : A → outcome B) (g : B → A) (Q : B → Prop)
    (l : list A) (l' : list B) :
  (∀ x y, f x = Ok y ↔ x = g y ∧ Q y) →
  mapM f l = Ok l' ↔ l = g <$> l' ∧ Forall Q l'.
Proof.
  intros Hf. revert l'. induction l as [|x l IH]; intros l'; simpl.
  - split.
    + intros [= <-]. by split.
    + intros [Hl _]. symmetry in Hl. apply fmap_nil_inv in Hl. by subst.
  - rewrite bind_Ok. split.
    + intros (y & [-> HQ]%Hf & Hrest).
      apply bind_Ok in Hrest as (ys & [-> Hall]%IH & [= <-]).
      split; [done|by constructor].
    + intros [Hl Hall]. destruct l' as [|y ys]; [done|].
      injection Hl as -> ->. apply Forall_cons in Hall as [HQ Hall].
      exists y. split; [by apply Hf|].
      apply bind_Ok. exists ys. split; [by apply IH|done].
Qed.

Lemma mapM_fmap {A B C} (f : B → outcome C) (g : A → B) (l : list A) :
  mapM f (g <$> l) = mapM (f ∘ g) l.
Proof.
  induction l as [|x l IH]; [done|].
  rewrite fmap_cons. simpl. by rewrite IH.
Qed.

Lemma fmap_injective {A B} (f : A → B) (l1 l2 : list A) :
  f <$> l1 = f <$> l2 → (∀ x y, f x = f y → x = y) → l1 = l2.
Proof.
  intros Heq Hf. revert l2 Heq.
  induction l1 as [|x l1 IH]; intros [|y l2] Heq; try done.
  injection Heq as Hxy Heq. f_equal; [by apply Hf|by apply IH].
Qed.

Lemma parse_process_Ok (d : Schema.ProcessDict) (p : Process) :
  (pid ← Schema.getkey (Schema.p_pid d);
   name ← Schema.getkey (Schema.p_name d);
   new_Process pid name) = Ok p
  ↔ d = Schema.mkProcessDict (Some (pid p)) (Some (name p)) ∧ 0 ≤ pid p.
Proof.
  destruct d as [[i|] [nm|]], p as [i' nm']; simpl;
    rewrite ?new_Process_Ok; naive_solver.
Qed.

Lemma parse_resource_Ok (d : Schema.ResourceDict) (r : ResourceType) :
  (rid ← Schema.getkey (Schema.r_rid d);
   name ← Schema.getkey (Schema.r_name d);
   instances ← Schema.getkey (Schema.r_instances d);
   new_ResourceType rid name instances) = Ok r
  ↔ d = Schema.mkResourceDict (Some (rid r)) (Some (rname r))
          (Some (instances r)) ∧
    (0 ≤ rid r ∧ 0 ≤ instances r).
Proof.
  destruct d as [[i|] [nm|] [k|]], r as [i' nm' k']; simpl;
    rewrite ?new_ResourceType_Ok; naive_solver.
Qed.

(** The dictionaries that [dict_to_system_state] accepts. *)
Lemma dict_to_system_state_Ok (data : Schema.StateDict) (s : SystemState) :
  Schema.dict_to_system_state data = Ok s ↔
  is_Some (Schema.schema_version data) ∧
  Schema.d_processes data
  = Schema.d_processes (Schema.system_state_to_dict s) ∧
  Schema.d_resource_types data
  = Schema.d_resource_types (Schema.system_state_to_dict s) ∧
  Schema.d_available data = Some (available s) ∧
  Schema.d_allocation data = Some (allocation s) ∧
  Schema.d_request data = Some (request s) ∧
  valid s ∧
  Forall (λ p, 0 ≤ pid p) (processes s) ∧
  Forall (λ rt, 0 ≤ rid rt) (resource_types s).
Proof.
  unfold Schema.dict_to_system_state.
  destruct data as [ver ps rts av al rq]. simpl. split.
  - destruct ver as [v|]; [|done]. simpl.
    intros (plist & Hps & Hrest)%bind_Ok.
    apply bind_Ok in Hrest as (procs & Hprocs & Hrest).
    apply bind_Ok in Hrest as (rlist & Hrts & Hrest).
    apply bind_Ok in Hrest as (res & Hres & Hrest).
    apply bind_Ok in Hrest as (av' & Hav & Hrest).
    apply bind_Ok in Hrest as (al' & Hal & Hrest).
    apply bind_Ok in Hrest as (rq' & Hrq & Hnew).
    destruct ps, rts, av, al, rq; simplify_eq/=.
    apply (mapM_inverse _ _ _ _ _ parse_process_Ok) in Hprocs as [-> Hpids].
    apply (mapM_inverse _ _ _ _ _ parse_resource_Ok) in Hres as [-> Hrids].
    unfold new_SystemState in Hnew.
    apply bind_unit_Ok in Hnew as [Hpost [= <-]]. simpl.
    split_and!; try done.
    + by apply post_init_Ok.
    + eapply Forall_impl; [exact Hrids|]. by intros rt [? _].
  - intros ([v ->] & -> & -> & -> & -> & -> & Hvalid & Hpids & Hrids). simpl.
    apply bind_Ok. exists (processes s). split.
    { apply (mapM_inverse _ _ _ _ _ parse_process_Ok). done. }
    apply bind_Ok. exists (resource_types s). split.
    { apply (mapM_inverse _ _ _ _ _ parse_resource_Ok). split; [done|].
      pose proof (valid_instances_nonneg s Hvalid) as Hinst.
      rewrite Forall_lookup in *. naive_solver. }
    by apply new_SystemState_valid.
Qed.

(** X15. Writing a state to a dictionary and reading it back is the same
    as cloning it: the round trip returns a state exactly when the state
    is valid and its ids are non-negative, and the state it returns is the
    original. *)
Theorem dict_round_trip (s s' : SystemState) :
  Schema.dict_to_system_state (Schema.system_state_to_dict s) = clone s ∧
  (Schema.dict_to_system_state (Schema.system_state_to_dict s) = Ok s' ↔
   s' = s ∧ valid s ∧
   Forall (λ p, 0 ≤ pid p) (processes s) ∧
   Forall (λ rt, 0 ≤ rid rt) (resource_types s)).
Proof.
  split.
  - unfold Schema.dict_to_system_state, Schema.system_state_to_dict, clone.
    cbn [Schema.schema_version Schema.d_processes Schema.d_resource_types
         Schema.d_available Schema.d_allocation Schema.d_request
         Schema.getkey mbind outcome_mbind outcome_bind].
    by rewrite !mapM_fmap.
  - rewrite dict_to_system_state_Ok.
    unfold Schema.system_state_to_dict. simpl. split.
    + intros (_ & Hps & Hrts & [= Hav] & [= Hal] & [= Hrq] & Hvalid & Hp & Hr).
      injection Hps as Hps. injection Hrts as Hrts.
      apply fmap_injective in Hps; [|by intros [] [] [= -> ->]].
      apply fmap_injective in Hrts; [|by intros [] [] [= -> -> ->]].
      destruct s, s'; simplify_eq/=. done.
    + intros (-> & Hvalid & Hp & Hr). split_and!; eauto.
Qed.

(** X16. [dict_to_system_state] raises [ValueError] when the key
    ["schema_version"] is missing, whatever else the dictionary holds, and
    [KeyError] when the version is there and ["processes"] is missing.  It
    returns a state exactly for the dictionaries that hold a version, of
    any value, and the five tables of a valid state with non-negative
    ids, and that state is the one it returns. *)
Theorem dict_to_system_state_accepts (data : Schema.StateDict) :
  (Schema.schema_version data = None →
   Schema.dict_to_system_state data
   = Raise (ValueError "Missing schema_version in JSON")) ∧
  (is_Some (Schema.schema_version data) → Schema.d_processes data = None →
   Schema.dict_to_system_state data = Raise KeyError) ∧
  (∀ s, Schema.dict_to_system_state data = Ok s ↔
     is_Some (Schema.schema_version data) ∧
     Schema.d_processes data
     = Schema.d_processes (Schema.system_state_to_dict s) ∧
     Schema.d_resource_types data
     = Schema.d_resource_types (Schema.system_state_to_dict s) ∧
     Schema.d_available data = Some (available s) ∧
     Schema.d_allocation data = Some (allocation s) ∧
     Schema.d_request data = Some (request s) ∧
     valid s ∧
     Forall (λ p, 0 ≤ pid p) (processes s) ∧
     Forall (λ rt, 0 ≤ rid rt) (resource_types s)).
Proof.
  split_and!.
  - unfold Schema.dict_to_system_state. by intros ->.
  - unfold Schema.dict_to_system_state. by intros [v ->] ->.
  - intros s. apply dict_to_system_state_Ok.
Qed.

(** ** The samples *)

Lemma assoc_None {V} (key : string) (d : list (string * V)) :
  Schema.assoc key d = None ↔ key ∉ d.*1.
Proof.
  induction d as [|[k v] d IH]; simpl.
  - split; [intros _; apply not_elem_of_nil|done].
  - case_decide as Hk.
    + subst. split; [done|]. intros Hnot. destruct Hnot. by left.
    + rewrite IH, not_elem_of_cons. naive_solver.
Qed.

(** The flag of the Wait-For Graph Detector under any two orders of the
    adjacency sets and any two stacks deep enough for the search. *)
Lemma wfg_flag_any_order (order1 order2 : NeighbourOrder)
    (stack1 stack2 : CallStack) s w1 :
  inv_dimensions s →
  wait_edges s = [] ∨ (n s < @free_frames stack1)%nat →
  wait_edges s = [] ∨ (n s < @free_frames stack2)%nat →
  @Wfg.detect_deadlock_wfg order1 stack1 s = Ok w1 →
  ∃ w2, @Wfg.detect_deadlock_wfg order2 stack2 s = Ok w2 ∧
    Wfg.deadlocked w2 = Wfg.deadlocked w1.
Proof.
  intros Hdim Hframes1 Hframes2 Hw1.
  destruct (@detect_deadlock_wfg_cycles order1 stack1 s Hdim Hframes1)
    as (w1' & Hw1' & _ & Hflag1 & _).
  rewrite Hw1 in Hw1'. injection Hw1' as <-.
  destruct (@detect_deadlock_wfg_cycles order2 stack2 s Hdim Hframes2)
    as (w2 & Hw2 & _ & Hflag2 & _).
  exists w2. split; [done|].
  destruct (Wfg.deadlocked w1), (Wfg.deadlocked w2); try done.
  - apply Hflag2, Hflag1. done.
  - symmetry. apply Hflag1, Hflag2. done.
Qed.



(** ** Safe sequences *)

Lemma safe_sequence_NoDup s o : safe_sequence s o → NoDup o.
Proof.
  intros Hsafe. apply NoDup_alt. intros a b x Ha Hb.
  assert (∀ a b, (a < b)%nat → o !! a = Some x → o !! b = Some x → False)
    as Hlt.
  { intros a' b' Hab Ha' Hb'. destruct (Hsafe b' x Hb') as (_ & Hnot & _).
    apply Hnot. apply list_elem_of_lookup. exists a'.
    by rewrite lookup_take_lt. }
  destruct (lt_eq_lt_dec a b) as [[?|?]|?]; [|done|]; exfalso; eauto.
Qed.

Lemma safe_sequence_take s o k : safe_sequence s o → safe_sequence s (take k o).
Proof.
  intros Hsafe k' i Hi.
  destruct (decide (k' < k)%nat) as [Hk|Hk].
  - rewrite lookup_take_lt in Hi by done.
    rewrite take_take, Nat.min_l by lia. by apply Hsafe.
  - apply lookup_lt_Some in Hi. rewrite length_take in Hi. lia.
Qed.

(** No safe sequence reaches a process that the selection of the detector
    leaves unfinished. *)
Lemma safe_sequence_within s order o :
  valid s → NoDup order → (∀ i, i ∈ order → (i < n s)%nat) →
  exhausted s order → safe_sequence s o → ∀ i, i ∈ o → i ∈ order.
Proof.
  intros Hvalid Hnd Hlt Hex Hsafe.
  pose proof (valid_dimensions s Hvalid) as Hdim.
  assert (∀ k i, i ∈ take k o → i ∈ order) as Htake.
  { induction k as [|k IH]; intros i Hi; [by apply not_elem_of_nil in Hi|].
    destruct (o !! k) as [x|] eqn:Hx.
    2:{ apply IH. apply lookup_ge_None in Hx.
        rewrite take_ge in Hi |- * by lia. done. }
    rewrite (take_S_r _ _ _ Hx) in Hi.
    apply elem_of_app in Hi as [Hi|Hi%list_elem_of_singleton]; [by apply IH|].
    subst i. destruct (decide (x ∈ order)) as [|Hnot]; [done|].
    destruct (Hsafe k x Hx) as (Hxn & _ & Hle).
    destruct (Hex x). split; [done|]. split; [done|].
    intros j Hj. etrans; [by apply Hle|].
    assert (∀ i, i ∈ take k o → (i < n s)%nat) as Hlt'.
    { intros i [p Hp]%list_elem_of_lookup.
      by destruct (safe_sequence_take s o k Hsafe p i Hp). }
    rewrite !entry_work_after by done.
    assert (sum_over (λ i, entry (alloc_row s i) j) (take k o)
            ≤ sum_over (λ i, entry (alloc_row s i) j) order); [|lia].
    apply sum_over_submseteq.
    - intros i. by apply entry_nonneg, alloc_row_nonneg.
    - apply NoDup_submseteq; [|done].
      eapply safe_sequence_NoDup, safe_sequence_take, Hsafe. }
  intros i Hi. apply (Htake (length o)). by rewrite take_ge.
Qed.

(** X18. The outcome of the Matrix Detector does not depend on its rule of
    selecting the lowest id first: on a valid state its [execution_order]
    is a safe sequence, every process of any safe sequence is in it, so
    that the processes it reports are those that no safe sequence can
    finish, and it reports no deadlock exactly when some safe sequence
    finishes every process. *)
Theorem matrix_deadlock_iff_no_safe_sequence (s : SystemState) :
  valid s →
  ∃ r, detect_deadlock_matrix s = Ok r ∧
    safe_sequence s (execution_order r) ∧
    (∀ o i, safe_sequence s o → i ∈ o → i ∉ deadlocked_processes r) ∧
    (∀ i, i ∈ deadlocked_processes r ↔
          (i < n s)%nat ∧ ∀ o, safe_sequence s o → i ∉ o) ∧
    (deadlocked r = false ↔
     ∃ o, safe_sequence s o ∧ ∀ i, (i < n s)%nat → i ∈ o).
Proof.
  intros Hvalid. pose proof (valid_dimensions s Hvalid) as Hdim.
  destruct (detect_deadlock_matrix_spec s Hdim)
    as (order & tr & -> & Hnd & Hlf & Hex).
  eexists. split; [reflexivity|].
  cbn [execution_order deadlocked_processes deadlocked].
  assert (safe_sequence s order) as Hsafe.
  { intros k i Hk. by destruct (Hlf k i Hk). }
  assert (∀ i, i ∈ order → (i < n s)%nat) as Hlt.
  { intros i. by apply lowest_first_lt. }
  assert (∀ o i, safe_sequence s o → i ∈ o → i ∈ order) as Hwithin.
  { intros o i Ho. by apply (safe_sequence_within s order o). }
  split; [done|]. split_and!.
  - intros o i Ho Hi [_ Hnot]%elem_of_unfinished. apply Hnot. eauto.
  - intros i. rewrite elem_of_unfinished. split.
    + intros [Hi Hnot]. split; [done|]. intros o Ho Hin. apply Hnot. eauto.
    + intros [Hi Hnone]. split; [done|]. by apply Hnone.
  - rewrite bool_decide_eq_false. split.
    + intros Hsize. exists order. split; [done|]. intros i Hi.
      destruct (decide (i ∈ order)) as [|Hnot]; [done|].
      assert (i ∈ unfinished s order) as Hin by by apply elem_of_unfinished.
      destruct Hsize. apply size_pos. set_solver.
    + intros (o & Ho & Hall) Hsize.
      assert (unfinished s order ≠ ∅) as Hne.
      { intros Hempty. rewrite Hempty, size_empty in Hsize. lia. }
      apply Hne, set_eq. intros i. rewrite elem_of_unfinished.
      split; [|by intros ?%not_elem_of_empty].
      intros [Hi Hnot]. destruct Hnot. eauto.
Qed.

Lemma matrix_deadlock_iff_no_safe_sequence_witness :
  ∃ r, detect_deadlock_matrix scenario_B = Ok r ∧
    safe_sequence scenario_B (execution_order r) ∧
    (∀ o i, safe_sequence scenario_B o → i ∈ o → i ∉ deadlocked_processes r) ∧
    (∀ i, i ∈ deadlocked_processes r ↔
          (i < n scenario_B)%nat ∧ ∀ o, safe_sequence scenario_B o → i ∉ o) ∧
    (deadlocked r = false ↔
     ∃ o, safe_sequence scenario_B o ∧ ∀ i, (i < n scenario_B)%nat → i ∈ o).
Proof.
  apply (matrix_deadlock_iff_no_safe_sequence scenario_B).
  apply post_init_Ok. vm_compute. reflexivity.
Defined.

(** ** Ids and names *)

(** The instance counts of a valid state are fixed by its tables. *)
Lemma valid_instances s :
  valid s →
  instances <$> resource_types s
  = (λ j, entry (available s) j + column_sum (allocation s) j)
      <$> range (length (available s)).
Proof.
  intros ([Hav _] & _ & Hcons & _). unfold m in Hav.
  apply list_eq. intros j. rewrite !list_lookup_fmap.
  change (range (length (available s)) !! j)
    with (seq 0 (length (available s)) !! j).
  destruct (resource_types s !! j) as [rt|] eqn:Hrt; simpl.
  - rewrite lookup_seq_lt by (apply lookup_lt_Some in Hrt; lia). simpl.
    f_equal. symmetry. by apply Hcons.
  - apply lookup_ge_None in Hrt. by rewrite lookup_seq_ge by lia.
Qed.

Lemma is_single_instance_instances s :
  is_single_instance s
  = forallb (λ v, v =? 1) (instances <$> resource_types s).
Proof.
  unfold is_single_instance.
  induction (resource_types s) as [|rt rts IH]; [done|].
  simpl. by rewrite IH.
Qed.

Lemma wait_edges_same_tables s1 s2 :
  n s1 = n s2 → m s1 = m s2 →
  allocation s1 = allocation s2 → request s1 = request s2 →
  wait_edges s1 = wait_edges s2.
Proof.
  intros Hn Hm Hal Hrq. unfold wait_edges, req_row, alloc_row.
  by rewrite Hn, Hm, Hal, Hrq.
Qed.

(** X19. Detection is by position: the ids and names of the processes and
    resource types play no role.  On two valid states with the same
    [available], [allocation] and [request] the Wait-For Graph Detector
    returns the same result, and the Matrix Detector the same flag, the
    same set of deadlocked positions, the same [finish] and the same
    [execution_order]. *)
Theorem detection_ignores_ids_and_names `{NeighbourOrder} `{CallStack}
    (s1 s2 : SystemState) :
  valid s1 → valid s2 →
  available s1 = available s2 → allocation s1 = allocation s2 →
  request s1 = request s2 →
  Wfg.detect_deadlock_wfg s1 = Wfg.detect_deadlock_wfg s2 ∧
  ∃ r1 r2, detect_deadlock_matrix s1 = Ok r1 ∧
    detect_deadlock_matrix s2 = Ok r2 ∧
    deadlocked r1 = deadlocked r2 ∧
    deadlocked_processes r1 = deadlocked_processes r2 ∧
    finish r1 = finish r2 ∧
    execution_order r1 = execution_order r2.
Proof.
  intros Hv1 Hv2 Hav Hal Hrq.
  pose proof (valid_dimensions _ Hv1) as Hd1.
  pose proof (valid_dimensions _ Hv2) as Hd2.
  assert (m s1 = m s2) as Hm.
  { destruct Hd1 as [<- _], Hd2 as [<- _]. by rewrite Hav. }
  assert (n s1 = n s2) as Hn.
  { destruct Hd1 as (_ & [<- _] & _), Hd2 as (_ & [<- _] & _). by rewrite Hal. }
  split.
  - unfold Wfg.detect_deadlock_wfg.
    rewrite (build_wait_for_graph_spec s1 Hd1).
    rewrite (build_wait_for_graph_spec s2 Hd2).
    rewrite !is_single_instance_instances, !valid_instances by done.
    by rewrite (wait_edges_same_tables s1 s2), Hn, Hm, Hav, Hal.
  - destruct (detect_deadlock_matrix_spec s1 Hd1)
      as (o1 & tr1 & -> & _ & Hlf1 & Hex1).
    destruct (detect_deadlock_matrix_spec s2 Hd2)
      as (o2 & tr2 & -> & _ & Hlf2 & Hex2).
    eexists _, _. split; [reflexivity|]. split; [reflexivity|].
    cbn [deadlocked deadlocked_processes finish execution_order].
    assert (∀ done i, eligible s1 done i ↔ eligible s2 done i) as Hel.
    { intros. by apply eligible_same_tables. }
    assert (o1 = o2) as ->.
    { apply (lowest_first_unique s2); try done.
      - intros k i Hk. destruct (Hlf1 k i Hk) as [H1 H2].
        split; [by apply Hel|]. intros j Hj. rewrite <- Hel. by apply H2.
      - intros j. rewrite <- Hel. apply Hex1. }
    unfold unfinished. by rewrite Hn.
Qed.

Lemma detection_ignores_ids_and_names_witness :
  @Wfg.detect_deadlock_wfg alternating_order default_stack scenario_A
  = @Wfg.detect_deadlock_wfg alternating_order default_stack
      (mkSystemState
         [mkProcess 7 "a"; mkProcess 7 "b"; mkProcess 2 "c"]
         [mkResourceType 5 "x" 1; mkResourceType 5 "y" 1; mkResourceType 0 "z" 1]
         (available scenario_A) (allocation scenario_A) (request scenario_A)) ∧
  ∃ r1 r2, detect_deadlock_matrix scenario_A = Ok r1 ∧
    detect_deadlock_matrix
      (mkSystemState
         [mkProcess 7 "a"; mkProcess 7 "b"; mkProcess 2 "c"]
         [mkResourceType 5 "x" 1; mkResourceType 5 "y" 1; mkResourceType 0 "z" 1]
         (available scenario_A) (allocation scenario_A) (request scenario_A))
    = Ok r2 ∧
    deadlocked r1 = deadlocked r2 ∧
    deadlocked_processes r1 = deadlocked_processes r2 ∧
    finish r1 = finish r2 ∧
    execution_order r1 = execution_order r2.
Proof.
  apply (@detection_ignores_ids_and_names alternating_order default_stack).
  - apply post_init_Ok. vm_compute. reflexivity.
  - apply post_init_Ok. vm_compute. reflexivity.
  - reflexivity.
  - reflexivity.
  - reflexivity.
Defined.

(** ** The recovery report *)

Lemma Forall_imap_concat {A} (Q : string → Prop) (f : nat → A → list string)
    (l : list A) :
  (∀ i x, Forall Q (f i x)) → Forall Q (concat (imap f l)).
Proof.
  intros Hf. apply Forall_concat, Forall_lookup. intros i ls Hls.
  rewrite list_lookup_imap in Hls.
  destruct (l !! i) as [x|]; simplify_eq/=. apply Hf.
Qed.

Lemma Forall_imap {A} (Q : string → Prop) (f : nat → A → string) (l : list A) :
  (∀ i x, Q (f i x)) → Forall Q (imap f l).
Proof.
  intros Hf. apply Forall_lookup. intros i ls Hls.
  rewrite list_lookup_imap in Hls.
  destruct (l !! i) as [x|]; simplify_eq/=. apply Hf.
Qed.

Lemma filter_nil_iff {A} (Q : A → Prop) `{∀ x, Decision (Q x)} (l : list A) :
  filter Q l ≠ [] ↔ ∃ x, x ∈ l ∧ Q x.
Proof.
  split.
  - destruct (filter Q l) as [|x xs] eqn:Hf; [done|]. intros _.
    assert (x ∈ filter Q l) as Hx by (rewrite Hf; set_solver).
    apply list_elem_of_filter in Hx. exists x. tauto.
  - intros (x & Hx & HQ) Hnil.
    assert (x ∈ filter Q l) as Hin by by apply list_elem_of_filter.
    rewrite Hnil in Hin. by apply not_elem_of_nil in Hin.
Qed.

Lemma numbered_lines_not_heading {A} (h : string) (g : nat → A → string)
    (l : list A) :
  ¬ indented h → Forall (λ line, line ≠ h) (imap (λ i x, "  " +:+ g i x) l).
Proof.
  intros Hh. apply Forall_imap. intros i x <-. apply Hh. right. by eexists.
Qed.

Lemma termination_lines_not_heading (h : string)
    (l : list Recovery.RecoverySuggestion) :
  ¬ indented h →
  Forall (λ line, line ≠ h)
    (concat (imap (λ i0 sugg,
               let i := S i0 in
               ("  " +:+ pretty i +:+ ". " +:+ Recovery.description sugg) ::
               (if bool_decide (i ≤ 3)%nat then
                  [""] ++
                  ((λ line, "     " +:+ line)
                     <$> split_lines (Recovery.explanation sugg)) ++
                  [""]
                else [])) l)).
Proof.
  intros Hh. apply Forall_imap_concat. intros i x. cbv zeta.
  assert ("" ≠ h) as Hempty by (intros <-; apply Hh; by left).
  constructor.
  - intros <-. apply Hh. right. by eexists.
  - destruct (bool_decide _); [|constructor].
    repeat (apply Forall_app; split); try by repeat constructor.
    apply Forall_fmap, Forall_forall. intros line _ <-.
    apply Hh. right. by eexists.
Qed.

Lemma headings_not_indented :
  ¬ indented "OPTION 1: Process Termination" ∧
  ¬ indented "OPTION 2: Resource Preemption".
Proof. split; intros [[=]|[r [=]]]. Qed.

(** X20. [format_recovery_report] returns its one-line message exactly for
    the empty list.  Otherwise the report opens with a rule of [=] signs,
    and its lines hold the heading of the termination section exactly
    when some suggestion is a termination, and the heading of the
    preemption section exactly when some suggestion is a preemption;
    suggestions of any other kind leave no section. *)
Theorem report_sections (suggestions : list Recovery.RecoverySuggestion) :
  (format_recovery_report suggestions
   = "No recovery strategies needed (no deadlock detected)."
   ↔ suggestions = []) ∧
  (suggestions ≠ [] →
   format_recovery_report suggestions
   = join Recovery.nl (report_lines suggestions) ∧
   ∃ rest, format_recovery_report suggestions = "=" +:+ rest) ∧
  ("OPTION 1: Process Termination" ∈ report_lines suggestions
   ↔ ∃ x, x ∈ suggestions ∧ Recovery.action_type x = "terminate") ∧
  ("OPTION 2: Resource Preemption" ∈ report_lines suggestions
   ↔ ∃ x, x ∈ suggestions ∧ Recovery.action_type x = "preempt").
Proof.
  assert (∃ tail, report_lines suggestions
                  = str_repeat "=" 60 :: "RECOVERY STRATEGIES" :: tail)
    as [tail Htail].
  { unfold report_lines.
    destruct (filter _ suggestions), (filter _ suggestions);
      rewrite <- ?app_assoc; by eexists. }
  assert (suggestions ≠ [] →
          ∃ rest, format_recovery_report suggestions = "=" +:+ rest) as Hrule.
  { intros Hne. unfold format_recovery_report.
    destruct suggestions as [|x l]; [done|]. rewrite Htail.
    eexists. unfold join. cbn [String.concat str_repeat Nat.pred].
    reflexivity. }
  destruct headings_not_indented as [Hh1 Hh2].
  split_and!.
  - split; [|by intros ->].
    intros Hmsg. destruct (decide (suggestions = [])) as [|Hne]; [done|].
    destruct (Hrule Hne) as [rest Hrest]. rewrite Hrest in Hmsg. done.
  - intros Hne. split; [by destruct suggestions|by apply Hrule].
  - unfold report_lines.
    pose proof (filter_nil_iff (λ x, Recovery.action_type x = "terminate")
                  suggestions) as HT.
    destruct (filter (λ x, Recovery.action_type x = "terminate") suggestions)
      as [|t T'];
      destruct (filter (λ x, Recovery.action_type x = "preempt") suggestions)
      as [|p P'].
    + split; [|by intros ?%HT]. intros Hin. exfalso. no_such_line Hin.
    + pose proof (numbered_lines_not_heading _
        (λ i0 sugg, pretty (S i0) +:+ ". " +:+ Recovery.description sugg)
        (p :: P') Hh1) as Hlines.
      match type of Hlines with Forall _ ?l =>
        remember l as L eqn:HL; clear HL
      end.
      split; [|by intros ?%HT]. intros Hin. exfalso. no_such_line Hin.
    + split; [intros _; by apply HT|]. intros _. set_solver.
    + split; [intros _; by apply HT|]. intros _. set_solver.
  - unfold report_lines.
    pose proof (filter_nil_iff (λ x, Recovery.action_type x = "preempt")
                  suggestions) as HP.
    destruct (filter (λ x, Recovery.action_type x = "terminate") suggestions)
      as [|t T'];
      destruct (filter (λ x, Recovery.action_type x = "preempt") suggestions)
      as [|p P'].
    + split; [|by intros ?%HP]. intros Hin. exfalso. no_such_line Hin.
    + split; [intros _; by apply HP|]. intros _. set_solver.
    + pose proof (termination_lines_not_heading _ (t :: T') Hh2) as Hlines.
      match type of Hlines with Forall _ ?l =>
        remember l as L eqn:HL; clear HL
      end.
      split; [|by intros ?%HP]. intros Hin. exfalso. no_such_line Hin.
    + split; [intros _; by apply HP|]. intros _. set_solver.
Qed.

(** ** A limit of the search *)

(** The set of processes that the Wait-For Graph Detector reports is not
    fixed by the state: on [shortcut_cycle], where the three processes
    wait for one another, visiting the neighbours of P0 in ascending order
    reports all three, and visiting them in descending order reports P0
    and P2 only. *)
Lemma reported_processes_depend_on_order :
  valid shortcut_cycle ∧ is_single_instance shortcut_cycle = true ∧
  (∃ w, @Wfg.detect_deadlock_wfg (uniform_order ascending_order) default_stack
            shortcut_cycle = Ok w ∧
        Wfg.deadlocked_processes w = {[0%nat; 1%nat; 2%nat]}) ∧
  (∃ w, @Wfg.detect_deadlock_wfg (uniform_order descending_order) default_stack
            shortcut_cycle = Ok w ∧
        Wfg.deadlocked_processes w = {[0%nat; 2%nat]}).
Proof.
  split; [apply post_init_Ok; vm_compute; reflexivity|].
  split; [reflexivity|]. split.
  - eexists. split; [vm_compute; reflexivity|].
    apply (bool_decide_unpack _). by vm_compute.
  - eexists. split; [vm_compute; reflexivity|].
    apply (bool_decide_unpack _). by vm_compute.
Qed.

(** The list of recorded cycles follows the order of each adjacency set.
    On [insertion_history] the equal sets of P1 and P2 are visited as
    8, 0 and as 0, 8 when each is visited in the order it was filled:
    the search then records P0 P1 P8 P2, then P8 P2, then P0 P1.  No one
    order for both sets gives this list; in ascending order the search
    records P0 P1 first. *)
Lemma cycles_follow_adjacency_order :
  (∃ w, @Wfg.detect_deadlock_wfg alternating_order default_stack
          insertion_history = Ok w ∧
     Wfg.processes <$> Wfg.cycles w = [[0; 1; 8; 2]; [8; 2]; [0; 1]]%nat) ∧
  (∃ w, @Wfg.detect_deadlock_wfg (uniform_order ascending_order)
          default_stack insertion_history = Ok w ∧
     Wfg.processes <$> Wfg.cycles w = [[0; 1]; [0; 1; 8; 2]; [8; 2]]%nat) ∧
  (∃ w, @Wfg.detect_deadlock_wfg (uniform_order descending_order)
          default_stack insertion_history = Ok w ∧
     Wfg.processes <$> Wfg.cycles w = [[8; 2]; [0; 1; 8; 2]; [0; 1]]%nat).
Proof.
  split_and!; (eexists; split; [vm_compute; reflexivity|reflexivity]).
Qed.
